(** * Weather dashboard view state: a shallow embedding of [weather-app.ts]

    The development follows the client code of the weather dashboard
    (persisted view state, favorites and search history, the activity
    log, the viewport-height computation, the progressive insight
    stream, and the page around them: display mode and theme, search,
    the favorite button) and states the properties of the specification
    over it, then further properties of the code.

    Conventions of the embedding.
    - JavaScript values that come out of [JSON.parse] are kept untyped
      ([JValue]): the source casts them without checking.
    - A statement of the source either completes normally or throws; the
      monad [M] threads the module-level variables ([World]) and the
      completion.  State written before a throw stays written.
    - [Date.now()] reads [clock]; time moves between events only (in the
      event loop [runUntil], or between two user actions) and never
      backwards.
    - Strings are byte strings.  [String.prototype.toLowerCase],
      [String.prototype.trim], [error.message] and the conversion of a
      value to a number are the engine's: the model is parametric in
      them ([Engine]), as it is in [JSON].  Numbers are only stored and
      compared and are integers here.
    - Of the page, the parts the properties speak of are kept: the stream
      modals of the document, the console, the messages to the host.
      Elements the source looks up by id are taken to be present. *)

From Stdlib Require Import ZArith Ascii String List Lia Sorted.
From stdpp Require Import base tactics option list gmap strings pretty.

Set Warnings "-register-all".

Local Open Scope string_scope.
Local Open Scope list_scope.
Local Open Scope Z_scope.

(** ** JavaScript values and completions *)

Inductive JValue : Type :=
  | JNull
  | JBool (b : bool)
  | JNumber (n : Z)
  | JString (s : string)
  | JArray (elements : list JValue)
  | JObject (properties : list (string * JValue)).

Inductive JsError : Type :=
  | TypeError
  | SyntaxError
  | QuotaExceededError
  | SecurityError
  | HostRejected.

(** The name of the class of an error. *)
Definition errorName (e : JsError) : string :=
  match e with
  | TypeError => "TypeError"
  | SyntaxError => "SyntaxError"
  | QuotaExceededError => "QuotaExceededError"
  | SecurityError => "SecurityError"
  | HostRejected => "HostRejected"
  end.

Inductive Completion (A : Type) : Type :=
  | Normal (a : A)
  | Throw (e : JsError).
Arguments Normal {A} a.
Arguments Throw {A} e.

#[export] Instance Completion_ret : MRet Completion := fun A a => Normal a.

#[export] Instance Completion_bind : MBind Completion := fun A B f c =>
  match c with
  | Normal a => f a
  | Throw e => Throw e
  end.

(** [obj[key]] on a plain JSON object: the last binding of a repeated key
    is the one [JSON.parse] keeps. *)
Fixpoint lookupProperty (key : string) (props : list (string * JValue))
  : option JValue :=
  match props with
  | [] => None
  | (k, v) :: rest =>
      match lookupProperty key rest with
      | Some v' => Some v'
      | None => if String.eqb k key then Some v else None
      end
  end.

(** [v.key] for the three field names the source reads: reading a
    property of [null] throws, a primitive or an array has none of them
    ([None] is [undefined]). *)
Definition getProperty (v : JValue) (key : string)
  : Completion (option JValue) :=
  match v with
  | JNull => Throw TypeError
  | JObject props => Normal (lookupProperty key props)
  | _ => Normal None
  end.

(** [Array.isArray(x) ? x : []] *)
Definition arrayOrEmpty (x : option JValue) : list JValue :=
  match x with
  | Some (JArray elements) => elements
  | _ => []
  end.

(** ** Letter case and white space of ASCII *)

Definition isUpper (c : ascii) : bool :=
  let n := nat_of_ascii c in (65 <=? n)%nat && (n <=? 90)%nat.

Definition lowerChar (c : ascii) : ascii :=
  if isUpper c then ascii_of_nat (nat_of_ascii c + 32) else c.

(** The letters [A] to [Z] in lower case, every other byte as it is. *)
Fixpoint lowerAscii (s : string) : string :=
  match s with
  | EmptyString => EmptyString
  | String c rest => String (lowerChar c) (lowerAscii rest)
  end.

(** A string of ASCII characters only. *)
Fixpoint isAscii (s : string) : bool :=
  match s with
  | EmptyString => true
  | String c rest => (nat_of_ascii c <? 128)%nat && isAscii rest
  end.

(** Tab, line feed, vertical tab, form feed, carriage return, space. *)
Definition isWhiteSpace (c : ascii) : bool :=
  let n := nat_of_ascii c in
  ((9 <=? n)%nat && (n <=? 13)%nat) || (n =? 32)%nat.

Fixpoint trimStartAscii (s : string) : string :=
  match s with
  | EmptyString => EmptyString
  | String c rest => if isWhiteSpace c then trimStartAscii rest else s
  end.

Fixpoint trimEndAscii (s : string) : string :=
  match s with
  | EmptyString => EmptyString
  | String c rest =>
      match trimEndAscii rest with
      | EmptyString => if isWhiteSpace c then EmptyString
                       else String c EmptyString
      | rest' => String c rest'
      end
  end.

(** Two characters that are the same, or the same letter of [A] to [Z]
    in different case. *)
Definition sameLetter (a b : ascii) : Prop :=
  a = b \/ (isUpper a = true /\ b = lowerChar a)
        \/ (isUpper b = true /\ a = lowerChar b).

(** Two strings that differ only in the case of letters of [A] to [Z]. *)
Inductive differOnlyInCase : string -> string -> Prop :=
  | doic_empty : differOnlyInCase EmptyString EmptyString
  | doic_char a b s t :
      sameLetter a b -> differOnlyInCase s t ->
      differOnlyInCase (String a s) (String b t).

(** ** The engine

    What the JavaScript engine does to strings, values and errors is not
    the program's: [String.prototype.toLowerCase] and
    [String.prototype.trim] follow Unicode, [error.message] is the
    engine's text, and [x > 0] converts [x] to a number first.  The
    model is parametric in them.  Of [toLowerCase] it is used that on a
    string of ASCII characters it lowers the letters [A] to [Z] and
    nothing else; of the comparison, what it is on a number. *)
Class Engine : Type := {
  toLowerCase : string -> string;
  trim : string -> string;
  errorMessage : JsError -> string;
  greaterThanZero : JValue -> bool;
  toLowerCase_ascii :
    forall s, isAscii s = true -> toLowerCase s = lowerAscii s;
  greaterThanZero_number :
    forall n, greaterThanZero (JNumber n) = (0 <? n)%Z;
}.

(** The second byte of a letter from [U+00C0] to [U+00DE] (the
    multiplication sign apart) in lower case: in UTF-8 these letters are
    the byte 195 followed by a byte from 128 to 158, and the lower-case
    letter is 32 further. *)
Definition lowerSecondByte (b : ascii) : ascii :=
  let n := nat_of_ascii b in
  if (128 <=? n)%nat && (n <=? 158)%nat && negb (n =? 151)%nat
  then ascii_of_nat (n + 32)
  else b.

(** The letters of ASCII and of Latin-1 in lower case, on UTF-8 text. *)
Fixpoint lowerLatin1 (s : string) : string :=
  match s with
  | EmptyString => EmptyString
  | String c rest =>
      if (nat_of_ascii c =? 195)%nat
      then match rest with
           | String b rest' =>
               String c (String (lowerSecondByte b) (lowerLatin1 rest'))
           | EmptyString => String c EmptyString
           end
      else String (lowerChar c) (lowerLatin1 rest)
  end.

(** An engine for the examples: the letters of ASCII and Latin-1, the
    white space of ASCII, the name of the class of an error as its
    message, and the comparison on numbers and booleans. *)
#[export] Instance latin1Engine : Engine.
Proof.
  refine {| toLowerCase := lowerLatin1;
            trim := fun s => trimEndAscii (trimStartAscii s);
            errorMessage := errorName;
            greaterThanZero := fun v =>
              match v with
              | JNumber n => (0 <? n)%Z
              | JBool b => b
              | _ => false
              end |}.
  - intros s. induction s as [|c s IH]; [reflexivity|].
    cbn [isAscii lowerLatin1 lowerAscii]. intros Hs.
    apply andb_true_iff in Hs as [Hc Hs]. apply Nat.ltb_lt in Hc.
    destruct (Nat.eqb_spec (nat_of_ascii c) 195) as [Hlead|_]; [lia|].
    by rewrite IH.
  - reflexivity.
Defined.

(** ** Persisted state *)

(** [interface PersistedWeatherState]; the arrays hold whatever
    [JSON.parse] produced, [lastLocation = None] is [undefined]. *)
Record PersistedWeatherState : Type := {
  favorites : list JValue;
  searchHistory : list JValue;
  lastLocation : option JValue;
}.

Definition defaultState : PersistedWeatherState :=
  {| favorites := []; searchHistory := []; lastLocation := None |}.

(** The object literal [{ location, latitude, longitude, addedAt }]. *)
Definition mkFavorite (location : string) (latitude longitude addedAt : Z)
  : JValue :=
  JObject [("location", JString location); ("latitude", JNumber latitude);
           ("longitude", JNumber longitude); ("addedAt", JNumber addedAt)].

(** The object literal [{ location, timestamp }]. *)
Definition mkHistoryEntry (location : string) (timestamp : Z) : JValue :=
  JObject [("location", JString location); ("timestamp", JNumber timestamp)].

(** The object handed to [JSON.stringify]: an [undefined] field is left
    out. *)
Definition stateValue (s : PersistedWeatherState) : JValue :=
  JObject ([("favorites", JArray (favorites s));
            ("searchHistory", JArray (searchHistory s))]
           ++ match lastLocation s with
              | Some v => [("lastLocation", v)]
              | None => []
              end).

(** [entry.location.toLowerCase()]: throws unless [entry] is an object
    whose [location] is a string. *)
Definition lowerLocation `{Engine} (entry : JValue) : Completion string :=
  match getProperty entry "location" with
  | Throw e => Throw e
  | Normal (Some (JString s)) => Normal (toLowerCase s)
  | Normal _ => Throw TypeError
  end.

(** [entry.timestamp] of a history entry, when it is a number. *)
Definition entryTimestamp (entry : JValue) : option Z :=
  match getProperty entry "timestamp" with
  | Normal (Some (JNumber t)) => Some t
  | _ => None
  end.

(** [array.filter(keep)] with a callback that may throw: the first throw
    aborts the call. *)
Fixpoint filterC (keep : JValue -> Completion bool) (l : list JValue)
  : Completion (list JValue) :=
  match l with
  | [] => Normal []
  | x :: rest =>
      match keep x with
      | Throw e => Throw e
      | Normal b =>
          match filterC keep rest with
          | Throw e => Throw e
          | Normal rest' => Normal (if b then x :: rest' else rest')
          end
      end
  end.

(** [array.some(test)]: stops at the first element that passes. *)
Fixpoint someC (test : JValue -> Completion bool) (l : list JValue)
  : Completion bool :=
  match l with
  | [] => Normal false
  | x :: rest =>
      match test x with
      | Throw e => Throw e
      | Normal true => Normal true
      | Normal false => someC test rest
      end
  end.

(** ** The platform: JSON and local storage *)

(** [JSON.parse] and [JSON.stringify] are the platform's; the model is
    parametric in them. *)
Class JSON : Type := {
  JSON_parse : string -> Completion JValue;
  JSON_stringify : JValue -> string;
}.

(** [window.localStorage]: a string map with a capacity; a write that
    would exceed the capacity throws [QuotaExceededError], and any
    access throws [SecurityError] when storage is blocked. *)
Record Storage : Type := {
  items : gmap string string;
  quota : nat;
  accessible : bool;
}.

Definition usage (m : gmap string string) : nat :=
  map_fold (fun k v n => (String.length k + String.length v + n)%nat) 0%nat m.

Definition Storage_getItem (s : Storage) (key : string)
  : Completion (option string) :=
  if accessible s then Normal (items s !! key) else Throw SecurityError.

Definition Storage_setItem (s : Storage) (key value : string)
  : Completion unit * Storage :=
  if accessible s then
    let m := <[key := value]> (items s) in
    if (usage m <=? quota s)%nat
    then (Normal tt, {| items := m; quota := quota s; accessible := true |})
    else (Throw QuotaExceededError, s)
  else (Throw SecurityError, s).

(** ** Console, host channel and activity log *)

Inductive ConsoleLevel : Type := ConsoleLog | ConsoleInfo | ConsoleWarn | ConsoleError.

(** One [console.<level>(text, error?)] call. *)
Record ConsoleLine : Type := {
  consoleLevel : ConsoleLevel;
  consoleText : string;
  consoleError : option JsError;
}.

(** The [level] argument of [logToHost]. *)
Inductive HostLevel : Type := HostInfo | HostWarning | HostError.

(** The [level] of an entry of the log panel. *)
Inductive UiLevel : Type := UiInfo | UiWarn | UiError.

(** An element of [logEntries]; [timestamp] is the clock reading that
    [toLocaleTimeString] formats. *)
Record LogEntry : Type := {
  level : UiLevel;
  timestamp : Z;
  message : string;
}.

(** ** The progressive insight stream: updates, modal and timers *)

(** One element of [_meta.updates]. *)
Record StreamUpdate : Type := {
  phase : Z;
  delay : Z;
  title : string;
  data : JValue;
}.

(** [#progress-text] *)
Inductive ProgressText : Type :=
  | Initializing
  | PhaseOf (n total : Z) (phaseTitle : string)
  | AnalysisComplete.

(** The width of [#progress-fill]: [0%] or [(n / total) * 100 %]. *)
Inductive ProgressWidth : Type :=
  | ZeroPercent
  | Fraction (n total : Z).

(** The stream modal: whether it is still in the document, the stream id
    and phase count it shows, the children of [#stream-phases] (each is
    [renderPhaseContent] of one update and is kept as that update), the
    progress bar and the progress text. *)
Record StreamModal : Type := {
  attached : bool;
  shownStreamId : string;
  shownTotalPhases : Z;
  streamPhases : list StreamUpdate;
  progressFill : ProgressWidth;
  progressText : ProgressText;
}.

(** The closures passed to [setTimeout]: the phase handler of
    [displayProgressiveInsights], which captures the modal whose elements
    [getElementById] found, the update, its index and [totalPhases]; and
    the button wiring that [renderWeather] defers. *)
Inductive TimerCallback : Type :=
  | PhaseHandler (modal : nat) (update : StreamUpdate) (index : nat)
                 (totalPhases : Z)
  | SetupWeatherButtons.

Record Timer : Type := {
  timerId : nat;
  due : Z;
  callback : TimerCallback;
}.

(** ** The module-level state *)

Record World : Type := {
  clock : Z;
  viewUUID : option string;
  persistedState : PersistedWeatherState;
  isForecastVisible : bool;
  isLogExpanded : bool;
  logEntries : list LogEntry;
  localStorage : Storage;
  console : list ConsoleLine;
  hostAvailable : bool;
  hostLogs : list (HostLevel * string);
  sizeChanges : list Z;
  document : list StreamModal;
  timers : list Timer;
  nextTimerId : nat;
}.

Definition M (A : Type) : Type := World -> Completion A * World.

#[export] Instance M_ret : MRet M := fun A a w => (Normal a, w).

#[export] Instance M_bind : MBind M := fun A B f m w =>
  match m w with
  | (Normal a, w') => f a w'
  | (Throw e, w') => (Throw e, w')
  end.

(** [try { body } catch (error) { handler(error) }] *)
Definition tryCatch {A} (body : M A) (handler : JsError -> M A) : M A :=
  fun w =>
    match body w with
    | (Normal a, w') => (Normal a, w')
    | (Throw e, w') => handler e w'
    end.

Definition gets {A} (f : World -> A) : M A := fun w => (Normal (f w), w).

Definition modify (f : World -> World) : M unit := fun w => (Normal tt, f w).

(** A pure computation that may throw. *)
Definition liftC {A} (c : Completion A) : M A := fun w => (c, w).

Definition set_clock (t : Z) (w : World) : World :=
  {| clock := t; viewUUID := viewUUID w; persistedState := persistedState w;
     isForecastVisible := isForecastVisible w; isLogExpanded := isLogExpanded w;
     logEntries := logEntries w; localStorage := localStorage w;
     console := console w; hostAvailable := hostAvailable w;
     hostLogs := hostLogs w; sizeChanges := sizeChanges w;
     document := document w; timers := timers w;
     nextTimerId := nextTimerId w |}.

Definition set_viewUUID (u : option string) (w : World) : World :=
  {| clock := clock w; viewUUID := u; persistedState := persistedState w;
     isForecastVisible := isForecastVisible w; isLogExpanded := isLogExpanded w;
     logEntries := logEntries w; localStorage := localStorage w;
     console := console w; hostAvailable := hostAvailable w;
     hostLogs := hostLogs w; sizeChanges := sizeChanges w;
     document := document w; timers := timers w;
     nextTimerId := nextTimerId w |}.

Definition set_persistedState (s : PersistedWeatherState) (w : World) : World :=
  {| clock := clock w; viewUUID := viewUUID w; persistedState := s;
     isForecastVisible := isForecastVisible w; isLogExpanded := isLogExpanded w;
     logEntries := logEntries w; localStorage := localStorage w;
     console := console w; hostAvailable := hostAvailable w;
     hostLogs := hostLogs w; sizeChanges := sizeChanges w;
     document := document w; timers := timers w;
     nextTimerId := nextTimerId w |}.

Definition set_isForecastVisible (b : bool) (w : World) : World :=
  {| clock := clock w; viewUUID := viewUUID w; persistedState := persistedState w;
     isForecastVisible := b; isLogExpanded := isLogExpanded w;
     logEntries := logEntries w; localStorage := localStorage w;
     console := console w; hostAvailable := hostAvailable w;
     hostLogs := hostLogs w; sizeChanges := sizeChanges w;
     document := document w; timers := timers w;
     nextTimerId := nextTimerId w |}.

Definition set_isLogExpanded (b : bool) (w : World) : World :=
  {| clock := clock w; viewUUID := viewUUID w; persistedState := persistedState w;
     isForecastVisible := isForecastVisible w; isLogExpanded := b;
     logEntries := logEntries w; localStorage := localStorage w;
     console := console w; hostAvailable := hostAvailable w;
     hostLogs := hostLogs w; sizeChanges := sizeChanges w;
     document := document w; timers := timers w;
     nextTimerId := nextTimerId w |}.

Definition set_logEntries (l : list LogEntry) (w : World) : World :=
  {| clock := clock w; viewUUID := viewUUID w; persistedState := persistedState w;
     isForecastVisible := isForecastVisible w; isLogExpanded := isLogExpanded w;
     logEntries := l; localStorage := localStorage w;
     console := console w; hostAvailable := hostAvailable w;
     hostLogs := hostLogs w; sizeChanges := sizeChanges w;
     document := document w; timers := timers w;
     nextTimerId := nextTimerId w |}.

Definition set_localStorage (s : Storage) (w : World) : World :=
  {| clock := clock w; viewUUID := viewUUID w; persistedState := persistedState w;
     isForecastVisible := isForecastVisible w; isLogExpanded := isLogExpanded w;
     logEntries := logEntries w; localStorage := s;
     console := console w; hostAvailable := hostAvailable w;
     hostLogs := hostLogs w; sizeChanges := sizeChanges w;
     document := document w; timers := timers w;
     nextTimerId := nextTimerId w |}.

Definition set_console (c : list ConsoleLine) (w : World) : World :=
  {| clock := clock w; viewUUID := viewUUID w; persistedState := persistedState w;
     isForecastVisible := isForecastVisible w; isLogExpanded := isLogExpanded w;
     logEntries := logEntries w; localStorage := localStorage w;
     console := c; hostAvailable := hostAvailable w;
     hostLogs := hostLogs w; sizeChanges := sizeChanges w;
     document := document w; timers := timers w;
     nextTimerId := nextTimerId w |}.

Definition set_hostLogs (l : list (HostLevel * string)) (w : World) : World :=
  {| clock := clock w; viewUUID := viewUUID w; persistedState := persistedState w;
     isForecastVisible := isForecastVisible w; isLogExpanded := isLogExpanded w;
     logEntries := logEntries w; localStorage := localStorage w;
     console := console w; hostAvailable := hostAvailable w;
     hostLogs := l; sizeChanges := sizeChanges w;
     document := document w; timers := timers w;
     nextTimerId := nextTimerId w |}.

Definition set_sizeChanges (l : list Z) (w : World) : World :=
  {| clock := clock w; viewUUID := viewUUID w; persistedState := persistedState w;
     isForecastVisible := isForecastVisible w; isLogExpanded := isLogExpanded w;
     logEntries := logEntries w; localStorage := localStorage w;
     console := console w; hostAvailable := hostAvailable w;
     hostLogs := hostLogs w; sizeChanges := l;
     document := document w; timers := timers w;
     nextTimerId := nextTimerId w |}.

Definition set_document (d : list StreamModal) (w : World) : World :=
  {| clock := clock w; viewUUID := viewUUID w; persistedState := persistedState w;
     isForecastVisible := isForecastVisible w; isLogExpanded := isLogExpanded w;
     logEntries := logEntries w; localStorage := localStorage w;
     console := console w; hostAvailable := hostAvailable w;
     hostLogs := hostLogs w; sizeChanges := sizeChanges w;
     document := d; timers := timers w;
     nextTimerId := nextTimerId w |}.

Definition set_timers (ts : list Timer) (next : nat) (w : World) : World :=
  {| clock := clock w; viewUUID := viewUUID w; persistedState := persistedState w;
     isForecastVisible := isForecastVisible w; isLogExpanded := isLogExpanded w;
     logEntries := logEntries w; localStorage := localStorage w;
     console := console w; hostAvailable := hostAvailable w;
     hostLogs := hostLogs w; sizeChanges := sizeChanges w;
     document := document w; timers := ts;
     nextTimerId := next |}.

(** The module's variables as their initialisers leave them, on a given
    platform state. *)
Definition initialWorld (now : Z) (storage : Storage) (host : bool) : World :=
  {| clock := now; viewUUID := None; persistedState := defaultState;
     isForecastVisible := false; isLogExpanded := false;
     logEntries := []; localStorage := storage;
     console := []; hostAvailable := host;
     hostLogs := []; sizeChanges := [];
     document := []; timers := [];
     nextTimerId := 0 |}.


(** ** The application, over a platform [JSON] *)

Section App.
Context `{JSON} `{Engine}.

(** *** Logging *)

(** [addLogEntry(level, timestamp, message)]: push, then drop the oldest
    entry when the list has grown past 50.  (The update of the log panel
    in the page, which appends a line for the entry and shows
    [logEntries.length], is left out.) *)
Definition addLogEntry (level : UiLevel) (timestamp : Z) (message : string)
  : M unit :=
  modify (fun w =>
            set_logEntries
              (logEntries w ++ [{| level := level; timestamp := timestamp;
                                   message := message |}]) w) ;;
  n ← gets (fun w => length (logEntries w));
  if (50 <? n)%nat
  then modify (fun w => set_logEntries (tail (logEntries w)) w)
  else mret tt.

(** The reading of the specification: make room first, then append. *)
Definition addLogEntry_spec (e : LogEntry) (l : list LogEntry)
  : list LogEntry :=
  if (50 <? length l + 1)%nat then tail l ++ [e] else l ++ [e].

Definition consoleCall (l : ConsoleLevel) (text : string)
    (error : option JsError) : M unit :=
  modify (fun w =>
            set_console
              (console w ++ [{| consoleLevel := l; consoleText := text;
                                consoleError := error |}]) w).

(** [app.sendLog(...)]: rejected when the host channel is down. *)
Definition sendLog (l : HostLevel) (text : string) : M unit :=
  fun w =>
    if hostAvailable w
    then (Normal tt, set_hostLogs (hostLogs w ++ [(l, text)]) w)
    else (Throw HostRejected, w).

Definition consoleLevelOf (l : HostLevel) : ConsoleLevel :=
  match l with
  | HostInfo => ConsoleInfo
  | HostWarning => ConsoleWarn
  | HostError => ConsoleError
  end.

Definition uiLevelOf (l : HostLevel) : UiLevel :=
  match l with
  | HostInfo => UiInfo
  | HostWarning => UiWarn
  | HostError => UiError
  end.

(** JavaScript truthiness of the optional [data] argument. *)
Definition truthyValue (data : option JValue) : bool :=
  match data with
  | None | Some JNull | Some (JBool false) | Some (JNumber 0)
  | Some (JString EmptyString) => false
  | Some _ => true
  end.

(** [logToHost(app, level, message, data)].  The function is [async];
    its steps are taken here at the call. *)
Definition logToHost (l : HostLevel) (message : string)
    (data : option JValue) : M unit :=
  now ← gets clock;
  let logMessage :=
    match data with
    | Some d =>
        if truthyValue data then message +:+ " " +:+ JSON_stringify d
        else message
    | None => message
    end in
  consoleCall (consoleLevelOf l) ("[WEATHER-APP] " +:+ logMessage) None ;;
  tryCatch (sendLog l logMessage)
           (fun error =>
              consoleCall ConsoleError "Failed to send log to host:"
                          (Some error)) ;;
  addLogEntry (uiLevelOf l) now logMessage.

Definition log_info (message : string) (data : option JValue) : M unit :=
  logToHost HostInfo message data.

Definition log_warn (message : string) (data : option JValue) : M unit :=
  logToHost HostWarning message data.

Definition log_error (message : string) (data : option JValue) : M unit :=
  logToHost HostError message data.

(** *** Persisted view state store *)

(** [!x] on a string or [null]: [null] and the empty string are falsy. *)
Definition truthy (s : option string) : option string :=
  match s with
  | Some EmptyString => None
  | other => other
  end.

Definition storageKey (uuid : string) : string := "weather-state-" +:+ uuid.

Definition localStorage_getItem (key : string) : M (option string) :=
  fun w => (Storage_getItem (localStorage w) key, w).

Definition localStorage_setItem (key value : string) : M unit :=
  fun w =>
    let '(c, s) := Storage_setItem (localStorage w) key value in
    (c, set_localStorage s w).

(** [loadPersistedState()] *)
Definition loadPersistedState : M PersistedWeatherState :=
  uuid ← gets viewUUID;
  match truthy uuid with
  | None => mret defaultState
  | Some uuid =>
      tryCatch
        (stored ← localStorage_getItem (storageKey uuid);
         match truthy stored with
         | None => mret defaultState
         | Some stored =>
             state ← liftC (JSON_parse stored);
             favs ← liftC (getProperty state "favorites");
             hist ← liftC (getProperty state "searchHistory");
             last ← liftC (getProperty state "lastLocation");
             mret {| favorites := arrayOrEmpty favs;
                     searchHistory := arrayOrEmpty hist;
                     lastLocation := last |}
         end)
        (fun error =>
           consoleCall ConsoleWarn "Failed to load persisted state:"
                       (Some error) ;;
           mret defaultState)
  end.

(** [savePersistedState(state)] *)
Definition savePersistedState (state : PersistedWeatherState) : M unit :=
  uuid ← gets viewUUID;
  match truthy uuid with
  | None => mret tt
  | Some uuid =>
      tryCatch
        (localStorage_setItem (storageKey uuid)
                              (JSON_stringify (stateValue state)) ;;
         consoleCall ConsoleLog "[WEATHER-APP] Saved persisted state" None)
        (fun error =>
           consoleCall ConsoleWarn "Failed to save persisted state:"
                       (Some error))
  end.

(** *** Favorites and search history *)

Definition set_searchHistory (h : list JValue) (w : World) : World :=
  set_persistedState
    {| favorites := favorites (persistedState w); searchHistory := h;
       lastLocation := lastLocation (persistedState w) |} w.

Definition set_favorites (f : list JValue) (w : World) : World :=
  set_persistedState
    {| favorites := f; searchHistory := searchHistory (persistedState w);
       lastLocation := lastLocation (persistedState w) |} w.

(** [entry.location.toLowerCase() !== location.toLowerCase()] *)
Definition differsFrom (location : string) (entry : JValue)
  : Completion bool :=
  match lowerLocation entry with
  | Throw e => Throw e
  | Normal l => Normal (negb (String.eqb l (toLowerCase location)))
  end.

(** [fav.location.toLowerCase() === location.toLowerCase()] *)
Definition matches (location : string) (entry : JValue)
  : Completion bool :=
  match lowerLocation entry with
  | Throw e => Throw e
  | Normal l => Normal (String.eqb l (toLowerCase location))
  end.

(** [addToSearchHistory(location)] *)
Definition addToSearchHistory (location : string) : M unit :=
  h ← gets (fun w => searchHistory (persistedState w));
  kept ← liftC (filterC (differsFrom location) h);
  modify (set_searchHistory kept) ;;
  now ← gets clock;
  modify (fun w =>
            set_searchHistory
              (mkHistoryEntry location now :: searchHistory (persistedState w))
              w) ;;
  modify (fun w =>
            set_searchHistory (take 10 (searchHistory (persistedState w))) w) ;;
  st ← gets persistedState;
  savePersistedState st.

(** [addToFavorites(location, latitude, longitude)] *)
Definition addToFavorites (location : string) (latitude longitude : Z)
  : M unit :=
  favs ← gets (fun w => favorites (persistedState w));
  exists_ ← liftC (someC (matches location) favs);
  if (exists_ : bool) then log_warn "Location already in favorites" None
  else
    now ← gets clock;
    modify (fun w =>
              set_favorites
                (favorites (persistedState w)
                   ++ [mkFavorite location latitude longitude now]) w) ;;
    st ← gets persistedState;
    savePersistedState st ;;
    log_info ("Added " +:+ location +:+ " to favorites") None.

(** [removeFromFavorites(location)] *)
Definition removeFromFavorites (location : string) : M unit :=
  favs ← gets (fun w => favorites (persistedState w));
  kept ← liftC (filterC (differsFrom location) favs);
  modify (set_favorites kept) ;;
  st ← gets persistedState;
  savePersistedState st ;;
  log_info ("Removed " +:+ location +:+ " from favorites") None.

(** [isFavorited(location)] *)
Definition isFavorited (location : string) : M bool :=
  favs ← gets (fun w => favorites (persistedState w));
  liftC (someC (matches location) favs).

(** *** Viewport height *)

Definition HEIGHT_BASE : Z := 740.
Definition HEIGHT_FORECAST : Z := 210.
Definition HEIGHT_LOG_COLLAPSED : Z := 50.
Definition HEIGHT_LOG_EXPANDED : Z := 349.

(** [totalHeight] as [updateViewportHeight] computes it. *)
Definition totalHeight (w : World) : Z :=
  let forecastHeight := if isForecastVisible w then HEIGHT_FORECAST else 0 in
  let logHeight :=
    if isLogExpanded w then HEIGHT_LOG_EXPANDED else HEIGHT_LOG_COLLAPSED in
  HEIGHT_BASE + forecastHeight + logHeight.

(** [updateViewportHeight()]: [sendSizeChanged] is a notification. *)
Definition updateViewportHeight : M unit :=
  forecastHeight ← gets (fun w => if isForecastVisible w
                                  then HEIGHT_FORECAST else 0);
  logHeight ← gets (fun w => if isLogExpanded w
                             then HEIGHT_LOG_EXPANDED
                             else HEIGHT_LOG_COLLAPSED);
  h ← gets totalHeight;
  modify (fun w => set_sizeChanges (sizeChanges w ++ [h]) w) ;;
  consoleCall ConsoleLog
    ("[WEATHER-APP] Viewport height updated to " +:+ pretty h
       +:+ "px (base: " +:+ pretty HEIGHT_BASE
       +:+ ", forecast: " +:+ pretty forecastHeight
       +:+ ", log: " +:+ pretty logHeight +:+ ")") None.

(** The formula of the specification, over a table of constants. *)
Definition computePreferredHeight_spec
    (base forecastExpandedHeight logCollapsedHeight logExpandedHeight : Z)
    (forecastExpanded logExpanded : bool) : Z :=
  base + (if forecastExpanded then forecastExpandedHeight else 0)
       + (if logExpanded then logExpandedHeight else logCollapsedHeight).

(** The click handlers of the two toggles. *)
Definition toggleForecast : M unit :=
  modify (fun w => set_isForecastVisible (negb (isForecastVisible w)) w) ;;
  updateViewportHeight ;;
  v ← gets isForecastVisible;
  log_info (if v : bool then "7-day forecast expanded"
            else "7-day forecast collapsed") None.

Definition toggleLog : M unit :=
  modify (fun w => set_isLogExpanded (negb (isLogExpanded w)) w) ;;
  updateViewportHeight ;;
  v ← gets isLogExpanded;
  consoleCall ConsoleLog
    (if v : bool then "[WEATHER-APP] Activity log expanded"
     else "[WEATHER-APP] Activity log collapsed") None.

(** *** Timers *)

(** The delay of [setTimeout] is a [long] of the platform: the number
    is wrapped to 32 bits, signed. *)
Definition toInt32 (n : Z) : Z := (n + 2 ^ 31) mod 2 ^ 32 - 2 ^ 31.

(** The time a timer armed with [delay] waits: the delay as a [long], a
    negative one counting as 0. *)
Definition timeout (delay : Z) : Z := Z.max 0 (toInt32 delay).

(** [setTimeout(callback, delay)]: one one-shot timer, due
    [timeout delay] milliseconds from now. *)
Definition setTimeout (cb : TimerCallback) (delay : Z) : M nat :=
  fun w =>
    let id := nextTimerId w in
    (Normal id,
     set_timers (timers w ++ [{| timerId := id;
                                 due := clock w + timeout delay;
                                 callback := cb |}]) (S id) w).

(** [updates.forEach((update, index) => f(update, index))] *)
Fixpoint forEachIndexed {A} (f : A -> nat -> M unit) (l : list A) (index : nat)
  : M unit :=
  match l with
  | [] => mret tt
  | x :: rest => f x index ;; forEachIndexed f rest (S index)
  end.

(** *** The progressive insight stream *)

Definition newModal (streamId : string) (totalPhases : Z) : StreamModal :=
  {| attached := true; shownStreamId := streamId;
     shownTotalPhases := totalPhases; streamPhases := [];
     progressFill := ZeroPercent; progressText := Initializing |}.

(** [document.getElementById]: the first matching element of the
    document; the three ids looked up are those of one modal, so the
    first modal still in the document has them. *)
Fixpoint getElementById (doc : list StreamModal) (index : nat) : option nat :=
  match doc with
  | [] => None
  | m :: rest =>
      if attached m then Some index else getElementById rest (S index)
  end.

(** [modal.remove()], the body of both close handlers. *)
Definition detach (m : StreamModal) : StreamModal :=
  {| attached := false; shownStreamId := shownStreamId m;
     shownTotalPhases := shownTotalPhases m; streamPhases := streamPhases m;
     progressFill := progressFill m; progressText := progressText m |}.

Definition closeModal (modal : nat) : M unit :=
  modify (fun w => set_document (alter detach modal (document w)) w).

Definition appendPhase (update : StreamUpdate) (index : nat) (totalPhases : Z)
    (m : StreamModal) : StreamModal :=
  {| attached := attached m; shownStreamId := shownStreamId m;
     shownTotalPhases := shownTotalPhases m;
     streamPhases := streamPhases m ++ [update];
     progressFill := Fraction (Z.of_nat index + 1) totalPhases;
     progressText := PhaseOf (Z.of_nat index + 1) totalPhases (title update) |}.

Definition markComplete (m : StreamModal) : StreamModal :=
  {| attached := attached m; shownStreamId := shownStreamId m;
     shownTotalPhases := shownTotalPhases m; streamPhases := streamPhases m;
     progressFill := progressFill m; progressText := AnalysisComplete |}.

(** [x.toFixed(digits)]: [x] has to be a number. *)
Definition toFixed (x : option JValue) : Completion unit :=
  match x with
  | Some (JNumber _) => Normal tt
  | _ => Throw TypeError
  end.

(** [v.key.toFixed(digits)] for a [v] that is not [null]. *)
Definition fixedField (v : JValue) (key : string) : Completion unit :=
  x ← getProperty v key;
  toFixed x.

(** [v.length > 0] for a truthy [v]: an array or a string has its
    length; an object has the property it was given, which the engine
    compares; a number or [true] has none. *)
Definition hasItems (v : JValue) : bool :=
  match v with
  | JArray items => match items with [] => false | _ => true end
  | JString s => negb (String.eqb s EmptyString)
  | JObject props =>
      match lookupProperty "length" props with
      | Some x => greaterThanZero x
      | None => false
      end
  | _ => false
  end.

(** [list && list.length > 0] and then [list.forEach(...)], whose
    callback only formats: only an array has [forEach]. *)
Definition renderList (list : option JValue) : Completion unit :=
  match list with
  | Some v =>
      if truthyValue list && hasItems v
      then match v with
           | JArray _ => Normal tt
           | _ => Throw TypeError
           end
      else Normal tt
  | None => Normal tt
  end.

(** [renderPhaseContent(update)]: a string template over the update.
    Of the template it is kept whether it can be built: reading a field
    of a [data] that is [null] throws, and so does formatting, with
    [toFixed], a field that is not a number, or walking, with
    [forEach], a non-empty list that is not an array.  (The blocks for
    [shortTerm], [mediumTerm], [clothing] and [activities] only
    interpolate and cannot throw.) *)
Definition renderPhaseContent (update : StreamUpdate) : Completion unit :=
  let d := data update in
  temperature ← getProperty d "temperature";
  match temperature with
  | Some _ =>
      toFixed temperature ;;
      fixedField d "humidity" ;;
      fixedField d "windSpeed" ;;
      fixedField d "pressure"
  | None => mret tt
  end ;;
  trend ← getProperty d "temperatureTrend";
  match trend with
  | Some v => if truthyValue trend then fixedField v "rate" else mret tt
  | None => mret tt
  end ;;
  risk ← getProperty d "precipitationRisk";
  match risk with
  | Some v =>
      if truthyValue risk
      then fixedField v "next24h" ;; fixedField v "next72h"
      else mret tt
  | None => mret tt
  end ;;
  deviation ← getProperty d "temperatureDeviation";
  match deviation with
  | Some _ =>
      toFixed deviation ;;
      fixedField d "humidityDeviation" ;;
      factors ← getProperty d "unusualFactors";
      renderList factors
  | None => mret tt
  end ;;
  alerts ← getProperty d "alerts";
  renderList alerts.

(** The body of the timer callback of [displayProgressiveInsights]: the
    content is rendered first, so when [renderPhaseContent] throws
    nothing is appended and nothing is logged. *)
Definition phaseHandler (modal : nat) (update : StreamUpdate) (index : nat)
    (totalPhases : Z) : M unit :=
  liftC (renderPhaseContent update) ;;
  modify (fun w =>
            set_document
              (alter (appendPhase update index totalPhases) modal (document w))
              w) ;;
  log_info ("Stream phase " +:+ pretty (phase update) +:+ " received")
           (Some (JString (title update))) ;;
  if (Z.of_nat index =? totalPhases - 1)%Z
  then modify (fun w => set_document (alter markComplete modal (document w)) w)
  else mret tt.

(** [displayProgressiveInsights(streamId, updates, totalPhases)] *)
Definition displayProgressiveInsights (streamId : string)
    (updates : list StreamUpdate) (totalPhases : Z) : M unit :=
  modify (fun w =>
            set_document (document w ++ [newModal streamId totalPhases]) w) ;;
  log_info "Stream modal displayed, starting progressive updates" None ;;
  found ← gets (fun w => getElementById (document w) 0);
  match found with
  | None => mret tt
  | Some modal =>
      forEachIndexed
        (fun update index =>
           setTimeout (PhaseHandler modal update index totalPhases)
                      (delay update) ;;
           mret tt)
        updates 0
  end.

(** *** The event loop *)

Definition runCallback (cb : TimerCallback) : M unit :=
  match cb with
  | PhaseHandler modal update index totalPhases =>
      phaseHandler modal update index totalPhases
  | SetupWeatherButtons => mret tt
  end.

(** The pending timer that fires next: the least due time, the earliest
    armed among equals. *)
Fixpoint earliest (ts : list Timer) : option Timer :=
  match ts with
  | [] => None
  | t :: rest =>
      match earliest rest with
      | Some t' => if due t <=? due t' then Some t else Some t'
      | None => Some t
      end
  end.

Definition removeTimer (id : nat) (ts : list Timer) : list Timer :=
  filter (fun t => timerId t ≠ id) ts.

(** One turn of the loop: the timer leaves the pending list, the clock
    reaches its due time, the callback runs; an exception escaping the
    callback is reported and dropped. *)
Definition fire (t : Timer) (w : World) : World :=
  let w1 := set_timers (removeTimer (timerId t) (timers w)) (nextTimerId w) w in
  let w2 := set_clock (Z.max (clock w1) (due t)) w1 in
  snd (tryCatch (runCallback (callback t))
                (fun error => consoleCall ConsoleError "Uncaught" (Some error))
                w2).

Fixpoint runTimers (fuel : nat) (limit : Z) (w : World) : World :=
  match fuel with
  | O => w
  | S fuel' =>
      match earliest (timers w) with
      | Some t => if due t <=? limit then runTimers fuel' limit (fire t w) else w
      | None => w
      end
  end.

(** Let time pass until [limit]: every timer due by then fires, in
    order.  The callbacks arm no timers, so the number of pending timers
    bounds the number of turns. *)
Definition runUntil (limit : Z) (w : World) : World :=
  let w' := runTimers (length (timers w)) limit w in
  set_clock (Z.max (clock w') limit) w'.

(** What the stream modals show: the phases of the modals still in the
    document.  (The lines of the log panel are not part of it.) *)
Definition visiblePhases (w : World) : list (list Z) :=
  map (fun m => map phase (streamPhases m)) (filter (fun m => attached m = true) (document w)).

(** *** Tool results and start-up *)

(** The fields of [WeatherData] that reach the modelled state. *)
Record WeatherData : Type := {
  location : string;
  latitude : Z;
  longitude : Z;
}.

(** [result._meta] *)
Record ToolResult : Type := {
  meta_viewUUID : option string;
  meta_weatherData : option WeatherData;
}.

(** [renderWeather(data)]: of the rendering, the favorite lookup, the
    deferred button wiring and the log line are kept. *)
Definition renderWeather (d : WeatherData) : M unit :=
  isFavorited (location d) ;;
  setTimeout SetupWeatherButtons 0 ;;
  log_info ("Weather rendered for " +:+ location d) None.

(** [app.ontoolresult] *)
Definition ontoolresult (result : ToolResult) : M unit :=
  log_info "Received tool result from server" None ;;
  current ← gets viewUUID;
  match truthy (meta_viewUUID result), truthy current with
  | Some uuid, None =>
      modify (set_viewUUID (Some uuid)) ;;
      st ← loadPersistedState;
      modify (set_persistedState st) ;;
      log_info "Loaded persisted state"
        (Some (JObject
                 [("favorites", JNumber (Z.of_nat (length (favorites st))));
                  ("history", JNumber (Z.of_nat (length (searchHistory st))))]))
  | _, _ => mret tt
  end ;;
  match meta_weatherData result with
  | Some weatherData =>
      tryCatch
        (renderWeather weatherData ;;
         addToSearchHistory (location weatherData) ;;
         log_info "Initial weather data rendered"
                  (Some (JString (location weatherData))))
        (fun error =>
           log_error "Failed to render weather"
                     (Some (JString (errorMessage error))) ;;
           log_error "Error displayed"
                     (Some (JString "Failed to display weather data")))
  | None => log_warn "Tool result received but no weather data found" None
  end.

(** [initialize()] up to the first size report; the rest of the function
    registers the page's listeners.  [app.connect()] fails when the host
    channel is down. *)
Definition initialize : M unit :=
  tryCatch
    (connected ← gets hostAvailable;
     (if connected : bool then mret tt else liftC (Throw HostRejected)) ;;
     log_info "Connected to host" None ;;
     updateViewportHeight ;;
     log_info "Sent initial size" None)
    (fun error =>
       log_error "Failed to initialize" (Some (JString (errorMessage error))) ;;
       log_error "Error displayed"
                 (Some (JString ("Initialization error: "
                                   +:+ errorMessage error)))).

End App.

(** ** User actions on favorites and history *)

Inductive Action : Type :=
  | RecordSearch (location : string)
  | AddFavorite (location : string) (latitude longitude : Z)
  | RemoveFavorite (location : string)
  | Elapse (ms : N).

Definition perform `{JSON} `{Engine} (a : Action) : M unit :=
  match a with
  | RecordSearch l => addToSearchHistory l
  | AddFavorite l lat lon => addToFavorites l lat lon
  | RemoveFavorite l => removeFromFavorites l
  | Elapse ms => modify (fun w => set_clock (clock w + Z.of_N ms) w)
  end.

(** Actions one after the other; one that throws is reported by the page
    and the next still runs. *)
Fixpoint performAll `{JSON} `{Engine} (l : list Action) (w : World) : World :=
  match l with
  | [] => w
  | a :: rest => performAll rest (snd (perform a w))
  end.

(** ** Comparison set *)

(** What the page renders for the weather content. *)
Inductive WeatherView : Type :=
  | SingleLocationView (location : string)
  | ComparisonGrid (locations : list string)
  | NoView.

(** Modelled from the spec: the comparison-set manager is not part of the
    sources at hand (only its browser tests are).  "Removes the first
    matching entry by position." *)
Fixpoint removeFirst (location : string) (set : list string) : list string :=
  match set with
  | [] => []
  | x :: rest =>
      if String.eqb x location then rest else x :: removeFirst location rest
  end.

(** Modelled from the spec: [removeLocation(location)] of the
    comparison-set manager, missing from the sources.  "If the resulting
    set length is exactly 1, the manager signals the UI to exit comparison
    mode and fall back to single-location rendering of the remaining
    entry; if the resulting length is 0 the set is torn down entirely." *)
Definition removeLocation (location : string) (set : list string)
  : WeatherView :=
  match removeFirst location set with
  | [] => NoView
  | [remaining] => SingleLocationView remaining
  | locations => ComparisonGrid locations
  end.

(** ** A JSON implementation for closed examples

    A reader and a printer for the part of JSON made of objects, arrays,
    strings without escapes, integers and the three literals.  Texts
    outside that part (fractions, exponents, escapes) are rejected here,
    so this instance is used on texts inside it only. *)

Definition quoteChar : ascii := "034"%char.

Definition isWhitespace (c : ascii) : bool :=
  match nat_of_ascii c with
  | 32%nat | 9%nat | 10%nat | 13%nat => true
  | _ => false
  end.

Definition digitValue (c : ascii) : option Z :=
  let n := nat_of_ascii c in
  if (48 <=? n)%nat && (n <=? 57)%nat then Some (Z.of_nat (n - 48)) else None.

Fixpoint skipWhitespace (s : string) : string :=
  match s with
  | String c rest => if isWhitespace c then skipWhitespace rest else s
  | EmptyString => s
  end.

(** The characters up to the closing quote. *)
Fixpoint readStringBody (s : string) : option (string * string) :=
  match s with
  | EmptyString => None
  | String c rest =>
      if Ascii.eqb c quoteChar then Some (EmptyString, rest)
      else if Ascii.eqb c "092"%char || (nat_of_ascii c <? 32)%nat then None
      else match readStringBody rest with
           | Some (body, rest') => Some (String c body, rest')
           | None => None
           end
  end.

Fixpoint readDigits (acc : Z) (s : string) : Z * string :=
  match s with
  | String c rest =>
      match digitValue c with
      | Some d => readDigits (10 * acc + d) rest
      | None => (acc, s)
      end
  | EmptyString => (acc, s)
  end.

(** An integer without sign: no leading zero before another digit. *)
Definition readNatural (s : string) : option (Z * string) :=
  match s with
  | String c rest =>
      match digitValue c with
      | Some 0 =>
          match rest with
          | String c' _ =>
              match digitValue c' with
              | Some _ => None
              | None => Some (0, rest)
              end
          | EmptyString => Some (0, rest)
          end
      | Some d => Some (readDigits d rest)
      | None => None
      end
  | EmptyString => None
  end.

Definition readLiteral (word : string) (v : JValue) (s : string)
  : option (JValue * string) :=
  if String.prefix word s
  then Some (v, String.substring (String.length word)
                                 (String.length s - String.length word) s)
  else None.

Fixpoint readValue (fuel : nat) (s : string) : option (JValue * string) :=
  match fuel with
  | O => None
  | S fuel' =>
      match skipWhitespace s with
      | String c rest =>
          if Ascii.eqb c quoteChar then
            match readStringBody rest with
            | Some (body, rest') => Some (JString body, rest')
            | None => None
            end
          else if Ascii.eqb c "["%char then
            match skipWhitespace rest with
            | String "]"%char rest' => Some (JArray [], rest')
            | _ =>
                match readElements fuel' rest with
                | Some (l, rest') => Some (JArray l, rest')
                | None => None
                end
            end
          else if Ascii.eqb c "{"%char then
            match skipWhitespace rest with
            | String "}"%char rest' => Some (JObject [], rest')
            | _ =>
                match readMembers fuel' rest with
                | Some (l, rest') => Some (JObject l, rest')
                | None => None
                end
            end
          else if Ascii.eqb c "-"%char then
            match readNatural rest with
            | Some (n, rest') => Some (JNumber (- n), rest')
            | None => None
            end
          else if Ascii.eqb c "t"%char then
            readLiteral "true" (JBool true) (String c rest)
          else if Ascii.eqb c "f"%char then
            readLiteral "false" (JBool false) (String c rest)
          else if Ascii.eqb c "n"%char then
            readLiteral "null" JNull (String c rest)
          else
            match readNatural (String c rest) with
            | Some (n, rest') => Some (JNumber n, rest')
            | None => None
            end
      | EmptyString => None
      end
  end
with readElements (fuel : nat) (s : string)
  : option (list JValue * string) :=
  match fuel with
  | O => None
  | S fuel' =>
      match readValue fuel' s with
      | Some (v, rest) =>
          match skipWhitespace rest with
          | String ","%char rest' =>
              match readElements fuel' rest' with
              | Some (l, rest'') => Some (v :: l, rest'')
              | None => None
              end
          | String "]"%char rest' => Some ([v], rest')
          | _ => None
          end
      | None => None
      end
  end
with readMembers (fuel : nat) (s : string)
  : option (list (string * JValue) * string) :=
  match fuel with
  | O => None
  | S fuel' =>
      match skipWhitespace s with
      | String c rest =>
          if Ascii.eqb c quoteChar then
            match readStringBody rest with
            | Some (key, rest1) =>
                match skipWhitespace rest1 with
                | String ":"%char rest2 =>
                    match readValue fuel' rest2 with
                    | Some (v, rest3) =>
                        match skipWhitespace rest3 with
                        | String ","%char rest4 =>
                            match readMembers fuel' rest4 with
                            | Some (l, rest5) => Some ((key, v) :: l, rest5)
                            | None => None
                            end
                        | String "}"%char rest4 => Some ([(key, v)], rest4)
                        | _ => None
                        end
                    | None => None
                    end
                | _ => None
                end
            | None => None
            end
          else None
      | EmptyString => None
      end
  end.

Definition parseJson (text : string) : Completion JValue :=
  match readValue (S (String.length text)) text with
  | Some (v, rest) =>
      match skipWhitespace rest with
      | EmptyString => Normal v
      | _ => Throw SyntaxError
      end
  | None => Throw SyntaxError
  end.

Definition quoted (s : string) : string :=
  String quoteChar (s +:+ String quoteChar EmptyString).

Fixpoint printJson (v : JValue) : string :=
  match v with
  | JNull => "null"
  | JBool true => "true"
  | JBool false => "false"
  | JNumber n => pretty n
  | JString s => quoted s
  | JArray l =>
      "[" +:+ (fix elements (l : list JValue) : string :=
                 match l with
                 | [] => ""
                 | x :: rest =>
                     printJson x +:+ match rest with
                                     | [] => ""
                                     | _ => "," +:+ elements rest
                                     end
                 end) l +:+ "]"
  | JObject l =>
      "{" +:+ (fix members (l : list (string * JValue)) : string :=
                 match l with
                 | [] => ""
                 | (k, x) :: rest =>
                     quoted k +:+ ":" +:+ printJson x
                       +:+ match rest with
                           | [] => ""
                           | _ => "," +:+ members rest
                           end
                 end) l +:+ "}"
  end.

#[export] Instance jsonText : JSON :=
  {| JSON_parse := parseJson; JSON_stringify := printJson |}.

(** ** Vocabulary of the statements *)

(** The variables a log call leaves alone: all but the console, the host
    log and the activity log. *)
Definition sameButLogs (w w' : World) : Prop :=
  clock w' = clock w /\ viewUUID w' = viewUUID w
  /\ persistedState w' = persistedState w
  /\ isForecastVisible w' = isForecastVisible w
  /\ isLogExpanded w' = isLogExpanded w
  /\ localStorage w' = localStorage w
  /\ sizeChanges w' = sizeChanges w
  /\ document w' = document w
  /\ timers w' = timers w
  /\ nextTimerId w' = nextTimerId w.

(** The lowered location of a stored entry, when it has one. *)
Definition entryKey `{Engine} (entry : JValue) : option string :=
  match lowerLocation entry with
  | Normal l => Some l
  | Throw _ => None
  end.

(** Equal case-insensitively, as the code compares locations: equal
    after [toLowerCase]. *)
Definition sameUpToCase `{Engine} (a b : string) : Prop :=
  toLowerCase a = toLowerCase b.

(** The location of a stored entry, when it is a string. *)
Definition entryLocation (entry : JValue) : option string :=
  match getProperty entry "location" with
  | Normal (Some (JString s)) => Some s
  | _ => None
  end.

(** No two entries of the list have locations that are equal
    case-insensitively. *)
Definition noTwoSameUpToCase `{Engine} (l : list JValue) : Prop :=
  forall i j a b,
    (i < j)%nat ->
    entryLocation <$> l !! i = Some (Some a) ->
    entryLocation <$> l !! j = Some (Some b) ->
    ~ sameUpToCase a b.

(** A list whose entries all have a string [location]: what the declared
    types of [favorites] and [searchHistory] promise. *)
Definition wellShaped `{Engine} (l : list JValue) : Prop :=
  Forall (fun entry => is_Some (entryKey entry)) l.

(** Two entries whose locations differ, also up to case. *)
Definition distinctLocations `{Engine} (a b : JValue) : Prop := entryKey a <> entryKey b.

(** [a] was recorded no earlier than [b]. *)
Definition notOlder (a b : JValue) : Prop :=
  exists ta tb,
    entryTimestamp a = Some ta /\ entryTimestamp b = Some tb /\ tb <= ta.

(** Recorded at [now] or before. *)
Definition recordedBy (now : Z) (entry : JValue) : Prop :=
  exists t, entryTimestamp entry = Some t /\ t <= now.

(** A valid search history at clock reading [now]: entries with a string
    location, every entry distinct in location (up to case) from every
    later one, every entry not older than every later one (most recent
    first), at most 10 entries, none from the future. *)
Record validHistory `{Engine} (now : Z) (h : list JValue) : Prop := {
  vh_shape : wellShaped h;
  vh_nodup : StronglySorted distinctLocations h;
  vh_order : StronglySorted notOlder h;
  vh_length : (length h <= 10)%nat;
  vh_past : Forall (recordedBy now) h;
}.

(** [recordSearch]: some time passes, then the location is recorded. *)
Definition recordSearch `{JSON} `{Engine} (call : N * string) : M unit :=
  modify (fun w => set_clock (clock w + Z.of_N (fst call)) w) ;;
  addToSearchHistory (snd call).

Fixpoint recordSearches `{JSON} `{Engine} (calls : list (N * string)) : M unit :=
  match calls with
  | [] => mret tt
  | call :: rest => recordSearch call ;; recordSearches rest
  end.

(** The entries other than those at the location of [entry]. *)
Definition others `{Engine} (entry : JValue) (h : list JValue) : list JValue :=
  filter (fun e => entryKey e <> entryKey entry) h.

(** The first entry of each location, up to case. *)
Fixpoint dedupe `{Engine} (h : list JValue) : list JValue :=
  match h with
  | [] => []
  | entry :: rest => entry :: others entry (dedupe rest)
  end.

(** The entries a run of [recordSearches] creates, oldest call first,
    from the clock reading [now]. *)
Fixpoint recordedEntries (now : Z) (calls : list (N * string)) : list JValue :=
  match calls with
  | [] => []
  | (ms, location) :: rest =>
      mkHistoryEntry location (now + Z.of_N ms)
        :: recordedEntries (now + Z.of_N ms) rest
  end.

(** [addLogEntry] once per entry. *)
Fixpoint addLogEntries (entries : list LogEntry) (w : World) : World :=
  match entries with
  | [] => w
  | e :: rest =>
      addLogEntries rest (snd (addLogEntry (level e) (timestamp e) (message e) w))
  end.

(** The stream of the hand-off notes: five phases, one second apart. *)
Definition demoUpdates : list StreamUpdate :=
  [ {| phase := 1; delay := 1000; title := "Current Conditions"; data := JObject [] |};
    {| phase := 2; delay := 2000; title := "Pattern Analysis"; data := JObject [] |};
    {| phase := 3; delay := 3000; title := "Historical Comparison"; data := JObject [] |};
    {| phase := 4; delay := 4000; title := "Forecast Predictions"; data := JObject [] |};
    {| phase := 5; delay := 5000; title := "Recommendations"; data := JObject [] |} ].

Definition emptyStorage : Storage :=
  {| items := ∅; quota := 5000; accessible := true |}.

(** The stream is started at time 0 on a fresh page. *)
Definition streamStarted : World :=
  snd (displayProgressiveInsights "stream-1" demoUpdates 5
         (initialWorld 0 emptyStorage true)).

(** The modal is closed at 2500 ms. *)
Definition streamDismissed : World :=
  snd (closeModal 0 (runUntil 2500 streamStarted)).

(** The page is left alone until 6000 ms. *)
Definition streamAfterwards : World := runUntil 6000 streamDismissed.

(** A stored document whose [favorites] is a string. *)
Definition malformedDocument : JValue :=
  JObject [("favorites", JString "oops");
           ("searchHistory", JArray [mkHistoryEntry "Tokyo" 17]);
           ("lastLocation", JString "Tokyo")].

Definition malformedWorld : World :=
  set_viewUUID (Some "view-1")
    (initialWorld 0
       {| items := {[ storageKey "view-1" := printJson malformedDocument ]};
          quota := 5000; accessible := true |}
       true).

(** A page whose storage is full. *)
Definition fullStorageWorld : World :=
  set_viewUUID (Some "view-1")
    (initialWorld 0 {| items := ∅; quota := 0; accessible := true |} true).

(** What one [addLogEntry] does to the list: push, then shift when the
    list is over 50. *)
Definition pushed (e : LogEntry) (l : list LogEntry) : list LogEntry :=
  if (50 <? length (l ++ [e]))%nat then tail (l ++ [e]) else l ++ [e].

(** A computation keeps a relation between the state before and after,
    however it completes. *)
Definition keeps (R : World -> World -> Prop) {A} (m : M A) : Prop :=
  forall w, R w (snd (m w)).


(** The [console.warn] line of a failed save or load. *)
Definition warnLine (text : string) (e : JsError) : ConsoleLine :=
  {| consoleLevel := ConsoleWarn; consoleText := text; consoleError := Some e |}.

(** The history after recording [entry]: what [addToSearchHistory] does to
    the list. *)
Definition recorded `{Engine} (entry : JValue) (h : list JValue) : list JValue :=
  take 10 (entry :: others entry h).

(** The ten most recent distinct locations of a list that is most recent
    first. *)
Definition latest10 `{Engine} (h : list JValue) : list JValue := take 10 (dedupe h).

(** The pending timers are the same. *)
Definition sameTimers (w w' : World) : Prop :=
  timers w' = timers w /\ nextTimerId w' = nextTimerId w.

(** The same modals are in the document. *)
Definition sameAttachment (w w' : World) : Prop :=
  attached <$> document w' = attached <$> document w.

(** The timer [displayProgressiveInsights] arms for the update at
    [index], started at clock reading [start] with [next] the next free
    timer id. *)
Definition phaseTimer (start : Z) (next : nat) (modal : nat) (totalPhases : Z)
    (index : nat) (update : StreamUpdate) : Timer :=
  {| timerId := next + index;
     due := start + timeout (delay update);
     callback := PhaseHandler modal update index totalPhases |}.

(** The text [logToHost] logs: the message, followed by the serialised
    [data] when [data] is truthy. *)
Definition logText `{JSON} (message : string) (data : option JValue) : string :=
  match data with
  | Some d =>
      if truthyValue data then message +:+ " " +:+ JSON_stringify d
      else message
  | None => message
  end.

(** Favorites with a string location each, no two at the same location up
    to case. *)
Definition uniqueFavorites `{Engine} (l : list JValue) : Prop :=
  wellShaped l /\ StronglySorted distinctLocations l.

(** The favorites are the same. *)
Definition sameFavorites (w w' : World) : Prop :=
  favorites (persistedState w') = favorites (persistedState w).

(** Tool results handled one after the other. *)
Fixpoint handleToolResults `{JSON} `{Engine} (results : list ToolResult) (w : World)
  : World :=
  match results with
  | [] => w
  | result :: rest => handleToolResults rest (snd (ontoolresult result w))
  end.

(** The view identifier is the same. *)
Definition sameIdentifier (w w' : World) : Prop := viewUUID w' = viewUUID w.

(** A page that has received the identifier [view-1]. *)
Definition identifiedWorld : World :=
  set_viewUUID (Some "view-1") (initialWorld 0 emptyStorage true).

(** A state with one favorite, one search and a last location. *)
Definition sampleState : PersistedWeatherState :=
  {| favorites := [mkFavorite "Tokyo" 35 139 7];
     searchHistory := [mkHistoryEntry "Paris" 9];
     lastLocation := Some (JString "Paris") |}.


(** The modal whose elements [getElementById] finds once a new modal has
    been appended to [doc]: the first modal still in the document, the new
    one when there is none. *)
Definition targetModal (doc : list StreamModal) : nat :=
  match getElementById doc 0 with
  | Some modal => modal
  | None => length doc
  end.



(** The modal a timer's handler writes to, if it has one. *)
Definition timerModal (t : Timer) : option nat :=
  match callback t with
  | PhaseHandler modal _ _ _ => Some modal
  | SetupWeatherButtons => None
  end.


(** Due by [limit] when armed at [start]. *)
Definition dueBy (start limit : Z) (update : StreamUpdate) : Prop :=
  start + timeout (delay update) <= limit.

#[export] Instance dueBy_dec start limit update :
  Decision (dueBy start limit update).
Proof. unfold dueBy. apply _. Defined.

(** ** The page around the module's variables

    The display mode and theme of the body, the search box, the weather
    content and the calls that wait for an answer of the host.  The
    answer of the host to such a call is an argument of the function
    that makes the call. *)

Inductive Theme : Type := Light | Dark.

Inductive DisplayMode : Type := Inline | Fullscreen | Pip.

Definition themeName (t : Theme) : string :=
  match t with
  | Light => "light"
  | Dark => "dark"
  end.

Definition modeName (m : DisplayMode) : string :=
  match m with
  | Inline => "inline"
  | Fullscreen => "fullscreen"
  | Pip => "pip"
  end.

(** The [context] of [onhostcontextchanged]; [None] is an absent field. *)
Record HostContext : Type := {
  context_theme : option Theme;
  context_displayMode : option DisplayMode;
}.

(** The calls of the host API whose answer the page waits for. *)
Inductive HostRequest : Type :=
  | RequestDisplayMode (mode : DisplayMode)
  | CallShowWeather (place : string)
  | CallWeatherStream (place : string) (lat lon : Z).

(** What [#weather-content] holds: the markup of the page as loaded, a
    rendering of weather data with its star, or an error message. *)
Inductive WeatherContent : Type :=
  | ContentOfPage
  | WeatherShown (d : WeatherData) (favorited : bool)
  | ErrorShown (text : string).

(** [_meta] of the answer of the streaming tool; [None] for [updates]
    that are missing or not an array. *)
Record StreamResponse : Type := {
  meta_streamId : string;
  meta_updates : option (list StreamUpdate);
  meta_totalPhases : Z;
}.

(** What a [catch] clause of the page can receive: an error of the
    platform, or [new Error(message)] thrown by the page itself. *)
Inductive Thrown : Type :=
  | Js (e : JsError)
  | Error (text : string).

(** [error instanceof Error ? error.message : String(error)] *)
Definition thrownMessage `{Engine} (e : Thrown) : string :=
  match e with
  | Js e => errorMessage e
  | Error text => text
  end.

Inductive Outcome (A : Type) : Type :=
  | Returned (a : A)
  | Raised (e : Thrown).
Arguments Returned {A} a.
Arguments Raised {A} e.

Record Page : Type := {
  world : World;
  currentDisplayMode : DisplayMode;
  currentWeatherData : option WeatherData;
  bodyClasses : list string;
  expandIconDisplay : string;
  compressIconDisplay : string;
  fullscreenTitle : string;
  searchDisabled : bool;
  weatherContent : WeatherContent;
  loadingHidden : bool;
  hostRequests : list HostRequest;
  alerts : list string;
}.

Definition set_world (x : World) (p : Page) : Page :=
  {| world := x; currentDisplayMode := currentDisplayMode p;
     currentWeatherData := currentWeatherData p;
     bodyClasses := bodyClasses p; expandIconDisplay := expandIconDisplay p;
     compressIconDisplay := compressIconDisplay p;
     fullscreenTitle := fullscreenTitle p;
     searchDisabled := searchDisabled p; weatherContent := weatherContent p;
     loadingHidden := loadingHidden p; hostRequests := hostRequests p;
     alerts := alerts p |}.

Definition set_currentDisplayMode (x : DisplayMode) (p : Page) : Page :=
  {| world := world p; currentDisplayMode := x;
     currentWeatherData := currentWeatherData p;
     bodyClasses := bodyClasses p; expandIconDisplay := expandIconDisplay p;
     compressIconDisplay := compressIconDisplay p;
     fullscreenTitle := fullscreenTitle p;
     searchDisabled := searchDisabled p; weatherContent := weatherContent p;
     loadingHidden := loadingHidden p; hostRequests := hostRequests p;
     alerts := alerts p |}.

Definition set_currentWeatherData (x : option WeatherData) (p : Page) : Page :=
  {| world := world p; currentDisplayMode := currentDisplayMode p;
     currentWeatherData := x; bodyClasses := bodyClasses p;
     expandIconDisplay := expandIconDisplay p;
     compressIconDisplay := compressIconDisplay p;
     fullscreenTitle := fullscreenTitle p;
     searchDisabled := searchDisabled p; weatherContent := weatherContent p;
     loadingHidden := loadingHidden p; hostRequests := hostRequests p;
     alerts := alerts p |}.

Definition set_bodyClasses (x : list string) (p : Page) : Page :=
  {| world := world p; currentDisplayMode := currentDisplayMode p;
     currentWeatherData := currentWeatherData p; bodyClasses := x;
     expandIconDisplay := expandIconDisplay p;
     compressIconDisplay := compressIconDisplay p;
     fullscreenTitle := fullscreenTitle p;
     searchDisabled := searchDisabled p; weatherContent := weatherContent p;
     loadingHidden := loadingHidden p; hostRequests := hostRequests p;
     alerts := alerts p |}.

Definition set_expandIconDisplay (x : string) (p : Page) : Page :=
  {| world := world p; currentDisplayMode := currentDisplayMode p;
     currentWeatherData := currentWeatherData p;
     bodyClasses := bodyClasses p; expandIconDisplay := x;
     compressIconDisplay := compressIconDisplay p;
     fullscreenTitle := fullscreenTitle p;
     searchDisabled := searchDisabled p; weatherContent := weatherContent p;
     loadingHidden := loadingHidden p; hostRequests := hostRequests p;
     alerts := alerts p |}.

Definition set_compressIconDisplay (x : string) (p : Page) : Page :=
  {| world := world p; currentDisplayMode := currentDisplayMode p;
     currentWeatherData := currentWeatherData p;
     bodyClasses := bodyClasses p; expandIconDisplay := expandIconDisplay p;
     compressIconDisplay := x; fullscreenTitle := fullscreenTitle p;
     searchDisabled := searchDisabled p; weatherContent := weatherContent p;
     loadingHidden := loadingHidden p; hostRequests := hostRequests p;
     alerts := alerts p |}.

Definition set_fullscreenTitle (x : string) (p : Page) : Page :=
  {| world := world p; currentDisplayMode := currentDisplayMode p;
     currentWeatherData := currentWeatherData p;
     bodyClasses := bodyClasses p; expandIconDisplay := expandIconDisplay p;
     compressIconDisplay := compressIconDisplay p; fullscreenTitle := x;
     searchDisabled := searchDisabled p; weatherContent := weatherContent p;
     loadingHidden := loadingHidden p; hostRequests := hostRequests p;
     alerts := alerts p |}.

Definition set_searchDisabled (x : bool) (p : Page) : Page :=
  {| world := world p; currentDisplayMode := currentDisplayMode p;
     currentWeatherData := currentWeatherData p;
     bodyClasses := bodyClasses p; expandIconDisplay := expandIconDisplay p;
     compressIconDisplay := compressIconDisplay p;
     fullscreenTitle := fullscreenTitle p; searchDisabled := x;
     weatherContent := weatherContent p; loadingHidden := loadingHidden p;
     hostRequests := hostRequests p; alerts := alerts p |}.

Definition set_weatherContent (x : WeatherContent) (p : Page) : Page :=
  {| world := world p; currentDisplayMode := currentDisplayMode p;
     currentWeatherData := currentWeatherData p;
     bodyClasses := bodyClasses p; expandIconDisplay := expandIconDisplay p;
     compressIconDisplay := compressIconDisplay p;
     fullscreenTitle := fullscreenTitle p;
     searchDisabled := searchDisabled p; weatherContent := x;
     loadingHidden := loadingHidden p; hostRequests := hostRequests p;
     alerts := alerts p |}.

Definition set_loadingHidden (x : bool) (p : Page) : Page :=
  {| world := world p; currentDisplayMode := currentDisplayMode p;
     currentWeatherData := currentWeatherData p;
     bodyClasses := bodyClasses p; expandIconDisplay := expandIconDisplay p;
     compressIconDisplay := compressIconDisplay p;
     fullscreenTitle := fullscreenTitle p;
     searchDisabled := searchDisabled p; weatherContent := weatherContent p;
     loadingHidden := x; hostRequests := hostRequests p;
     alerts := alerts p |}.

Definition set_hostRequests (x : list HostRequest) (p : Page) : Page :=
  {| world := world p; currentDisplayMode := currentDisplayMode p;
     currentWeatherData := currentWeatherData p;
     bodyClasses := bodyClasses p; expandIconDisplay := expandIconDisplay p;
     compressIconDisplay := compressIconDisplay p;
     fullscreenTitle := fullscreenTitle p;
     searchDisabled := searchDisabled p; weatherContent := weatherContent p;
     loadingHidden := loadingHidden p; hostRequests := x;
     alerts := alerts p |}.

Definition set_alerts (x : list string) (p : Page) : Page :=
  {| world := world p; currentDisplayMode := currentDisplayMode p;
     currentWeatherData := currentWeatherData p;
     bodyClasses := bodyClasses p; expandIconDisplay := expandIconDisplay p;
     compressIconDisplay := compressIconDisplay p;
     fullscreenTitle := fullscreenTitle p;
     searchDisabled := searchDisabled p; weatherContent := weatherContent p;
     loadingHidden := loadingHidden p; hostRequests := hostRequests p;
     alerts := x |}.

(** The statements of the page: they thread the page and either return
    or raise. *)
Definition P (A : Type) : Type := Page -> Outcome A * Page.

#[export] Instance P_ret : MRet P := fun A a p => (Returned a, p).

#[export] Instance P_bind : MBind P := fun A B f m p =>
  match m p with
  | (Returned a, p') => f a p'
  | (Raised e, p') => (Raised e, p')
  end.

(** [try { body } catch (error) { handler(error) }] *)
Definition tryCatchP {A} (body : P A) (handler : Thrown -> P A) : P A :=
  fun p =>
    match body p with
    | (Returned a, p') => (Returned a, p')
    | (Raised e, p') => handler e p'
    end.

(** [try { body } finally { finalizer }] *)
Definition tryFinally {A} (body : P A) (finalizer : P unit) : P A :=
  fun p =>
    match body p with
    | (outcome, p') =>
        match finalizer p' with
        | (Returned _, p'') => (outcome, p'')
        | (Raised e, p'') => (Raised e, p'')
        end
    end.

Definition getsP {A} (f : Page -> A) : P A := fun p => (Returned (f p), p).

Definition modifyP (f : Page -> Page) : P unit := fun p => (Returned tt, f p).

(** [throw error] *)
Definition throw {A} (e : Thrown) : P A := fun p => (Raised e, p).

(** A statement over the module's variables, run on the page. *)
Definition inWorld {A} (m : M A) : P A :=
  fun p =>
    match m (world p) with
    | (Normal a, w') => (Returned a, set_world w' p)
    | (Throw e, w') => (Raised (Js e), set_world w' p)
    end.

(** A call that waits for the host: the call is sent, the answer is what
    the host gives.  The answer is taken at the call, as the steps of
    [logToHost] are: no time passes meanwhile. *)
Definition awaitHost {A} (request : HostRequest) (answer : Outcome A) : P A :=
  fun p => (answer, set_hostRequests (hostRequests p ++ [request]) p).

(** [#search-btn], [#weather-content] and the other elements the page
    looks up by id are present; [alert] shows its message. *)
Definition alert (text : string) : P unit :=
  modifyP (fun p => set_alerts (alerts p ++ [text]) p).

(** [element.classList.remove(...tokens)] *)
Definition classList_remove (tokens classes : list string) : list string :=
  filter (fun c => c ∉ tokens) classes.

(** [element.classList.add(token)] *)
Definition classList_add (token : string) (classes : list string)
  : list string :=
  if decide (token ∈ classes) then classes else classes ++ [token].

Section PageApp.
Context `{JSON} `{Engine}.

(** *** Display mode and theme *)

(** [updateFullscreenButton()] *)
Definition updateFullscreenButton : P unit :=
  mode ← getsP currentDisplayMode;
  match mode with
  | Fullscreen =>
      modifyP (set_expandIconDisplay "none") ;;
      modifyP (set_compressIconDisplay "block") ;;
      modifyP (set_fullscreenTitle "Exit fullscreen")
  | _ =>
      modifyP (set_expandIconDisplay "block") ;;
      modifyP (set_compressIconDisplay "none") ;;
      modifyP (set_fullscreenTitle "Toggle fullscreen")
  end.

(** [toggleFullscreen()]; [answer] is what the host answers to
    [requestDisplayMode]. *)
Definition toggleFullscreen (answer : Outcome unit) : P unit :=
  mode ← getsP currentDisplayMode;
  let newMode := match mode with
                 | Fullscreen => Inline
                 | _ => Fullscreen
                 end in
  inWorld (log_info ("Requesting display mode: " +:+ modeName newMode) None) ;;
  tryCatchP
    (awaitHost (RequestDisplayMode newMode) answer)
    (fun error =>
       inWorld (log_error "Failed to change display mode"
                          (Some (JString (thrownMessage error))))).

(** [applyTheme(theme)] *)
Definition applyTheme (theme : Theme) : P unit :=
  modifyP (fun p =>
             set_bodyClasses
               (classList_remove ["theme-light"; "theme-dark"] (bodyClasses p))
               p) ;;
  modifyP (fun p =>
             set_bodyClasses
               (classList_add ("theme-" +:+ themeName theme) (bodyClasses p))
               p) ;;
  inWorld (consoleCall ConsoleLog
             ("[WEATHER-APP] Applied theme: " +:+ themeName theme) None).

(** [applyDisplayMode(mode)] *)
Definition applyDisplayMode (mode : DisplayMode) : P unit :=
  modifyP (fun p =>
             set_bodyClasses
               (classList_remove ["mode-inline"; "mode-fullscreen"; "mode-pip"]
                                 (bodyClasses p))
               p) ;;
  modifyP (fun p =>
             set_bodyClasses
               (classList_add ("mode-" +:+ modeName mode) (bodyClasses p))
               p) ;;
  inWorld (consoleCall ConsoleLog
             ("[WEATHER-APP] Applied display mode: " +:+ modeName mode) None).

(** [{ theme: context.theme, displayMode: context.displayMode }] as
    [JSON.stringify] sees it: an absent field is left out. *)
Definition contextValue (context : HostContext) : JValue :=
  JObject
    (match context_theme context with
     | Some t => [("theme", JString (themeName t))]
     | None => []
     end
     ++ match context_displayMode context with
        | Some m => [("displayMode", JString (modeName m))]
        | None => []
        end).

(** [app.onhostcontextchanged] *)
Definition onhostcontextchanged (context : HostContext) : P unit :=
  inWorld (log_info "Host context changed" (Some (contextValue context))) ;;
  match context_theme context with
  | Some theme => applyTheme theme
  | None => mret tt
  end ;;
  match context_displayMode context with
  | Some mode =>
      modifyP (set_currentDisplayMode mode) ;;
      applyDisplayMode mode ;;
      updateFullscreenButton
  | None => mret tt
  end.

(** The keys the [keydown] listener of [initialize] tells apart. *)
Inductive Key : Type :=
  | Escape
  | CtrlEnter
  | OtherKey.

(** The [keydown] listener that [initialize] registers. *)
Definition keydown (key : Key) (answer : Outcome unit) : P unit :=
  mode ← getsP currentDisplayMode;
  match key, mode with
  | Escape, Fullscreen => toggleFullscreen answer
  | CtrlEnter, _ => toggleFullscreen answer
  | _, _ => mret tt
  end.

(** *** Search *)

(** [!location.trim()]: the trimmed string is empty. *)
Definition isBlank (s : string) : bool := String.eqb (trim s) "".

(** [showError(message)] *)
Definition showError (text : string) : P unit :=
  modifyP (set_weatherContent (ErrorShown text)) ;;
  inWorld (log_error "Error displayed" (Some (JString text))).

(** [hideLoading()] *)
Definition hideLoading : P unit := modifyP (set_loadingHidden true).

(** [renderWeather(data)] with the page: the data is kept for the
    actions, the content is replaced by the rendering (the star as
    [isFavorited] says), then the button wiring is deferred and the
    rendering is logged. *)
Definition renderWeatherPage (d : WeatherData) : P unit :=
  modifyP (set_currentWeatherData (Some d)) ;;
  favorited ← inWorld (isFavorited (location d));
  modifyP (set_weatherContent (WeatherShown d favorited)) ;;
  inWorld (setTimeout SetupWeatherButtons 0) ;;
  inWorld (log_info ("Weather rendered for " +:+ location d) None).

(** The tool result as the log line prints it. *)
Definition resultValue (result : ToolResult) : JValue :=
  JObject
    [("_meta",
      JObject
        (match meta_viewUUID result with
         | Some uuid => [("viewUUID", JString uuid)]
         | None => []
         end
         ++ match meta_weatherData result with
            | Some d =>
                [("weatherData",
                  JObject [("location", JString (location d));
                           ("latitude", JNumber (latitude d));
                           ("longitude", JNumber (longitude d))])]
            | None => []
            end))].

(** [searchLocation(location)]; [answer] is what the server answers to
    the [show-weather] call.  (The label of the search button changes
    together with its [disabled] attribute and is left out.) *)
Definition searchLocation (place : string) (answer : Outcome ToolResult)
  : P unit :=
  if isBlank place
  then showError "Please enter a location"
  else
    modifyP (set_searchDisabled true) ;;
    inWorld (log_info ("Searching for location: " +:+ place) None) ;;
    tryFinally
      (tryCatchP
         (result ← awaitHost (CallShowWeather place) answer;
          inWorld (log_info "Weather tool result received"
                            (Some (resultValue result))) ;;
          match meta_weatherData result with
          | Some weatherData =>
              renderWeatherPage weatherData ;;
              hideLoading ;;
              inWorld (addToSearchHistory (location weatherData))
          | None => showError "No weather data in response"
          end)
         (fun error =>
            inWorld (log_error "Failed to fetch weather"
                               (Some (JString (thrownMessage error)))) ;;
            showError ("Failed to fetch weather: " +:+ thrownMessage error)))
      (modifyP (set_searchDisabled false)).

(** *** Starting a stream *)

(** [getWeatherStream()]; [answer] is what the server answers to the
    [uzir-weather-stream] call.  (The log line of the answer prints the
    fields of [_meta] but the updates.) *)
Definition getWeatherStream (answer : Outcome StreamResponse) : P unit :=
  current ← getsP currentWeatherData;
  match current with
  | None =>
      inWorld (log_warn "No weather data available for streaming analysis"
                        None)
  | Some d =>
      inWorld (log_info "Starting progressive weather stream"
                 (Some (JObject [("location", JString (location d));
                                 ("latitude", JNumber (latitude d));
                                 ("longitude", JNumber (longitude d))]))) ;;
      tryCatchP
        (response ← awaitHost (CallWeatherStream (location d) (latitude d)
                                                 (longitude d)) answer;
         inWorld (log_info "Received streaming response metadata"
                    (Some (JObject
                             [("_meta",
                               JObject [("streamId",
                                         JString (meta_streamId response));
                                        ("totalPhases",
                                         JNumber (meta_totalPhases response))])])))
         ;;
         match meta_updates response with
         | None => throw (Error "No stream updates in response")
         | Some updates =>
             inWorld (displayProgressiveInsights (meta_streamId response)
                        updates (meta_totalPhases response))
         end)
        (fun error =>
           inWorld (log_error "Failed to start weather stream"
                              (Some (JString (thrownMessage error)))) ;;
           alert ("Failed to start weather stream: " +:+ thrownMessage error))
  end.

(** *** The favorite button *)

(** The click listener that [setupFavoriteButton(data)] registers; the
    result is the star the button shows afterwards. *)
Definition favoriteButtonClick (d : WeatherData) : M bool :=
  favorited ← isFavorited (location d);
  if favorited : bool
  then removeFromFavorites (location d) ;; mret false
  else addToFavorites (location d) (latitude d) (longitude d) ;; mret true.

(** *** Events of the page, one after the other *)

Inductive PageEvent : Type :=
  | HostContextChanged (context : HostContext)
  | FullscreenClicked (answer : Outcome unit)
  | KeyPressed (key : Key) (answer : Outcome unit).

Definition handleEvent (event : PageEvent) : P unit :=
  match event with
  | HostContextChanged context => onhostcontextchanged context
  | FullscreenClicked answer => toggleFullscreen answer
  | KeyPressed key answer => keydown key answer
  end.

Fixpoint handleEvents (events : list PageEvent) (p : Page) : Page :=
  match events with
  | [] => p
  | event :: rest => handleEvents rest (snd (handleEvent event p))
  end.

End PageApp.

(** The display mode the host announced last, if it announced any. *)
Fixpoint lastMode (events : list PageEvent) : option DisplayMode :=
  match events with
  | [] => None
  | event :: rest =>
      match lastMode rest, event with
      | Some m, _ => Some m
      | None, HostContextChanged context => context_displayMode context
      | None, _ => None
      end
  end.

(** The theme the host announced last, if it announced any. *)
Fixpoint lastTheme (events : list PageEvent) : option Theme :=
  match events with
  | [] => None
  | event :: rest =>
      match lastTheme rest, event with
      | Some t, _ => Some t
      | None, HostContextChanged context => context_theme context
      | None, _ => None
      end
  end.



(** The classes [applyDisplayMode] and [applyTheme] write. *)
Definition modeClass (m : DisplayMode) : string := "mode-" +:+ modeName m.

Definition themeClass (t : Theme) : string := "theme-" +:+ themeName t.

Definition appearanceClasses : list string :=
  ["theme-light"; "theme-dark"; "mode-inline"; "mode-fullscreen"; "mode-pip"].

(** How the fullscreen button looks in a mode: the display of the expand
    icon, the display of the compress icon, the title. *)
Definition buttonFor (m : DisplayMode) : string * string * string :=
  match m with
  | Fullscreen => ("none", "block", "Exit fullscreen")
  | _ => ("block", "none", "Toggle fullscreen")
  end.

(** The page is in mode [m] and shows it: the body has the class of [m]
    and of no other mode, and the button looks as it does in [m]. *)
Definition showsMode (m : DisplayMode) (p : Page) : Prop :=
  currentDisplayMode p = m
  /\ (forall m', modeClass m' ∈ bodyClasses p <-> m' = m)
  /\ (expandIconDisplay p, compressIconDisplay p, fullscreenTitle p)
     = buttonFor m.

(** The body has the class of theme [t] and of no other theme. *)
Definition showsTheme (t : Theme) (p : Page) : Prop :=
  forall t', themeClass t' ∈ bodyClasses p <-> t' = t.

(** Mode, classes and button are the same. *)
Definition sameAppearance (p p' : Page) : Prop :=
  currentDisplayMode p' = currentDisplayMode p
  /\ bodyClasses p' = bodyClasses p
  /\ expandIconDisplay p' = expandIconDisplay p
  /\ compressIconDisplay p' = compressIconDisplay p
  /\ fullscreenTitle p' = fullscreenTitle p.


(** The classes of the body once a theme, or a mode, has been applied;
    [None] applies nothing. *)
Definition themed (t : option Theme) (classes : list string) : list string :=
  match t with
  | Some t =>
      classList_add (themeClass t)
        (classList_remove ["theme-light"; "theme-dark"] classes)
  | None => classes
  end.

Definition inMode (m : option DisplayMode) (classes : list string)
  : list string :=
  match m with
  | Some m =>
      classList_add (modeClass m)
        (classList_remove ["mode-inline"; "mode-fullscreen"; "mode-pip"]
                          classes)
  | None => classes
  end.

(** Everything of the page but its display mode, classes, button and the
    logs of its variables is the same. *)
Definition sameButAppearance (p p' : Page) : Prop :=
  sameButLogs (world p) (world p')
  /\ currentWeatherData p' = currentWeatherData p
  /\ searchDisabled p' = searchDisabled p
  /\ weatherContent p' = weatherContent p
  /\ loadingHidden p' = loadingHidden p
  /\ hostRequests p' = hostRequests p
  /\ alerts p' = alerts p.


(** The mode [toggleFullscreen] asks for when the page is in mode [m]. *)
Definition toggledMode (m : DisplayMode) : DisplayMode :=
  match m with
  | Fullscreen => Inline
  | _ => Fullscreen
  end.

(** The entry a log call at [now] leaves in the activity log. *)
Definition logEntryOf `{JSON} (l : HostLevel) (now : Z) (message : string)
    (data : option JValue) : LogEntry :=
  {| level := uiLevelOf l; timestamp := now; message := logText message data |}.

(** A request for the inline or the fullscreen mode. *)
Definition asksInlineOrFullscreen (r : HostRequest) : Prop :=
  r = RequestDisplayMode Inline \/ r = RequestDisplayMode Fullscreen.


(** The number of clicks and keys among the events. *)
Fixpoint userEvents (events : list PageEvent) : nat :=
  match events with
  | [] => 0%nat
  | HostContextChanged _ :: rest => userEvents rest
  | _ :: rest => S (userEvents rest)
  end.


(** No stream was started between [p] and [p']: the document and the
    timers are the same. *)
Definition streamNotStarted (p p' : Page) : Prop :=
  document (world p') = document (world p)
  /\ sameTimers (world p) (world p').

(** * Properties *)

(** ** Running the monad *)

Ltac run_step :=
  unfold mbind, M_bind, mret, M_ret, gets, modify, liftC, tryCatch; simpl.

Lemma set_localStorage_same (w : World) : set_localStorage (localStorage w) w = w.
Proof. by destruct w. Qed.

Lemma set_console_same (w : World) : set_console (console w) w = w.
Proof. by destruct w. Qed.

Lemma sameButLogs_refl (w : World) : sameButLogs w w.
Proof. by repeat split. Qed.

Lemma sameButLogs_trans (w1 w2 w3 : World) :
  sameButLogs w1 w2 -> sameButLogs w2 w3 -> sameButLogs w1 w3.
Proof.
  unfold sameButLogs. intros H12 H23.
  destruct_and!. repeat split; congruence.
Qed.

(** ** The activity log *)

Section ActivityLog.

Lemma addLogEntry_run lv ts msg (w : World) :
  addLogEntry lv ts msg w
  = (Normal tt,
     set_logEntries
       (pushed {| level := lv; timestamp := ts; message := msg |} (logEntries w))
       w).
Proof.
  unfold addLogEntry, pushed. run_step.
  destruct (50 <? length _)%nat; reflexivity.
Qed.

Lemma pushed_spec e (l : list LogEntry) : pushed e l = addLogEntry_spec e l.
Proof.
  unfold pushed, addLogEntry_spec. rewrite length_app. simpl.
  destruct (50 <? length l + 1)%nat eqn:Hfull; [|reflexivity].
  destruct l as [|x l]; [|reflexivity].
  simpl in Hfull. discriminate.
Qed.

Lemma pushed_last_50 e (l : list LogEntry) :
  (length l <= 50)%nat ->
  pushed e l = drop (length (l ++ [e]) - 50) (l ++ [e]).
Proof.
  intros Hlen. unfold pushed. rewrite length_app. simpl.
  destruct (50 <? length l + 1)%nat eqn:Hfull.
  - apply Nat.ltb_lt in Hfull.
    replace (length l + 1 - 50)%nat with 1%nat by lia.
    by destruct l.
  - apply Nat.ltb_ge in Hfull.
    replace (length l + 1 - 50)%nat with 0%nat by lia. reflexivity.
Qed.

Lemma pushed_length e (l : list LogEntry) :
  (length l <= 50)%nat -> (length (pushed e l) <= 50)%nat.
Proof.
  intros Hlen. rewrite pushed_last_50 by done.
  rewrite length_drop. lia.
Qed.

Lemma addLogEntries_last_50 (entries : list LogEntry) (w : World) :
  (length (logEntries w) <= 50)%nat ->
  logEntries (addLogEntries entries w)
  = drop (length (logEntries w ++ entries) - 50) (logEntries w ++ entries).
Proof.
  revert w. induction entries as [|e entries IH]; intros w Hlen.
  - simpl. rewrite app_nil_r.
    replace (length (logEntries w) - 50)%nat with 0%nat by lia. reflexivity.
  - destruct e as [lv ts msg]. simpl. rewrite addLogEntry_run. simpl.
    set (e := {| level := lv; timestamp := ts; message := msg |}).
    rewrite IH; simpl; [|by apply pushed_length].
    rewrite (pushed_last_50 _ _ Hlen).
    set (l := logEntries w) in *.
    assert (Hd : (length (l ++ [e]) - 50 <= length (l ++ [e]))%nat) by lia.
    rewrite length_app, length_drop.
    replace (l ++ e :: entries)%list with ((l ++ [e]) ++ entries)%list
      by (by rewrite <- app_assoc).
    rewrite (length_app (l ++ [e])).
    set (n := length (l ++ [e])) in *.
    rewrite <- (drop_app_le (l ++ [e]) entries (n - 50)) by lia.
    rewrite drop_drop. f_equal. lia.
Qed.

End ActivityLog.

(** C10. For every sequence of [addLogEntry] calls on a log of at most 50
    entries (the log starts empty), the log never exceeds 50 entries and
    holds the last 50 of all entries; a call that would take the length
    past 50 removes the oldest entry, which is what making room first and
    appending then gives. *)
Theorem addLogEntry_never_exceeds_50 (entries : list LogEntry) (w : World) :
  (length (logEntries w) <= 50)%nat ->
  (length (logEntries (addLogEntries entries w)) <= 50)%nat
  /\ logEntries (addLogEntries entries w)
     = drop (length (logEntries w ++ entries) - 50) (logEntries w ++ entries)
  /\ (forall lv ts msg,
        addLogEntry lv ts msg w
        = (Normal tt,
           set_logEntries
             (addLogEntry_spec
                {| level := lv; timestamp := ts; message := msg |}
                (logEntries w)) w)).
Proof.
  intros Hlen. split; [|split].
  - rewrite addLogEntries_last_50 by done. rewrite length_drop. lia.
  - by apply addLogEntries_last_50.
  - intros lv ts msg. rewrite addLogEntry_run. by rewrite pushed_spec.
Qed.

Lemma addLogEntry_never_exceeds_50_witness :
  (length (logEntries (initialWorld 0 emptyStorage true)) <= 50)%nat
  /\ (length (logEntries
                (addLogEntries
                   (replicate 60 {| level := UiInfo; timestamp := 0;
                                    message := "tick" |})
                   (initialWorld 0 emptyStorage true))) <= 50)%nat.
Proof.
  split; [simpl; lia|].
  apply (addLogEntry_never_exceeds_50
           (replicate 60 {| level := UiInfo; timestamp := 0; message := "tick" |})
           (initialWorld 0 emptyStorage true)).
  simpl. lia.
Defined.

(** ** Logging leaves the rest of the state alone *)

Section Logging.
Context `{JSON} `{Engine}.

Lemma consoleCall_run l text error (w : World) :
  consoleCall l text error w
  = (Normal tt,
     set_console (console w ++ [{| consoleLevel := l; consoleText := text;
                                   consoleError := error |}]) w).
Proof. reflexivity. Qed.

Lemma logToHost_run l msg data (w : World) :
  exists w', logToHost l msg data w = (Normal tt, w') /\ sameButLogs w w'.
Proof.
  unfold logToHost, sendLog, consoleCall. run_step.
  destruct (hostAvailable w); simpl; rewrite addLogEntry_run;
    eexists; (split; [reflexivity|]); by repeat split.
Qed.

(** A log call without data: the console line at the level asked for, the
    host message when the channel is up, the entry of the activity log. *)
Lemma logToHost_plain l msg (w : World) :
  exists w',
    logToHost l msg None w = (Normal tt, w')
    /\ sameButLogs w w'
    /\ console w'
       = (console w
            ++ {| consoleLevel := consoleLevelOf l;
                  consoleText := "[WEATHER-APP] " +:+ msg;
                  consoleError := None |}
            :: (if hostAvailable w then []
                else [{| consoleLevel := ConsoleError;
                         consoleText := "Failed to send log to host:";
                         consoleError := Some HostRejected |}]))%list
    /\ hostLogs w'
       = (if hostAvailable w then hostLogs w ++ [(l, msg)] else hostLogs w)
    /\ logEntries w'
       = pushed {| level := uiLevelOf l; timestamp := clock w; message := msg |}
                (logEntries w).
Proof.
  unfold logToHost, sendLog, consoleCall. run_step.
  destruct (hostAvailable w) eqn:Hhost; simpl; rewrite addLogEntry_run;
    eexists; (split; [reflexivity|]); simpl; rewrite ?Hhost;
    repeat split; try reflexivity.
  by rewrite <- app_assoc.
Qed.

End Logging.

(** ** Viewport height *)

Section Height.
Context `{JSON} `{Engine}.

Lemma updateViewportHeight_run (w : World) :
  exists w',
    updateViewportHeight w = (Normal tt, w')
    /\ sizeChanges w' = sizeChanges w ++ [totalHeight w]
    /\ isForecastVisible w' = isForecastVisible w
    /\ isLogExpanded w' = isLogExpanded w.
Proof.
  unfold updateViewportHeight, consoleCall. run_step.
  eexists. split; [reflexivity|]. by repeat split.
Qed.

Lemma initialize_first_size now storage host :
  sizeChanges (snd (initialize (initialWorld now storage host)))
  = if host then [HEIGHT_BASE + HEIGHT_LOG_COLLAPSED] else [].
Proof.
  assert (Hflags : totalHeight (initialWorld now storage host)
                   = HEIGHT_BASE + HEIGHT_LOG_COLLAPSED) by reflexivity.
  assert (Hsizes : sizeChanges (initialWorld now storage host) = [])
    by reflexivity.
  assert (Hhost : hostAvailable (initialWorld now storage host) = host)
    by reflexivity.
  revert Hflags Hsizes Hhost. generalize (initialWorld now storage host).
  intros w0 Hflags Hsizes Hhost.
  unfold initialize, log_info, log_error, tryCatch, mbind, M_bind, gets.
  rewrite Hhost. destruct host.
  - unfold mret, M_ret.
    destruct (logToHost_run HostInfo "Connected to host" None w0)
      as (w1 & -> & S1).
    destruct (updateViewportHeight_run w1) as (w2 & -> & Hsz & Hf & Hl).
    destruct (logToHost_run HostInfo "Sent initial size" None w2)
      as (w3 & -> & S3).
    simpl. unfold sameButLogs in *. destruct_and!.
    replace (sizeChanges w3) with (sizeChanges w2) by done.
    rewrite Hsz. unfold totalHeight in *.
    replace (isForecastVisible w1) with (isForecastVisible w0) by done.
    replace (isLogExpanded w1) with (isLogExpanded w0) by done.
    rewrite Hflags.
    by replace (sizeChanges w1) with (@nil Z) by congruence.
  - unfold liftC.
    destruct (logToHost_run HostError "Failed to initialize"
                (Some (JString (errorMessage HostRejected))) w0)
      as (w1 & -> & S1).
    destruct (logToHost_run HostError "Error displayed"
                (Some (JString ("Initialization error: "
                                  +:+ errorMessage HostRejected))) w1)
      as (w2 & -> & S2).
    simpl. unfold sameButLogs in *. destruct_and!.
    replace (sizeChanges w2) with (sizeChanges w1) by done. congruence.
Qed.

(** C4. The height reported to the host is the formula of the
    specification over the two visibility flags and the four constants;
    reporting it changes neither flag; on a fresh page (both sections
    collapsed) it is [HEIGHT_BASE + HEIGHT_LOG_COLLAPSED], which is what
    [initialize] reports once connected. *)
Theorem computePreferredHeight_formula (w : World) :
  totalHeight w
  = computePreferredHeight_spec HEIGHT_BASE HEIGHT_FORECAST
      HEIGHT_LOG_COLLAPSED HEIGHT_LOG_EXPANDED
      (isForecastVisible w) (isLogExpanded w)
  /\ (exists w',
        updateViewportHeight w = (Normal tt, w')
        /\ sizeChanges w' = sizeChanges w ++ [totalHeight w]
        /\ totalHeight w' = totalHeight w)
  /\ (forall now storage host,
        totalHeight (initialWorld now storage host)
        = HEIGHT_BASE + HEIGHT_LOG_COLLAPSED
        /\ sizeChanges (snd (initialize (initialWorld now storage host)))
           = if host then [HEIGHT_BASE + HEIGHT_LOG_COLLAPSED] else []).
Proof.
  split; [reflexivity|]. split.
  - destruct (updateViewportHeight_run w) as (w' & Hrun & Hsz & Hf & Hl).
    exists w'. repeat split; [done..|].
    unfold totalHeight. by rewrite Hf, Hl.
  - intros now storage host. split; [reflexivity|].
    apply initialize_first_size.
Qed.

End Height.

(** ** Frame rules *)

Section Frame.
Variable R : World -> World -> Prop.
Hypothesis R_refl : forall w, R w w.
Hypothesis R_trans : forall w1 w2 w3, R w1 w2 -> R w2 w3 -> R w1 w3.

Lemma keeps_ret {A} (a : A) : keeps R (mret a).
Proof. intros w. apply R_refl. Qed.

Lemma keeps_gets {A} (f : World -> A) : keeps R (gets f).
Proof. intros w. apply R_refl. Qed.

Lemma keeps_liftC {A} (c : Completion A) : keeps R (liftC c).
Proof. intros w. apply R_refl. Qed.

Lemma keeps_modify (f : World -> World) :
  (forall w, R w (f w)) -> keeps R (modify f).
Proof. intros Hf w. apply Hf. Qed.

Lemma keeps_bind {A B} (m : M A) (f : A -> M B) :
  keeps R m -> (forall a, keeps R (f a)) -> keeps R (m ≫= f).
Proof.
  intros Hm Hf w. unfold mbind, M_bind.
  specialize (Hm w). destruct (m w) as [[a|e] w']; simpl in *; [|done].
  eapply R_trans; [exact Hm|apply Hf].
Qed.

Lemma keeps_tryCatch {A} (body : M A) (handler : JsError -> M A) :
  keeps R body -> (forall e, keeps R (handler e)) -> keeps R (tryCatch body handler).
Proof.
  intros Hm Hf w. unfold tryCatch.
  specialize (Hm w). destruct (body w) as [[a|e] w']; simpl in *; [done|].
  eapply R_trans; [exact Hm|apply Hf].
Qed.

Lemma keeps_if {A} (b : bool) (m1 m2 : M A) :
  keeps R m1 -> keeps R m2 -> keeps R (if b then m1 else m2).
Proof. by destruct b. Qed.

Lemma keeps_forEachIndexed {A} (f : A -> nat -> M unit) (l : list A) index :
  (forall x i, keeps R (f x i)) -> keeps R (forEachIndexed f l index).
Proof.
  intros Hf. revert index. induction l as [|x l IH]; intros index; simpl.
  - apply keeps_ret.
  - apply keeps_bind; [apply Hf|]. intros _. apply IH.
Qed.

End Frame.

(** Breaks a computation into its steps, for a relation with the given
    proofs of reflexivity and transitivity; [leaf] closes the steps that
    have a lemma of their own. *)
Ltac frame_with refl trans leaf :=
  repeat first
    [ leaf
    | match goal with
      | |- keeps _ (mret _) => apply (keeps_ret _ refl)
      | |- keeps _ (gets _) => apply (keeps_gets _ refl)
      | |- keeps _ (liftC _) => apply (keeps_liftC _ refl)
      | |- keeps _ (modify _) => apply keeps_modify
      | |- keeps _ (_ ≫= _) => apply (keeps_bind _ trans)
      | |- keeps _ (tryCatch _ _) => apply (keeps_tryCatch _ trans)
      | |- keeps _ (if _ then _ else _) => apply keeps_if
      | |- keeps _ (forEachIndexed _ _ _) =>
          apply (keeps_forEachIndexed _ refl trans)
      | |- keeps _ (match ?x with Some _ => _ | None => _ end) =>
          destruct x; cbv beta iota
      end
    | progress intros ].




(** ** The persisted view state store *)

Section StoreProperties.
Context `{JSON} `{Engine}.

Lemma Storage_setItem_throw s key value e :
  fst (Storage_setItem s key value) = Throw e ->
  snd (Storage_setItem s key value) = s.
Proof.
  unfold Storage_setItem.
  destruct (accessible s); [|done].
  by destruct (_ <=? _)%nat.
Qed.

(** [savePersistedState], case by case. *)
Lemma savePersistedState_run state (w : World) :
  savePersistedState state w
  = match truthy (viewUUID w) with
    | None => (Normal tt, w)
    | Some uuid =>
        match Storage_setItem (localStorage w) (storageKey uuid)
                (JSON_stringify (stateValue state)) with
        | (Normal _, s) =>
            (Normal tt,
             set_console
               (console w ++ [{| consoleLevel := ConsoleLog;
                                 consoleText := "[WEATHER-APP] Saved persisted state";
                                 consoleError := None |}])
               (set_localStorage s w))
        | (Throw e, s) =>
            (Normal tt,
             set_console
               (console w ++ [warnLine "Failed to save persisted state:" e])
               (set_localStorage s w))
        end
    end.
Proof.
  unfold savePersistedState, localStorage_setItem, consoleCall. run_step.
  destruct (truthy (viewUUID w)) as [uuid|]; [|reflexivity].
  by destruct (Storage_setItem _ _ _) as [[[]|e] s].
Qed.

(** A save never raises and writes to the storage and the console only. *)
Lemma savePersistedState_never_raises state (w : World) :
  exists w',
    savePersistedState state w = (Normal tt, w')
    /\ persistedState w' = persistedState w
    /\ viewUUID w' = viewUUID w
    /\ clock w' = clock w
    /\ logEntries w' = logEntries w
    /\ timers w' = timers w
    /\ document w' = document w.
Proof.
  rewrite savePersistedState_run.
  destruct (truthy (viewUUID w)) as [uuid|].
  - destruct (Storage_setItem _ _ _) as [[[]|e] s];
      eexists; (split; [reflexivity|]); by repeat split.
  - exists w. by repeat split.
Qed.

(** C7. When the storage write of [savePersistedState] fails, the
    exception is caught and logged with [console.warn], the call returns
    normally, and the state after it is the state before it with that one
    console line more: the in-memory state and the storage are unchanged.
    Whatever the outcome of the write, a save returns normally and leaves
    the in-memory state as it was. *)
Theorem save_failure_is_caught state (w : World) uuid e :
  truthy (viewUUID w) = Some uuid ->
  fst (Storage_setItem (localStorage w) (storageKey uuid)
         (JSON_stringify (stateValue state))) = Throw e ->
  savePersistedState state w
  = (Normal tt,
     set_console (console w ++ [warnLine "Failed to save persisted state:" e]) w)
  /\ persistedState (snd (savePersistedState state w)) = persistedState w
  /\ localStorage (snd (savePersistedState state w)) = localStorage w
  /\ (forall state' w0,
        fst (savePersistedState state' w0) = Normal tt
        /\ persistedState (snd (savePersistedState state' w0))
           = persistedState w0).
Proof.
  intros Huuid Hthrow.
  assert (Hrun : savePersistedState state w
                 = (Normal tt,
                    set_console
                      (console w
                         ++ [warnLine "Failed to save persisted state:" e]) w)).
  { rewrite savePersistedState_run, Huuid.
    pose proof (Storage_setItem_throw _ _ _ _ Hthrow) as Hsame.
    destruct (Storage_setItem _ _ _) as [c s]. simpl in *. subst c s.
    by rewrite set_localStorage_same. }
  split; [exact Hrun|]. rewrite Hrun. simpl. repeat split.
  all: destruct (savePersistedState_never_raises state' w0) as (w' & -> & ?);
    simpl; by destruct_and!.
Qed.

(** [loadPersistedState], case by case. *)
Lemma loadPersistedState_run (w : World) :
  loadPersistedState w
  = match truthy (viewUUID w) with
    | None => (Normal defaultState, w)
    | Some uuid =>
        let failed e :=
          (Normal defaultState,
           set_console
             (console w ++ [warnLine "Failed to load persisted state:" e]) w) in
        match Storage_getItem (localStorage w) (storageKey uuid) with
        | Throw e => failed e
        | Normal stored =>
            match truthy stored with
            | None => (Normal defaultState, w)
            | Some text =>
                match JSON_parse text with
                | Throw e => failed e
                | Normal JNull => failed TypeError
                | Normal state =>
                    (Normal
                       {| favorites :=
                            arrayOrEmpty
                              (match state with
                               | JObject props => lookupProperty "favorites" props
                               | _ => None
                               end);
                          searchHistory :=
                            arrayOrEmpty
                              (match state with
                               | JObject props =>
                                   lookupProperty "searchHistory" props
                               | _ => None
                               end);
                          lastLocation :=
                            match state with
                            | JObject props =>
                                lookupProperty "lastLocation" props
                            | _ => None
                            end |}, w)
                end
            end
        end
    end.
Proof.
  unfold loadPersistedState, localStorage_getItem, consoleCall, warnLine.
  run_step.
  destruct (truthy (viewUUID w)) as [uuid|]; [|reflexivity].
  destruct (Storage_getItem _ _) as [stored|e]; [|reflexivity].
  destruct (truthy stored) as [text|]; [|reflexivity].
  destruct (JSON_parse text) as [[]|e]; reflexivity.
Qed.

(** A load never raises and writes to the console only. *)
Lemma loadPersistedState_never_raises (w : World) :
  exists state lines,
    loadPersistedState w = (Normal state, set_console (console w ++ lines) w).
Proof.
  rewrite loadPersistedState_run.
  assert (Hsame : w = set_console (console w ++ []) w)
    by (by rewrite app_nil_r, set_console_same).
  destruct (truthy (viewUUID w)) as [uuid|];
    [|exists defaultState, []; by rewrite <- Hsame].
  destruct (Storage_getItem _ _) as [stored|e]; [|by eexists _, [_]].
  destruct (truthy stored) as [text|];
    [|exists defaultState, []; by rewrite <- Hsame].
  destruct (JSON_parse text) as [[]|e];
    first [by eexists _, [_] | eexists _, []; by rewrite <- Hsame].
Qed.

(** C1 (as amended). [loadPersistedState] never raises and writes nothing
    but console lines.  It returns the default state when the stored value
    is missing or empty, when the storage cannot be read, when the text
    does not parse, and when it parses to something that is not an object.
    When the text parses to an object, the fields are defaulted one by
    one: [favorites] and [searchHistory] are the stored arrays, or [[]]
    when the stored field is missing or not an array, and [lastLocation]
    is the stored field as it is. *)
Theorem load_defaults_field_by_field (w : World) uuid :
  truthy (viewUUID w) = Some uuid ->
  (exists state lines,
      loadPersistedState w = (Normal state, set_console (console w ++ lines) w))
  /\ (forall stored,
        Storage_getItem (localStorage w) (storageKey uuid) = Normal stored ->
        truthy stored = None ->
        loadPersistedState w = (Normal defaultState, w))
  /\ (forall e,
        Storage_getItem (localStorage w) (storageKey uuid) = Throw e ->
        fst (loadPersistedState w) = Normal defaultState)
  /\ (forall stored text e,
        Storage_getItem (localStorage w) (storageKey uuid) = Normal stored ->
        truthy stored = Some text ->
        JSON_parse text = Throw e ->
        fst (loadPersistedState w) = Normal defaultState)
  /\ (forall stored text v,
        Storage_getItem (localStorage w) (storageKey uuid) = Normal stored ->
        truthy stored = Some text ->
        JSON_parse text = Normal v ->
        (forall props, v <> JObject props) ->
        fst (loadPersistedState w) = Normal defaultState)
  /\ (forall stored text props,
        Storage_getItem (localStorage w) (storageKey uuid) = Normal stored ->
        truthy stored = Some text ->
        JSON_parse text = Normal (JObject props) ->
        loadPersistedState w
        = (Normal
             {| favorites := arrayOrEmpty (lookupProperty "favorites" props);
                searchHistory :=
                  arrayOrEmpty (lookupProperty "searchHistory" props);
                lastLocation := lookupProperty "lastLocation" props |}, w)
        /\ ((forall a, lookupProperty "favorites" props <> Some (JArray a)) ->
            favorites (match fst (loadPersistedState w) with
                       | Normal state => state
                       | Throw _ => defaultState
                       end) = [])).
Proof.
  intros Huuid. split; [apply loadPersistedState_never_raises|].
  rewrite loadPersistedState_run, Huuid.
  split; [|split; [|split; [|split]]].
  - intros stored -> ->. reflexivity.
  - intros e ->. reflexivity.
  - intros stored text e -> -> ->. reflexivity.
  - intros stored text v -> -> -> Hshape.
    destruct v; try reflexivity. by destruct (Hshape properties).
  - intros stored text props -> -> ->. split; [reflexivity|].
    intros Hfav. simpl.
    destruct (lookupProperty "favorites" props) as [[]|]; try reflexivity.
    by destruct (Hfav elements).
Qed.

(** *** Nothing is stored without a view identifier *)












Lemma bind_normal {A B} (m : M A) (f : A -> M B) (w w' : World) a :
  m w = (Normal a, w') -> (m ≫= f) w = f a w'.
Proof. intros Hm. unfold mbind, M_bind. by rewrite Hm. Qed.

Lemma bind_throw {A B} (m : M A) (f : A -> M B) (w w' : World) e :
  m w = (Throw e, w') -> (m ≫= f) w = (Throw e, w').
Proof. intros Hm. unfold mbind, M_bind. by rewrite Hm. Qed.

Lemma tryCatch_normal {A} (body : M A) handler (w w' : World) a :
  body w = (Normal a, w') -> tryCatch body handler w = (Normal a, w').
Proof. intros Hm. unfold tryCatch. by rewrite Hm. Qed.

Lemma tryCatch_throw {A} (body : M A) handler (w w' : World) e :
  body w = (Throw e, w') -> tryCatch body handler w = handler e w'.
Proof. intros Hm. unfold tryCatch. by rewrite Hm. Qed.




End StoreProperties.

Lemma save_failure_is_caught_witness :
  savePersistedState defaultState fullStorageWorld
  = (Normal tt,
     set_console
       (console fullStorageWorld
          ++ [warnLine "Failed to save persisted state:" QuotaExceededError])
       fullStorageWorld).
Proof.
  exact (proj1 (save_failure_is_caught defaultState fullStorageWorld "view-1"
                  QuotaExceededError eq_refl eq_refl)).
Defined.


(** C1 (as stated) fails: the stored text
    [printJson malformedDocument] has a string for [favorites]; the load
    falls back to [[]] for that field only and returns the stored search
    history and last location, not the default state. *)
Lemma load_wrong_shape_not_default :
  Storage_getItem (localStorage malformedWorld) (storageKey "view-1")
  = Normal (Some (printJson malformedDocument))
  /\ JSON_parse (printJson malformedDocument) = Normal malformedDocument
  /\ fst (loadPersistedState malformedWorld)
     = Normal {| favorites := [];
                 searchHistory := [mkHistoryEntry "Tokyo" 17];
                 lastLocation := Some (JString "Tokyo") |}
  /\ fst (loadPersistedState malformedWorld) <> Normal defaultState.
Proof.
  assert (Hload : fst (loadPersistedState malformedWorld)
                  = Normal {| favorites := [];
                              searchHistory := [mkHistoryEntry "Tokyo" 17];
                              lastLocation := Some (JString "Tokyo") |})
    by (vm_compute; reflexivity).
  split; [vm_compute; reflexivity|].
  split; [vm_compute; reflexivity|].
  split; [exact Hload|]. rewrite Hload. discriminate.
Qed.

Lemma load_defaults_field_by_field_witness :
  loadPersistedState malformedWorld
  = (Normal {| favorites := [];
               searchHistory := [mkHistoryEntry "Tokyo" 17];
               lastLocation := Some (JString "Tokyo") |}, malformedWorld).
Proof.
  destruct (load_defaults_field_by_field malformedWorld "view-1" eq_refl)
    as (_ & _ & _ & _ & _ & Hobject).
  destruct (Hobject (Some (printJson malformedDocument))
              (printJson malformedDocument)
              [("favorites", JString "oops");
               ("searchHistory", JArray [mkHistoryEntry "Tokyo" 17]);
               ("lastLocation", JString "Tokyo")]) as [Hrun _];
    [vm_compute; reflexivity..|].
  exact Hrun.
Defined.

(** ** Case-insensitive matching *)

Section CaseInsensitive.
Context `{Engine}.

Lemma lowerChar_not_upper (c : ascii) : isUpper (lowerChar c) = false.
Proof.
  destruct c as [[] [] [] [] [] [] [] []]; reflexivity.
Qed.

Lemma lowerChar_idempotent (c : ascii) : lowerChar (lowerChar c) = lowerChar c.
Proof.
  unfold lowerChar at 1. by rewrite lowerChar_not_upper.
Qed.

Lemma sameLetter_lowerChar (a b : ascii) :
  sameLetter a b -> lowerChar a = lowerChar b.
Proof.
  intros [->|[[_ ->]|[_ ->]]]; by rewrite ?lowerChar_idempotent.
Qed.

Lemma differOnlyInCase_lowerAscii (s t : string) :
  differOnlyInCase s t -> lowerAscii s = lowerAscii t.
Proof.
  induction 1 as [|a b s t Hab _ IH]; [reflexivity|].
  simpl. by rewrite IH, (sameLetter_lowerChar a b Hab).
Qed.

Lemma sameLetter_ascii (a b : ascii) :
  sameLetter a b ->
  (nat_of_ascii a <? 128)%nat = true -> (nat_of_ascii b <? 128)%nat = true.
Proof.
  intros [->|[[Hupper ->]|[Hupper ->]]]; [done| |].
  - intros _. revert Hupper.
    destruct a as [[] [] [] [] [] [] [] []]; by vm_compute.
  - intros _. revert Hupper.
    destruct b as [[] [] [] [] [] [] [] []]; by vm_compute.
Qed.

Lemma differOnlyInCase_ascii (s t : string) :
  differOnlyInCase s t -> isAscii s = true -> isAscii t = true.
Proof.
  induction 1 as [|a b s t Hab _ IH]; [done|].
  simpl. rewrite !andb_true_iff. intros [Ha Hs].
  split; [by apply (sameLetter_ascii a b)|by apply IH].
Qed.

(** Strings of ASCII characters that differ only in letter case are
    equal after [toLowerCase], in every engine. *)
Lemma differOnlyInCase_toLowerCase (s t : string) :
  isAscii s = true -> differOnlyInCase s t -> toLowerCase s = toLowerCase t.
Proof.
  intros Hs Hcase.
  rewrite !toLowerCase_ascii by eauto using differOnlyInCase_ascii.
  by apply differOnlyInCase_lowerAscii.
Qed.

Lemma matches_toLowerCase (l1 l2 : string) (entry : JValue) :
  toLowerCase l1 = toLowerCase l2 -> matches l1 entry = matches l2 entry.
Proof. intros Heq. unfold matches. by rewrite Heq. Qed.

Lemma entryKey_entryLocation (entry : JValue) :
  entryKey entry = toLowerCase <$> entryLocation entry.
Proof.
  unfold entryKey, entryLocation, lowerLocation.
  destruct (getProperty entry "location") as [[[]|]|]; reflexivity.
Qed.

(** Entries pairwise distinct in their lowered locations: no two of them
    have locations that are equal case-insensitively. *)
Lemma distinct_noTwoSameUpToCase (l : list JValue) :
  StronglySorted distinctLocations l -> noTwoSameUpToCase l.
Proof.
  induction 1 as [|x l _ IH Hx]; intros i j a b Hij Hi Hj Hsame.
  { by rewrite lookup_nil in Hi. }
  destruct j as [|j]; [lia|]. simpl in Hj.
  destruct i as [|i].
  - simpl in Hi. injection Hi as Hi.
    destruct (l !! j) as [y|] eqn:Hy; [|done]. simpl in Hj.
    injection Hj as Hj.
    apply list_elem_of_lookup_2 in Hy.
    rewrite Forall_forall in Hx. apply (Hx y Hy).
    rewrite !entryKey_entryLocation, Hi, Hj. simpl. by f_equal.
  - simpl in Hi. apply (IH i j a b); [lia|done..].
Qed.

Lemma someC_ext (f g : JValue -> Completion bool) (l : list JValue) :
  (forall x, f x = g x) -> someC f l = someC g l.
Proof.
  intros Hfg. induction l as [|x l IH]; [reflexivity|].
  cbn [someC]. by rewrite Hfg, IH.
Qed.

Lemma entryKey_Some (entry : JValue) :
  is_Some (entryKey entry) -> exists key, lowerLocation entry = Normal key.
Proof.
  unfold entryKey. destruct (lowerLocation entry) as [key|e]; [by exists key|].
  by intros [? ?].
Qed.

(** On well-shaped entries [some] does not throw. *)
Lemma someC_wellShaped (location : string) (l : list JValue) :
  wellShaped l -> exists b, someC (matches location) l = Normal b.
Proof.
  induction 1 as [|x l Hx _ [b IH]]; [by exists false|].
  destruct (entryKey_Some x Hx) as [key Hkey].
  cbn [someC]. unfold matches at 1. rewrite Hkey.
  destruct (String.eqb key (toLowerCase location)); [by exists true|by exists b].
Qed.

(** ...and neither does [filter]. *)
Lemma filterC_wellShaped (location : string) (l : list JValue) :
  wellShaped l ->
  filterC (differsFrom location) l
  = Normal (filter (fun e => entryKey e <> Some (toLowerCase location)) l).
Proof.
  induction 1 as [|x l Hx _ IH]; [reflexivity|].
  destruct (entryKey_Some x Hx) as [key Hkey].
  cbn [filterC]. unfold differsFrom at 1. rewrite Hkey, IH.
  rewrite filter_cons.
  assert (Hk : entryKey x = Some key) by (unfold entryKey; by rewrite Hkey).
  rewrite Hk.
  destruct (String.eqb_spec key (toLowerCase location)) as [->|Hne]; simpl.
  - by rewrite decide_False by (by intros []).
  - by rewrite decide_True by congruence.
Qed.

Lemma someC_app_match (location : string) (l : list JValue) (x : JValue) :
  wellShaped l ->
  matches location x = Normal true ->
  someC (matches location) (l ++ [x]) = Normal true.
Proof.
  intros Hl Hx. induction Hl as [|y l Hy _ IH]; cbn [someC app].
  - by rewrite Hx.
  - destruct (entryKey_Some y Hy) as [key Hkey].
    unfold matches at 1. rewrite Hkey.
    by destruct (String.eqb key (toLowerCase location)).
Qed.

End CaseInsensitive.

(** ** Favorites *)

Section Favorites.
Context `{JSON} `{Engine}.

Lemma isFavorited_run location (w : World) :
  isFavorited location w
  = (someC (matches location) (favorites (persistedState w)), w).
Proof. reflexivity. Qed.

(** [addToFavorites] when a match exists: the warning and nothing else. *)
Lemma addToFavorites_existing location lat lon (w : World) :
  someC (matches location) (favorites (persistedState w)) = Normal true ->
  addToFavorites location lat lon w
  = log_warn "Location already in favorites" None w.
Proof.
  intros Hsome. unfold addToFavorites.
  rewrite (bind_normal (gets _) _ w w _ eq_refl).
  by rewrite (bind_normal (liftC _) _ w w true) by (unfold liftC; by rewrite Hsome).
Qed.

(** [addToFavorites] when no match exists: append, save, log. *)
Lemma addToFavorites_new location lat lon (w : World) :
  someC (matches location) (favorites (persistedState w)) = Normal false ->
  exists w',
    addToFavorites location lat lon w = (Normal tt, w')
    /\ persistedState w'
       = {| favorites := favorites (persistedState w)
                           ++ [mkFavorite location lat lon (clock w)];
            searchHistory := searchHistory (persistedState w);
            lastLocation := lastLocation (persistedState w) |}.
Proof.
  intros Hsome. unfold addToFavorites, log_info.
  rewrite (bind_normal (gets _) _ w w _ eq_refl).
  rewrite (bind_normal (liftC _) _ w w false)
    by (unfold liftC; by rewrite Hsome).
  rewrite (bind_normal (gets clock) _ w w _ eq_refl).
  set (w1 := set_favorites
               (favorites (persistedState w)
                  ++ [mkFavorite location lat lon (clock w)]) w).
  rewrite (bind_normal
             (modify (fun w0 =>
                        set_favorites
                          (favorites (persistedState w0)
                             ++ [mkFavorite location lat lon (clock w)]) w0))
             _ w w1 tt eq_refl).
  rewrite (bind_normal (gets persistedState) _ w1 w1 _ eq_refl).
  destruct (savePersistedState_never_raises (persistedState w1) w1)
    as (w2 & Hsave & Hst & _).
  rewrite (bind_normal _ _ _ _ _ Hsave).
  destruct (logToHost_run HostInfo ("Added " +:+ location +:+ " to favorites")
              None w2) as (w3 & -> & Hsame).
  exists w3. split; [reflexivity|].
  unfold sameButLogs in Hsame. destruct_and!.
  transitivity (persistedState w2); [done|]. by rewrite Hst.
Qed.

Lemma matches_mkFavorite l1 l2 lat lon now :
  toLowerCase l1 = toLowerCase l2 ->
  matches l2 (mkFavorite l1 lat lon now) = Normal true.
Proof.
  intros Heq. unfold matches, mkFavorite, lowerLocation. simpl.
  rewrite Heq. by rewrite String.eqb_refl.
Qed.

(** Adding a favorite, for two spellings with the same lowered form. *)
Lemma addToFavorites_then_isFavorited L1 L2 lat lon (w : World) :
  sameUpToCase L1 L2 ->
  wellShaped (favorites (persistedState w)) ->
  fst (addToFavorites L1 lat lon w) = Normal tt
  /\ fst (isFavorited L2 (snd (addToFavorites L1 lat lon w))) = Normal true
  /\ (fst (isFavorited L1 w) = Normal true ->
      exists w',
        addToFavorites L1 lat lon w = (Normal tt, w')
        /\ persistedState w' = persistedState w
        /\ localStorage w' = localStorage w
        /\ console w'
           = console w
               ++ {| consoleLevel := ConsoleWarn;
                     consoleText :=
                       "[WEATHER-APP] " +:+ "Location already in favorites";
                     consoleError := None |}
               :: (if hostAvailable w then []
                   else [{| consoleLevel := ConsoleError;
                            consoleText := "Failed to send log to host:";
                            consoleError := Some HostRejected |}])
        /\ hostLogs w'
           = (if hostAvailable w
              then hostLogs w ++ [(HostWarning, "Location already in favorites")]
              else hostLogs w)
        /\ logEntries w'
           = pushed {| level := UiWarn; timestamp := clock w;
                       message := "Location already in favorites" |}
                    (logEntries w)).
Proof.
  intros Hcase Hshape.
  pose proof Hcase as Hlower. unfold sameUpToCase in Hlower.
  assert (Hexisting :
            someC (matches L1) (favorites (persistedState w)) = Normal true ->
            exists w',
              addToFavorites L1 lat lon w = (Normal tt, w')
              /\ sameButLogs w w'
              /\ console w'
                 = console w
                     ++ {| consoleLevel := ConsoleWarn;
                           consoleText :=
                             "[WEATHER-APP] " +:+ "Location already in favorites";
                           consoleError := None |}
                     :: (if hostAvailable w then []
                         else [{| consoleLevel := ConsoleError;
                                  consoleText := "Failed to send log to host:";
                                  consoleError := Some HostRejected |}])
              /\ hostLogs w'
                 = (if hostAvailable w
                    then hostLogs w
                           ++ [(HostWarning, "Location already in favorites")]
                    else hostLogs w)
              /\ logEntries w'
                 = pushed {| level := UiWarn; timestamp := clock w;
                             message := "Location already in favorites" |}
                          (logEntries w)).
  { intros Hsome. rewrite (addToFavorites_existing _ _ _ _ Hsome).
    unfold log_warn.
    destruct (logToHost_plain HostWarning "Location already in favorites" w)
      as (w' & Hrun & Hrest).
    exists w'. by split. }
  destruct (someC_wellShaped L1 _ Hshape) as [[] Hsome].
  - destruct (Hexisting Hsome) as (w' & Hrun & Hsame & Hlogs).
    rewrite Hrun. simpl. split; [reflexivity|]. split.
    + unfold sameButLogs in Hsame. destruct_and!.
      replace (persistedState w') with (persistedState w) by done.
      rewrite <- Hsome. apply someC_ext. intros x.
      by apply matches_toLowerCase.
    + intros _. exists w'. unfold sameButLogs in Hsame. destruct_and!.
      by repeat split.
  - destruct (addToFavorites_new L1 lat lon w Hsome) as (w' & Hrun & Hst).
    rewrite Hrun. simpl. split; [reflexivity|]. split.
    + rewrite Hst. simpl. apply someC_app_match; [done|].
      by apply matches_mkFavorite.
    + rewrite Hsome. discriminate.
Qed.

(** C5. For location strings [L1] and [L2] that are equal
    case-insensitively (equal after the engine's [toLowerCase], which is
    how the code compares), on favorites whose entries have a string
    location: [addToFavorites L1] returns normally and [isFavorited L2]
    then returns true; and when a match for [L1] (up to case) already
    exists, [addToFavorites L1] does what the warning log call does and
    nothing else, so the favorites and the storage are unchanged, the
    console gets a [console.warn] line and the activity log a [warn]
    entry, and no exception is raised.  In every engine, strings of
    ASCII characters that differ only in letter case are equal
    case-insensitively. *)
Theorem favorites_case_insensitive L1 L2 lat lon (w : World) :
  sameUpToCase L1 L2 ->
  wellShaped (favorites (persistedState w)) ->
  fst (addToFavorites L1 lat lon w) = Normal tt
  /\ fst (isFavorited L2 (snd (addToFavorites L1 lat lon w))) = Normal true
  /\ (fst (isFavorited L1 w) = Normal true ->
      exists w',
        addToFavorites L1 lat lon w = (Normal tt, w')
        /\ persistedState w' = persistedState w
        /\ localStorage w' = localStorage w
        /\ console w'
           = console w
               ++ {| consoleLevel := ConsoleWarn;
                     consoleText :=
                       "[WEATHER-APP] " +:+ "Location already in favorites";
                     consoleError := None |}
               :: (if hostAvailable w then []
                   else [{| consoleLevel := ConsoleError;
                            consoleText := "Failed to send log to host:";
                            consoleError := Some HostRejected |}])
        /\ hostLogs w'
           = (if hostAvailable w
              then hostLogs w ++ [(HostWarning, "Location already in favorites")]
              else hostLogs w)
        /\ logEntries w'
           = pushed {| level := UiWarn; timestamp := clock w;
                       message := "Location already in favorites" |}
                    (logEntries w))
  /\ (forall a b,
        isAscii a = true -> differOnlyInCase a b -> sameUpToCase a b).
Proof.
  intros Hcase Hshape.
  destruct (addToFavorites_then_isFavorited L1 L2 lat lon w Hcase Hshape)
    as (Hadd & Hfavorited & Hexisting).
  split; [exact Hadd|]. split; [exact Hfavorited|]. split; [exact Hexisting|].
  intros a b Ha Hab. by apply differOnlyInCase_toLowerCase.
Qed.

End Favorites.

Lemma favorites_case_insensitive_witness :
  fst (isFavorited "MÜNCHEN"
         (snd (addToFavorites "München" 48 11
                 (initialWorld 0 emptyStorage true))))
  = Normal true.
Proof.
  exact (proj1 (proj2 (favorites_case_insensitive "München" "MÜNCHEN" 48 11
                         (initialWorld 0 emptyStorage true) eq_refl
                         (Forall_nil_2 _)))).
Defined.

(** ** Search history *)

Section HistoryLists.
Context `{Engine}.

Lemma Forall_sublist_of {A} (P : A -> Prop) (l1 l2 : list A) :
  l1 `sublist_of` l2 -> Forall P l2 -> Forall P l1.
Proof.
  intros Hsub. rewrite !Forall_forall. intros Hall x Hx.
  apply Hall. by eapply elem_of_sublist.
Qed.

Lemma StronglySorted_sublist_of {A} (R : A -> A -> Prop) (l1 l2 : list A) :
  l1 `sublist_of` l2 -> StronglySorted R l2 -> StronglySorted R l1.
Proof.
  induction 1 as [|x l1 l2 Hsub IH|x l1 l2 Hsub IH]; intros Hsorted.
  - constructor.
  - apply StronglySorted_inv in Hsorted as [Hrest Hx].
    constructor; [by apply IH|by eapply Forall_sublist_of].
  - apply StronglySorted_inv in Hsorted as [Hrest _]. by apply IH.
Qed.

Lemma others_sublist entry (h : list JValue) : others entry h `sublist_of` h.
Proof. apply sublist_filter. Qed.

Lemma others_distinct entry (h : list JValue) :
  Forall (distinctLocations entry) (others entry h).
Proof.
  apply Forall_forall. intros x Hx.
  apply list_elem_of_filter in Hx as [Hne _].
  unfold distinctLocations. congruence.
Qed.

Lemma others_all entry (h : list JValue) :
  Forall (distinctLocations entry) h -> others entry h = h.
Proof.
  induction 1 as [|x h Hx _ IH]; [reflexivity|].
  unfold others in *. rewrite filter_cons, IH.
  rewrite decide_True; [reflexivity|].
  unfold distinctLocations in Hx. congruence.
Qed.

Lemma dedupe_distinct (h : list JValue) :
  StronglySorted distinctLocations (dedupe h).
Proof.
  induction h as [|entry h IH]; simpl; constructor.
  - eapply StronglySorted_sublist_of; [apply others_sublist|exact IH].
  - apply others_distinct.
Qed.

Lemma dedupe_id (h : list JValue) :
  StronglySorted distinctLocations h -> dedupe h = h.
Proof.
  induction 1 as [|entry h _ IH Hentry]; [reflexivity|].
  simpl. by rewrite IH, others_all.
Qed.

Lemma latest10_id (h : list JValue) :
  StronglySorted distinctLocations h -> (length h <= 10)%nat ->
  latest10 h = h.
Proof.
  intros Hd Hlen. unfold latest10. rewrite dedupe_id by done.
  by apply take_ge.
Qed.

(** Dropping the entries of one location from a list without repeated
    locations removes at most one entry, so the first [n] survivors are
    among the first [n + 1] entries. *)
Lemma take_others_take entry (h : list JValue) (n : nat) :
  StronglySorted distinctLocations h ->
  take n (others entry (take (S n) h)) = take n (others entry h).
Proof.
  intros Hsorted. revert n.
  induction Hsorted as [|x h Hrest IH Hx]; intros n; [reflexivity|].
  rewrite firstn_cons. unfold others in *. rewrite !filter_cons.
  destruct (decide (entryKey x <> entryKey entry)) as [Hkeep|Hdrop].
  - destruct n as [|n]; [reflexivity|].
    rewrite !firstn_cons. by rewrite IH.
  - assert (Hsame : entryKey x = entryKey entry)
      by (by destruct (decide (entryKey x = entryKey entry))).
    assert (Hall : Forall (distinctLocations entry) h).
    { eapply Forall_impl; [exact Hx|].
      unfold distinctLocations. intros y Hy. congruence. }
    fold (others entry h). fold (others entry (take n h)).
    rewrite (others_all entry h Hall).
    rewrite others_all
      by (eapply Forall_sublist_of; [apply sublist_take|exact Hall]).
    apply take_idemp.
Qed.

(** Recording on top of the ten latest is the ten latest of the longer
    list. *)
Lemma latest10_cons entry (h : list JValue) :
  latest10 (entry :: h) = recorded entry (latest10 h).
Proof.
  unfold latest10, recorded. simpl dedupe.
  change 10%nat with (S 9) at 1 3. rewrite !firstn_cons. f_equal.
  symmetry. apply take_others_take, dedupe_distinct.
Qed.

Lemma latest10_app_latest10 (new old : list JValue) :
  latest10 (new ++ latest10 old) = latest10 (new ++ old).
Proof.
  induction new as [|entry new IH]; simpl.
  - apply latest10_id.
    + unfold latest10. eapply StronglySorted_sublist_of;
        [apply sublist_take|apply dedupe_distinct].
    + unfold latest10. rewrite length_take. lia.
  - by rewrite !latest10_cons, IH.
Qed.

End HistoryLists.

Section SearchHistory.
Context `{JSON} `{Engine}.

Lemma entryKey_mkHistoryEntry location now :
  entryKey (mkHistoryEntry location now) = Some (toLowerCase location).
Proof. reflexivity. Qed.

Lemma entryTimestamp_mkHistoryEntry location now :
  entryTimestamp (mkHistoryEntry location now) = Some now.
Proof. reflexivity. Qed.

(** [addToSearchHistory] on a well-shaped history returns normally and
    changes the history as [recorded] says. *)
Lemma addToSearchHistory_run location (w : World) :
  wellShaped (searchHistory (persistedState w)) ->
  exists w',
    addToSearchHistory location w = (Normal tt, w')
    /\ searchHistory (persistedState w')
       = recorded (mkHistoryEntry location (clock w))
                  (searchHistory (persistedState w))
    /\ favorites (persistedState w') = favorites (persistedState w)
    /\ clock w' = clock w.
Proof.
  intros Hshape. unfold addToSearchHistory.
  rewrite (bind_normal (gets _) _ w w _ eq_refl).
  rewrite (bind_normal (liftC _) _ w w _
             (f_equal (fun c => (c, w)) (filterC_wellShaped location _ Hshape))).
  set (kept := filter _ _).
  rewrite (bind_normal (modify (set_searchHistory kept)) _ w _ tt eq_refl).
  set (w1 := set_searchHistory kept w).
  rewrite (bind_normal (gets clock) _ w1 w1 _ eq_refl).
  set (w2 := set_searchHistory
               (mkHistoryEntry location (clock w1)
                  :: searchHistory (persistedState w1)) w1).
  rewrite (bind_normal
             (modify (fun w0 =>
                        set_searchHistory
                          (mkHistoryEntry location (clock w1)
                             :: searchHistory (persistedState w0)) w0))
             _ w1 w2 tt eq_refl).
  set (w3 := set_searchHistory (take 10 (searchHistory (persistedState w2))) w2).
  rewrite (bind_normal
             (modify (fun w0 =>
                        set_searchHistory
                          (take 10 (searchHistory (persistedState w0))) w0))
             _ w2 w3 tt eq_refl).
  rewrite (bind_normal (gets persistedState) _ w3 w3 _ eq_refl).
  destruct (savePersistedState_never_raises (persistedState w3) w3)
    as (w4 & -> & Hst & _ & Hclock & _).
  exists w4. split; [reflexivity|]. rewrite Hst, Hclock. by repeat split.
Qed.

Lemma recorded_valid location (now now' : Z) (h : list JValue) :
  now <= now' -> validHistory now h ->
  validHistory now' (recorded (mkHistoryEntry location now') h).
Proof.
  intros Hnow [Hshape Hnodup Horder Hlen Hpast].
  set (entry := mkHistoryEntry location now').
  assert (Hothers : others entry h `sublist_of` h) by apply others_sublist.
  assert (Hpast' : Forall (recordedBy now') (entry :: others entry h)).
  { constructor; [exists now'; by split|].
    eapply Forall_sublist_of; [exact Hothers|].
    eapply Forall_impl; [exact Hpast|].
    intros x (t & Ht & Hle). exists t. split; [done|lia]. }
  unfold recorded. split.
  - eapply Forall_sublist_of; [apply sublist_take|].
    constructor; [by eexists|]. by eapply Forall_sublist_of.
  - eapply StronglySorted_sublist_of; [apply sublist_take|].
    constructor; [by eapply StronglySorted_sublist_of|].
    apply others_distinct.
  - eapply StronglySorted_sublist_of; [apply sublist_take|].
    constructor; [by eapply StronglySorted_sublist_of|].
    eapply Forall_impl; [exact (Forall_inv_tail Hpast')|].
    intros x (t & Ht & Hle). by exists now', t.
  - rewrite length_take. lia.
  - eapply Forall_sublist_of; [apply sublist_take|exact Hpast'].
Qed.

(** C2. From any valid search history, every sequence of [recordSearch]
    calls (time does not run backwards between them) returns normally and
    leaves a valid history: no two entries whose locations are equal
    case-insensitively (equal after the engine's [toLowerCase], which is
    how the code compares), most recent first, at most 10 entries.  The
    history is then the ten latest distinct locations of the calls,
    latest call first, followed by what is left of the old entries: the
    oldest are dropped.  In every engine, strings of ASCII characters
    that differ only in letter case are equal case-insensitively. *)
Theorem recordSearch_keeps_history_valid (calls : list (N * string)) (w : World) :
  validHistory (clock w) (searchHistory (persistedState w)) ->
  exists w',
    recordSearches calls w = (Normal tt, w')
    /\ validHistory (clock w') (searchHistory (persistedState w'))
    /\ noTwoSameUpToCase (searchHistory (persistedState w'))
    /\ (forall a b,
          isAscii a = true -> differOnlyInCase a b -> sameUpToCase a b)
    /\ searchHistory (persistedState w')
       = latest10 (rev (recordedEntries (clock w) calls)
                     ++ searchHistory (persistedState w)).
Proof.
  assert (Hascii : forall a b,
             isAscii a = true -> differOnlyInCase a b -> sameUpToCase a b)
    by (intros a b Ha Hab; by apply differOnlyInCase_toLowerCase).
  revert w. induction calls as [|[ms location] calls IH]; intros w Hvalid.
  - exists w. split; [reflexivity|]. split; [exact Hvalid|].
    split; [apply distinct_noTwoSameUpToCase; by destruct Hvalid|].
    split; [exact Hascii|].
    simpl. symmetry. apply latest10_id; by destruct Hvalid.
  - cbn [recordSearches recordedEntries]. unfold recordSearch. simpl fst. simpl snd.
    set (w0 := set_clock (clock w + Z.of_N ms) w).
    destruct (addToSearchHistory_run location w0) as (w1 & Hrun & Hh & _ & Hc);
      [by destruct Hvalid|].
    assert (Hstep : (modify (fun w => set_clock (clock w + Z.of_N ms) w) ;;
                     addToSearchHistory location) w = (Normal tt, w1)).
    { by rewrite (bind_normal
                    (modify (fun w => set_clock (clock w + Z.of_N ms) w))
                    _ w w0 tt eq_refl). }
    rewrite (bind_normal _ _ _ _ _ Hstep).
    assert (Hvalid1 : validHistory (clock w1) (searchHistory (persistedState w1))).
    { rewrite Hh, Hc. apply (recorded_valid location (clock w)); [|exact Hvalid].
      simpl. lia. }
    destruct (IH w1 Hvalid1) as (w' & Hrun' & Hvalid' & Hnone & _ & Hclosed).
    exists w'. split; [exact Hrun'|]. split; [exact Hvalid'|].
    split; [exact Hnone|]. split; [exact Hascii|].
    rewrite Hclosed, Hh, Hc. simpl clock. simpl searchHistory.
    rewrite <- (latest10_id (searchHistory (persistedState w)))
      by (by destruct Hvalid).
    rewrite <- latest10_cons, latest10_app_latest10.
    rewrite (latest10_id (searchHistory (persistedState w)))
      by (by destruct Hvalid).
    simpl rev. by rewrite <- app_assoc.
Qed.

End SearchHistory.

Lemma recordSearch_keeps_history_valid_witness :
  validHistory 0 []
  /\ exists w',
      recordSearches [(5%N, "münchen"); (5%N, "Paris"); (0%N, "MÜNCHEN")]
                     (initialWorld 0 emptyStorage true) = (Normal tt, w')
      /\ validHistory (clock w') (searchHistory (persistedState w'))
      /\ searchHistory (persistedState w')
         = [mkHistoryEntry "MÜNCHEN" 10; mkHistoryEntry "Paris" 10].
Proof.
  assert (Hvalid : validHistory 0 []).
  { split; try constructor. simpl. lia. }
  split; [exact Hvalid|].
  destruct (recordSearch_keeps_history_valid
              [(5%N, "münchen"); (5%N, "Paris"); (0%N, "MÜNCHEN")]
              (initialWorld 0 emptyStorage true) Hvalid)
    as (w' & Hrun & Hvalid' & _ & _ & Hclosed).
  exists w'. split; [exact Hrun|]. split; [exact Hvalid'|].
  rewrite Hclosed. vm_compute. reflexivity.
Defined.

(** ** Timers and the insight stream *)

Section Stream.
Context `{JSON} `{Engine}.

Lemma set_timers_same (w : World) :
  set_timers (timers w) (nextTimerId w) w = w.
Proof. by destruct w. Qed.

Lemma getElementById_last (doc : list StreamModal) streamId totalPhases index :
  exists modal,
    getElementById (doc ++ [newModal streamId totalPhases]) index = Some modal.
Proof.
  revert index. induction doc as [|m doc IH]; intros index; simpl.
  - by exists index.
  - destruct (attached m); [by exists index|apply IH].
Qed.

(** The loop of [displayProgressiveInsights]: one timer per update, all
    armed at the same clock reading. *)
Lemma forEachIndexed_setTimeout modal totalPhases
    (updates : list StreamUpdate) (index : nat) (w : World) :
  forEachIndexed
    (fun update index =>
       setTimeout (PhaseHandler modal update index totalPhases) (delay update) ;;
       mret tt)
    updates index w
  = (Normal tt,
     set_timers
       (timers w
          ++ imap (fun i u =>
                     {| timerId := nextTimerId w + i;
                        due := clock w + timeout (delay u);
                        callback :=
                          PhaseHandler modal u (index + i) totalPhases |})
                  updates)
       (nextTimerId w + length updates) w).
Proof.
  revert index w. induction updates as [|u updates IH]; intros index w.
  - simpl. rewrite app_nil_r, Nat.add_0_r. by rewrite set_timers_same.
  - cbn [forEachIndexed].
    unfold mbind at 1, M_bind at 1. unfold mbind at 1, M_bind at 1.
    unfold setTimeout at 1. cbn [mret M_ret].
    rewrite IH. f_equal. simpl clock. simpl timers. simpl nextTimerId.
    rewrite imap_cons, !Nat.add_0_r, <- app_assoc.
    rewrite (imap_ext _
               ((fun i u0 =>
                   {| timerId := nextTimerId w + i;
                      due := clock w + timeout (delay u0);
                      callback := PhaseHandler modal u0 (index + i) totalPhases |})
                  ∘ S) updates)
      by (intros i x _; simpl; by rewrite !Nat.add_succ_r).
    replace (S (nextTimerId w) + length updates)%nat
      with (nextTimerId w + length (u :: updates))%nat by (simpl; lia).
    reflexivity.
Qed.

Lemma displayProgressiveInsights_run streamId (updates : list StreamUpdate)
    totalPhases (w : World) :
  exists w' modal,
    displayProgressiveInsights streamId updates totalPhases w = (Normal tt, w')
    /\ clock w' = clock w
    /\ document w' = document w ++ [newModal streamId totalPhases]
    /\ getElementById (document w') 0 = Some modal
    /\ timers w'
       = timers w
           ++ imap (phaseTimer (clock w) (nextTimerId w) modal totalPhases)
                   updates
    /\ nextTimerId w' = (nextTimerId w + length updates)%nat.
Proof.
  unfold displayProgressiveInsights, log_info.
  set (w1 := set_document (document w ++ [newModal streamId totalPhases]) w).
  rewrite (bind_normal
             (modify (fun w0 =>
                        set_document
                          (document w0 ++ [newModal streamId totalPhases]) w0))
             _ w w1 tt eq_refl).
  destruct (logToHost_run HostInfo
              "Stream modal displayed, starting progressive updates" None w1)
    as (w2 & Hlog & Hsame).
  rewrite (bind_normal _ _ _ _ _ Hlog).
  rewrite (bind_normal (gets _) _ w2 w2 _ eq_refl).
  unfold sameButLogs in Hsame. destruct_and!.
  replace (document w2) with (document w ++ [newModal streamId totalPhases])
    by done.
  destruct (getElementById_last (document w) streamId totalPhases 0)
    as [modal Hmodal].
  rewrite Hmodal, forEachIndexed_setTimeout.
  eexists _, modal. split; [reflexivity|]. simpl.
  replace (clock w2) with (clock w) by done.
  replace (timers w2) with (timers w) by done.
  replace (nextTimerId w2) with (nextTimerId w) by done.
  replace (document w2) with (document w ++ [newModal streamId totalPhases])
    by done.
  by repeat split.
Qed.

End Stream.

(** ** The event loop *)

Section EventLoop.
Context `{JSON} `{Engine}.

Lemma sameTimers_refl (w : World) : sameTimers w w.
Proof. by split. Qed.

Lemma sameTimers_trans (w1 w2 w3 : World) :
  sameTimers w1 w2 -> sameTimers w2 w3 -> sameTimers w1 w3.
Proof. unfold sameTimers. intros [? ?] [? ?]. split; congruence. Qed.

Lemma sameAttachment_refl (w : World) : sameAttachment w w.
Proof. reflexivity. Qed.

Lemma sameAttachment_trans (w1 w2 w3 : World) :
  sameAttachment w1 w2 -> sameAttachment w2 w3 -> sameAttachment w1 w3.
Proof. unfold sameAttachment. congruence. Qed.

Lemma logToHost_sameTimers l msg data : keeps sameTimers (logToHost l msg data).
Proof.
  intros w. destruct (logToHost_run l msg data w) as (w' & -> & Hsame).
  unfold sameButLogs in Hsame. by destruct_and!.
Qed.

Lemma logToHost_sameAttachment l msg data :
  keeps sameAttachment (logToHost l msg data).
Proof.
  intros w. destruct (logToHost_run l msg data w) as (w' & -> & Hsame).
  unfold sameButLogs in Hsame. destruct_and!. simpl.
  unfold sameAttachment. congruence.
Qed.

Lemma alter_attached (f : StreamModal -> StreamModal) modal
    (doc : list StreamModal) :
  (forall m, attached (f m) = attached m) ->
  attached <$> alter f modal doc = attached <$> doc.
Proof.
  intros Hf. rewrite (list_fmap_alter attached f id).
  - by apply list_alter_id.
  - apply Forall_forall. intros m _. apply Hf.
Qed.

Lemma phaseHandler_sameTimers modal update index totalPhases :
  keeps sameTimers (phaseHandler modal update index totalPhases).
Proof.
  unfold phaseHandler, log_info.
  frame_with sameTimers_refl sameTimers_trans
    ltac:(idtac; match goal with
          | |- keeps _ (logToHost _ _ _) => apply logToHost_sameTimers
          | |- sameTimers _ _ => by split
          end).
Qed.

Lemma phaseHandler_sameAttachment modal update index totalPhases :
  keeps sameAttachment (phaseHandler modal update index totalPhases).
Proof.
  unfold phaseHandler, log_info.
  frame_with sameAttachment_refl sameAttachment_trans
    ltac:(idtac; match goal with
          | |- keeps _ (logToHost _ _ _) => apply logToHost_sameAttachment
          | |- sameAttachment _ _ =>
              unfold sameAttachment; simpl; by apply alter_attached
          end).
Qed.

Lemma runCallback_sameTimers cb : keeps sameTimers (runCallback cb).
Proof.
  destruct cb; simpl; [apply phaseHandler_sameTimers|].
  intros w. apply sameTimers_refl.
Qed.

Lemma runCallback_sameAttachment cb : keeps sameAttachment (runCallback cb).
Proof.
  destruct cb; simpl; [apply phaseHandler_sameAttachment|].
  intros w. apply sameAttachment_refl.
Qed.

(** A timer is one-shot: firing it takes it off the pending list, and the
    callback arms nothing. *)
Lemma fire_timers (t : Timer) (w : World) :
  timers (fire t w) = removeTimer (timerId t) (timers w).
Proof.
  unfold fire.
  match goal with
  | |- timers (snd (tryCatch ?body ?handler ?w2)) = _ =>
      assert (Hk : keeps sameTimers (tryCatch body handler));
      [|destruct (Hk w2) as [-> _]; reflexivity]
  end.
  apply (keeps_tryCatch _ sameTimers_trans);
    [apply runCallback_sameTimers|]. by intros e w0.
Qed.

Lemma fire_sameAttachment (t : Timer) (w : World) : sameAttachment w (fire t w).
Proof.
  unfold fire.
  match goal with
  | |- sameAttachment _ (snd (tryCatch ?body ?handler ?w2)) =>
      assert (Hk : keeps sameAttachment (tryCatch body handler));
      [|exact (Hk w2)]
  end.
  apply (keeps_tryCatch _ sameAttachment_trans);
    [apply runCallback_sameAttachment|]. by intros e w0.
Qed.

Lemma runTimers_sameAttachment fuel limit (w : World) :
  sameAttachment w (runTimers fuel limit w).
Proof.
  revert w. induction fuel as [|fuel IH]; intros w; simpl;
    [apply sameAttachment_refl|].
  destruct (earliest (timers w)) as [t|]; [|apply sameAttachment_refl].
  destruct (due t <=? limit); [|apply sameAttachment_refl].
  eapply sameAttachment_trans; [apply fire_sameAttachment|apply IH].
Qed.

(** No timer puts a modal back into the document. *)
Lemma runUntil_sameAttachment limit (w : World) :
  sameAttachment w (runUntil limit w).
Proof. unfold runUntil. apply runTimers_sameAttachment. Qed.

Lemma earliest_None (ts : list Timer) : earliest ts = None -> ts = [].
Proof.
  destruct ts as [|t ts]; [done|]. simpl.
  destruct (earliest ts) as [t'|]; [|done].
  by destruct (due t <=? due t').
Qed.

Lemma earliest_Some (ts : list Timer) (t : Timer) :
  earliest ts = Some t ->
  t ∈ ts /\ Forall (fun t' => due t <= due t') ts.
Proof.
  revert t. induction ts as [|t0 ts IH]; intros t; [done|]. simpl.
  destruct (earliest ts) as [t'|] eqn:Hrest.
  - destruct (IH t' eq_refl) as [Hin Hle].
    destruct (Z.leb_spec (due t0) (due t')); intros [= <-].
    + split; [left|]. constructor; [lia|].
      eapply Forall_impl; [exact Hle|]. intros t1 Ht1. simpl in *. lia.
    + split; [by right|]. constructor; [lia|done].
  - apply earliest_None in Hrest as ->. intros [= <-].
    split; [left|]. constructor; [lia|constructor].
Qed.

Lemma runTimers_drains fuel limit (w : World) :
  (length (timers w) <= fuel)%nat ->
  Forall (fun t => limit < due t) (timers (runTimers fuel limit w)).
Proof.
  revert w. induction fuel as [|fuel IH]; intros w Hfuel; simpl.
  - destruct (timers w); [constructor|simpl in Hfuel; lia].
  - destruct (earliest (timers w)) as [t|] eqn:Hearliest.
    + destruct (earliest_Some _ _ Hearliest) as [Hin Hle].
      destruct (Z.leb_spec (due t) limit).
      * apply IH. rewrite fire_timers. unfold removeTimer.
        assert (Hlt : (length (filter (fun t' => timerId t' <> timerId t)
                                      (timers w)) < length (timers w))%nat).
        { apply (length_filter_lt _ _ t Hin). tauto. }
        lia.
      * eapply Forall_impl; [exact Hle|]. intros t1 Ht1. simpl in *. lia.
    + apply earliest_None in Hearliest as ->. constructor.
Qed.

(** Letting time pass until [limit] leaves no timer that was due. *)
Lemma runUntil_drains limit (w : World) :
  Forall (fun t => limit < due t) (timers (runUntil limit w)).
Proof. unfold runUntil. simpl. by apply runTimers_drains. Qed.

Lemma not_attached_invisible (w : World) :
  Forall (fun b => b = false) (attached <$> document w) ->
  visiblePhases w = [].
Proof.
  unfold visiblePhases. induction (document w) as [|m doc IH]; [done|].
  rewrite fmap_cons, Forall_cons. intros [Hm Hdoc].
  rewrite filter_cons, decide_False by congruence. by apply IH.
Qed.

(** *** Dismissal and the event loop commute *)

Lemma alter_commute {A} (f g : A -> A) (i j : nat) (l : list A) :
  (forall x, f (g x) = g (f x)) ->
  alter f i (alter g j l) = alter g j (alter f i l).
Proof.
  intros Hfg. revert i j. induction l as [|x l IH]; intros i j; [done|].
  destruct i as [|i], j as [|j]; simpl; try done.
  - by rewrite Hfg.
  - f_equal. apply IH.
Qed.

(** A log call does not look at the document. *)
Lemma logToHost_set_document l msg data doc (w : World) :
  logToHost l msg data (set_document doc w)
  = (fst (logToHost l msg data w),
     set_document doc (snd (logToHost l msg data w))).
Proof.
  unfold logToHost, sendLog, consoleCall. run_step.
  destruct (hostAvailable w); simpl; rewrite !addLogEntry_run; reflexivity.
Qed.

(** The phase handler does to a page whose modal [closed] was removed
    what it does to the page, the removal apart. *)
Lemma phaseHandler_detached modal update index totalPhases closed (w : World) :
  phaseHandler modal update index totalPhases
    (set_document (alter detach closed (document w)) w)
  = (fst (phaseHandler modal update index totalPhases w),
     set_document
       (alter detach closed
              (document (snd (phaseHandler modal update index totalPhases w))))
       (snd (phaseHandler modal update index totalPhases w))).
Proof.
  unfold phaseHandler, log_info.
  destruct (renderPhaseContent update) as [[]|e].
  2: { rewrite !(bind_throw (liftC (Throw e)) _ _ _ e eq_refl). reflexivity. }
  rewrite !(bind_normal (liftC (Normal tt)) _ _ _ tt eq_refl).
  rewrite !(bind_normal (modify _) _ _ _ tt eq_refl).
  simpl document.
  rewrite (alter_commute (appendPhase update index totalPhases) detach)
    by reflexivity.
  set (doc1 := alter (appendPhase update index totalPhases) modal (document w)).
  replace (set_document (alter detach closed doc1)
             (set_document (alter detach closed (document w)) w))
    with (set_document (alter detach closed doc1) (set_document doc1 w))
    by reflexivity.
  destruct (logToHost_run HostInfo
              ("Stream phase " +:+ pretty (phase update) +:+ " received")
              (Some (JString (title update))) (set_document doc1 w))
    as (w2 & Hlog & Hsame).
  pose proof (logToHost_set_document HostInfo
                ("Stream phase " +:+ pretty (phase update) +:+ " received")
                (Some (JString (title update)))
                (alter detach closed doc1) (set_document doc1 w)) as Hlog'.
  rewrite Hlog in Hlog'. simpl in Hlog'.
  rewrite (bind_normal _ _ _ _ _ Hlog), (bind_normal _ _ _ _ _ Hlog').
  assert (Hdoc : document w2 = doc1)
    by (unfold sameButLogs in Hsame; destruct_and!; done).
  destruct (Z.of_nat index =? totalPhases - 1)%Z;
    unfold modify, mret, M_ret; simpl; rewrite Hdoc; [|reflexivity].
  by rewrite (alter_commute markComplete detach) by reflexivity.
Qed.

Lemma fire_detached (t : Timer) closed (w : World) :
  fire t (set_document (alter detach closed (document w)) w)
  = set_document (alter detach closed (document (fire t w))) (fire t w).
Proof.
  unfold fire, tryCatch.
  destruct t as [id d [modal update index totalPhases|]]; simpl; [|reflexivity].
  set (w0 := set_clock (Z.max (clock w) d)
               (set_timers (removeTimer id (timers w)) (nextTimerId w) w)).
  pose proof (phaseHandler_detached modal update index totalPhases closed w0)
    as Hhandler.
  change (set_clock (Z.max (clock w) d)
            (set_timers (removeTimer id (timers w)) (nextTimerId w)
               (set_document (alter detach closed (document w)) w)))
    with (set_document (alter detach closed (document w0)) w0).
  rewrite Hhandler.
  destruct (phaseHandler modal update index totalPhases w0) as [[[]|e] w'];
    reflexivity.
Qed.

Lemma runTimers_detached fuel limit closed (w : World) :
  runTimers fuel limit (set_document (alter detach closed (document w)) w)
  = set_document (alter detach closed (document (runTimers fuel limit w)))
                 (runTimers fuel limit w).
Proof.
  revert w. induction fuel as [|fuel IH]; intros w; [reflexivity|].
  simpl. destruct (earliest (timers w)) as [t|]; [|reflexivity].
  destruct (due t <=? limit); [|reflexivity].
  by rewrite fire_detached, IH.
Qed.

(** Removing a modal and letting time pass commute: on the page whose
    modal was removed the timers fire and their handlers do what they
    do on the page where it was not. *)
Lemma runUntil_detached limit closed (w : World) :
  runUntil limit (snd (closeModal closed w))
  = snd (closeModal closed (runUntil limit w)).
Proof.
  unfold runUntil, closeModal, modify. simpl.
  by rewrite runTimers_detached.
Qed.

End EventLoop.

(** C6. For every received list of updates, [displayProgressiveInsights]
    returns normally having armed, without any time passing, exactly one
    timer per update after the timers already pending: the timer of the
    update at index [i] runs the phase handler of that update and is due
    at the clock reading of the call plus the time [setTimeout] waits
    for that update's own delay, whatever the delays of the updates
    before it.  That time is the delay itself for every delay from 0 to
    2147483647 ms; the platform takes the delay as a 32-bit integer, so
    a larger delay wraps, and a negative one counts as 0.  A timer is
    one-shot: once the event loop has fired it, no timer with its id is
    pending, and once the clock has reached a time, no timer due by then
    is pending: each has fired and is gone. *)
Theorem one_timer_per_phase `{JSON} `{Engine} streamId
    (updates : list StreamUpdate) totalPhases (w : World) :
  exists w' modal,
    displayProgressiveInsights streamId updates totalPhases w = (Normal tt, w')
    /\ clock w' = clock w
    /\ timers w'
       = timers w
           ++ imap (phaseTimer (clock w) (nextTimerId w) modal totalPhases)
                   updates
    /\ (forall i u,
          updates !! i = Some u ->
          exists t,
            timers w' !! (length (timers w) + i)%nat = Some t
            /\ due t = clock w + timeout (delay u)
            /\ (0 <= delay u <= 2147483647 -> due t = clock w + delay u)
            /\ callback t = PhaseHandler modal u i totalPhases)
    /\ (forall t w0, timerId t ∉ (timerId <$> timers (fire t w0)))
    /\ (forall limit,
          Forall (fun t => limit < due t) (timers (runUntil limit w'))).
Proof.
  destruct (displayProgressiveInsights_run streamId updates totalPhases w)
    as (w' & modal & Hrun & Hclock & _ & _ & Htimers & _).
  exists w', modal. split; [exact Hrun|]. split; [exact Hclock|].
  split; [exact Htimers|]. split; [|split].
  - intros i u Hu.
    exists (phaseTimer (clock w) (nextTimerId w) modal totalPhases i u).
    split; [|split; [reflexivity|split; [|reflexivity]]].
    + rewrite Htimers, lookup_app_r by lia.
      replace (length (timers w) + i - length (timers w))%nat with i by lia.
      by rewrite list_lookup_imap, Hu.
    + intros Hdelay. simpl. unfold timeout, toInt32.
      rewrite Z.mod_small by lia. lia.
  - intros t w0. rewrite fire_timers. unfold removeTimer.
    intros Hin. apply list_elem_of_fmap in Hin as (t' & Hid & Hin).
    apply list_elem_of_filter in Hin as [Hne _]. by apply Hne.
  - intros limit. apply runUntil_drains.
Qed.

Lemma one_timer_per_phase_witness :
  exists t, timers streamStarted !! 2%nat = Some t /\ due t = 3000.
Proof.
  destruct (one_timer_per_phase "stream-1" demoUpdates 5
              (initialWorld 0 emptyStorage true))
    as (w' & modal & Hrun & _ & _ & Hphase & _).
  destruct (Hphase 2%nat
              {| phase := 3; delay := 3000; title := "Historical Comparison";
                 data := JObject [] |} eq_refl)
    as (t & Hlookup & _ & Hdue & _).
  exists t. unfold streamStarted. rewrite Hrun. split; [exact Hlookup|].
  apply Hdue. simpl. lia.
Defined.

(** C3 (as stated) fails: closing the modal at 2500 ms leaves the timers
    of phases 3, 4 and 5 pending, and their handlers run at 3000, 4000
    and 5000 ms: they append to the removed modal and write their log
    lines. *)
Lemma dismissal_does_not_cancel :
  map due (timers streamDismissed) = [3000; 4000; 5000]
  /\ map (fun m => map phase (streamPhases m)) (document streamDismissed)
     = [[1; 2]]
  /\ map (fun m => map phase (streamPhases m)) (document streamAfterwards)
     = [[1; 2; 3; 4; 5]]
  /\ map (fun e => (timestamp e, message e))
         (drop (length (logEntries streamDismissed))
               (logEntries streamAfterwards))
     = [(3000, "Stream phase 3 received " +:+ quoted "Historical Comparison");
        (4000, "Stream phase 4 received " +:+ quoted "Forecast Predictions");
        (5000, "Stream phase 5 received " +:+ quoted "Recommendations")].
Proof. repeat split; vm_compute; reflexivity. Qed.

(** C3 (as amended). Closing a stream modal only removes that modal
    from the document: no timer is cleared.  Afterwards every pending
    timer fires when it is due, and its handler does exactly what it
    would have done had the modal not been closed (closing and letting
    time pass commute): it appends its phase to the modal its stream
    captured when it was started, updates the progress of that modal and
    adds its entry to the activity log.  No timer puts a modal back, so
    what is appended to a removed modal is in no modal of the document.
    With delays 1000 to 5000 ms on a page with no other stream modal,
    and the modal closed at 2500 ms: phases 1 and 2 are what the modal
    shows when it is closed; the timers of phases 3, 4 and 5 are still
    pending; at no later time does a stream modal of the document show
    anything; and by 6000 ms the three timers have fired, at 3000, 4000
    and 5000 ms, each appending its phase to the removed modal and
    adding its entry to the activity log, and no timer is pending. *)
Theorem dismissal_only_detaches :
  (forall modal (w : World),
      closeModal modal w
      = (Normal tt, set_document (alter detach modal (document w)) w)
      /\ timers (snd (closeModal modal w)) = timers w)
  /\ (forall (J : JSON) (E : Engine) modal limit (w : World),
        runUntil limit (snd (closeModal modal w))
        = snd (closeModal modal (runUntil limit w)))
  /\ (forall (J : JSON) (E : Engine) limit (w : World),
        attached <$> document (runUntil limit w) = attached <$> document w
        /\ Forall (fun t => limit < due t) (timers (runUntil limit w)))
  /\ visiblePhases (runUntil 2500 streamStarted) = [[1; 2]]
  /\ map due (timers streamDismissed) = [3000; 4000; 5000]
  /\ (forall limit, visiblePhases (runUntil limit streamDismissed) = [])
  /\ map (fun m => map phase (streamPhases m)) (document streamAfterwards)
     = [[1; 2; 3; 4; 5]]
  /\ map (fun e => (timestamp e, message e))
         (drop (length (logEntries streamDismissed))
               (logEntries streamAfterwards))
     = [(3000, "Stream phase 3 received " +:+ quoted "Historical Comparison");
        (4000, "Stream phase 4 received " +:+ quoted "Forecast Predictions");
        (5000, "Stream phase 5 received " +:+ quoted "Recommendations")]
  /\ timers streamAfterwards = [].
Proof.
  split; [by intros modal w|].
  split; [intros J E modal limit w; apply runUntil_detached|].
  split; [intros J E limit w; split;
          [apply runUntil_sameAttachment|apply runUntil_drains]|].
  split; [vm_compute; reflexivity|].
  split; [vm_compute; reflexivity|].
  split; [|split; [|split]; vm_compute; reflexivity].
  intros limit. apply not_attached_invisible.
  rewrite runUntil_sameAttachment. vm_compute. repeat constructor.
Qed.

(** ** Comparison set *)

Lemma removeFirst_first_match (location : string) (before after : list string) :
  location ∉ before ->
  removeFirst location (before ++ location :: after) = before ++ after.
Proof.
  induction before as [|x before IH]; intros Hnotin; simpl.
  - by rewrite String.eqb_refl.
  - apply not_elem_of_cons in Hnotin as [Hne Hnotin].
    destruct (String.eqb_spec x location) as [-> | Hx]; [done|].
    by rewrite IH.
Qed.

(** C8. Removing one of the two locations of a comparison set of length 2
    leaves the single-location view of the other entry, never a
    comparison grid; and [removeLocation] removes the first entry that
    matches, by position. *)
Theorem removeLocation_of_two (a b location : string) :
  location = a \/ location = b ->
  removeLocation location [a; b]
  = SingleLocationView (if String.eqb a location then b else a)
  /\ (forall locations, removeLocation location [a; b] <> ComparisonGrid locations)
  /\ (forall before after,
        location ∉ before ->
        removeFirst location (before ++ location :: after) = before ++ after).
Proof.
  intros Hin.
  assert (Hview : removeLocation location [a; b]
                  = SingleLocationView (if String.eqb a location then b else a)).
  { unfold removeLocation. simpl.
    destruct (String.eqb_spec a location) as [Heq | Hne]; [reflexivity|].
    destruct Hin as [-> | ->]; [done|]. by rewrite String.eqb_refl. }
  split; [exact Hview|]. split; [by rewrite Hview|].
  intros before after. apply removeFirst_first_match.
Qed.

Lemma removeLocation_of_two_witness :
  removeLocation "Tokyo" ["Tokyo"; "Paris"] = SingleLocationView "Paris".
Proof.
  exact (proj1 (removeLocation_of_two "Tokyo" "Paris" "Tokyo" (or_introl eq_refl))).
Defined.

(** * Further properties of the weather app *)

(** ** Logging is best effort *)

Section LoggingExtra.
Context `{JSON} `{Engine}.

(** X1. [logToHost] never raises.  Whatever the host does, the console
    gets the line and the activity log gets the entry (stamped with the
    current clock reading); the host gets the message when its channel
    is up, and when [sendLog] is rejected the rejection is reported with
    [console.error] and nothing else is lost.  No other variable
    changes. *)
Theorem logToHost_best_effort l message data (w : World) :
  exists w',
    logToHost l message data w = (Normal tt, w')
    /\ sameButLogs w w'
    /\ logEntries w'
       = pushed {| level := uiLevelOf l; timestamp := clock w;
                   message := logText message data |} (logEntries w)
    /\ hostLogs w'
       = (if hostAvailable w
          then hostLogs w ++ [(l, logText message data)]
          else hostLogs w)
    /\ console w'
       = console w
           ++ {| consoleLevel := consoleLevelOf l;
                 consoleText := "[WEATHER-APP] " +:+ logText message data;
                 consoleError := None |}
           :: (if hostAvailable w then []
               else [{| consoleLevel := ConsoleError;
                        consoleText := "Failed to send log to host:";
                        consoleError := Some HostRejected |}]).
Proof.
  unfold logToHost, sendLog, consoleCall. run_step.
  fold (logText message data).
  destruct (hostAvailable w) eqn:Hhost; simpl; rewrite addLogEntry_run;
    eexists; (split; [reflexivity|]); simpl; rewrite ?Hhost;
    repeat split; try reflexivity.
  by rewrite <- app_assoc.
Qed.

End LoggingExtra.

(** ** Toggling the optional sections *)

Section ToggleExtra.
Context `{JSON} `{Engine}.

(** X2. A click on the forecast toggle returns normally, flips
    [isForecastVisible] and nothing else of the visibility state, and
    reports one new height to the host: the old height plus
    [HEIGHT_FORECAST] when the forecast opens, minus [HEIGHT_FORECAST]
    when it closes. *)
Theorem toggleForecast_reports_height (w : World) :
  exists w',
    toggleForecast w = (Normal tt, w')
    /\ isForecastVisible w' = negb (isForecastVisible w)
    /\ isLogExpanded w' = isLogExpanded w
    /\ sizeChanges w' = sizeChanges w ++ [totalHeight w']
    /\ totalHeight w'
       = totalHeight w
         + (if isForecastVisible w then - HEIGHT_FORECAST else HEIGHT_FORECAST).
Proof.
  unfold toggleForecast, log_info.
  set (w1 := set_isForecastVisible (negb (isForecastVisible w)) w).
  rewrite (bind_normal
             (modify (fun w0 =>
                        set_isForecastVisible (negb (isForecastVisible w0)) w0))
             _ w w1 tt eq_refl).
  destruct (updateViewportHeight_run w1) as (w2 & Hrun & Hsz & Hf & Hl).
  rewrite (bind_normal _ _ _ _ _ Hrun).
  rewrite (bind_normal (gets isForecastVisible) _ w2 w2 _ eq_refl).
  destruct (logToHost_run HostInfo
              (if isForecastVisible w2 then "7-day forecast expanded"
               else "7-day forecast collapsed") None w2)
    as (w3 & -> & Hsame).
  exists w3. split; [reflexivity|].
  unfold sameButLogs in Hsame. destruct_and!.
  assert (Hf3 : isForecastVisible w3 = negb (isForecastVisible w))
    by (by transitivity (isForecastVisible w2); [|rewrite Hf]).
  assert (Hl3 : isLogExpanded w3 = isLogExpanded w)
    by (by transitivity (isLogExpanded w2); [|rewrite Hl]).
  assert (Hh3 : totalHeight w3 = totalHeight w1)
    by (unfold totalHeight; by rewrite Hf3, Hl3).
  repeat split; [done..| |].
  - replace (sizeChanges w3) with (sizeChanges w2) by done.
    by rewrite Hsz, Hh3.
  - unfold totalHeight. rewrite Hf3, Hl3.
    unfold HEIGHT_BASE, HEIGHT_FORECAST.
    destruct (isForecastVisible w), (isLogExpanded w); simpl; lia.
Qed.

(** X3. A click on the header of the activity log returns normally, flips
    [isLogExpanded] and nothing else of the visibility state, and reports
    one new height: the old height plus
    [HEIGHT_LOG_EXPANDED - HEIGHT_LOG_COLLAPSED] when the log opens and
    minus that when it closes.  The click is not written to the activity
    log. *)
Theorem toggleLog_reports_height (w : World) :
  exists w',
    toggleLog w = (Normal tt, w')
    /\ isLogExpanded w' = negb (isLogExpanded w)
    /\ isForecastVisible w' = isForecastVisible w
    /\ sizeChanges w' = sizeChanges w ++ [totalHeight w']
    /\ totalHeight w'
       = totalHeight w
         + (if isLogExpanded w
            then - (HEIGHT_LOG_EXPANDED - HEIGHT_LOG_COLLAPSED)
            else HEIGHT_LOG_EXPANDED - HEIGHT_LOG_COLLAPSED)
    /\ logEntries w' = logEntries w.
Proof.
  unfold toggleLog.
  set (w1 := set_isLogExpanded (negb (isLogExpanded w)) w).
  rewrite (bind_normal
             (modify (fun w0 => set_isLogExpanded (negb (isLogExpanded w0)) w0))
             _ w w1 tt eq_refl).
  assert (Hup : exists w2,
             updateViewportHeight w1 = (Normal tt, w2)
             /\ sizeChanges w2 = sizeChanges w1 ++ [totalHeight w1]
             /\ isForecastVisible w2 = isForecastVisible w1
             /\ isLogExpanded w2 = isLogExpanded w1
             /\ logEntries w2 = logEntries w1).
  { unfold updateViewportHeight, consoleCall. run_step.
    eexists. split; [reflexivity|]. by repeat split. }
  destruct Hup as (w2 & Hrun & Hsz & Hf & Hl & Hlog).
  rewrite (bind_normal _ _ _ _ _ Hrun).
  rewrite (bind_normal (gets isLogExpanded) _ w2 w2 _ eq_refl).
  rewrite consoleCall_run.
  eexists. split; [reflexivity|]. simpl.
  assert (Hh : totalHeight
                 (set_console
                    (console w2
                       ++ [{| consoleLevel := ConsoleLog;
                              consoleText :=
                                if isLogExpanded w2
                                then "[WEATHER-APP] Activity log expanded"
                                else "[WEATHER-APP] Activity log collapsed";
                              consoleError := None |}]) w2)
               = totalHeight w1)
    by (unfold totalHeight; simpl; by rewrite Hf, Hl).
  rewrite Hh, Hf, Hl, Hsz, Hlog. repeat split.
  unfold totalHeight. simpl.
  unfold HEIGHT_BASE, HEIGHT_FORECAST, HEIGHT_LOG_EXPANDED, HEIGHT_LOG_COLLAPSED.
  destruct (isForecastVisible w), (isLogExpanded w); simpl; lia.
Qed.

End ToggleExtra.

(** ** Removing favorites *)

Section FavoritesExtra.
Context `{JSON} `{Engine}.

Lemma filter_keeps_all {A} (P : A -> Prop) `{!forall x, Decision (P x)}
    (l : list A) :
  Forall P l -> filter P l = l.
Proof.
  induction 1 as [|x l Hx _ IH]; [reflexivity|].
  by rewrite filter_cons, decide_True, IH.
Qed.

Lemma someC_false_distinct (location : string) (l : list JValue) :
  wellShaped l ->
  someC (matches location) l = Normal false ->
  Forall (fun e => entryKey e <> Some (toLowerCase location)) l.
Proof.
  induction 1 as [|x l Hx _ IH]; [constructor|].
  destruct (entryKey_Some x Hx) as [key Hkey].
  cbn [someC]. unfold matches at 1. rewrite Hkey.
  destruct (String.eqb_spec key (toLowerCase location)) as [Heq | Hne];
    [discriminate|].
  intros Hrest. constructor; [|by apply IH].
  unfold entryKey. rewrite Hkey. congruence.
Qed.

Lemma someC_true_not_distinct (location : string) (l : list JValue) :
  wellShaped l ->
  someC (matches location) l = Normal true ->
  ~ Forall (fun e => entryKey e <> Some (toLowerCase location)) l.
Proof.
  induction 1 as [|x l Hx _ IH]; [discriminate|].
  destruct (entryKey_Some x Hx) as [key Hkey].
  cbn [someC]. unfold matches at 1. rewrite Hkey.
  rewrite Forall_cons.
  destruct (String.eqb_spec key (toLowerCase location)) as [Heq | Hne].
  - intros _ [Hx' _]. apply Hx'. unfold entryKey. rewrite Hkey. congruence.
  - intros Hrest [_ Hl]. by apply IH.
Qed.

Lemma someC_filtered (location : string) (l : list JValue) :
  wellShaped l ->
  someC (matches location)
        (filter (fun e => entryKey e <> Some (toLowerCase location)) l)
  = Normal false.
Proof.
  induction 1 as [|x l Hx _ IH]; [reflexivity|].
  rewrite filter_cons.
  destruct (decide (entryKey x <> Some (toLowerCase location))) as [Hne|];
    [|exact IH].
  destruct (entryKey_Some x Hx) as [key Hkey].
  cbn [someC]. unfold matches at 1. rewrite Hkey.
  destruct (String.eqb_spec key (toLowerCase location)) as [Heq | _];
    [|exact IH].
  destruct Hne. unfold entryKey. rewrite Hkey. congruence.
Qed.

(** [removeFromFavorites] on well-shaped favorites, step by step. *)
Lemma removeFromFavorites_run location (w : World) :
  wellShaped (favorites (persistedState w)) ->
  exists w',
    removeFromFavorites location w = (Normal tt, w')
    /\ favorites (persistedState w')
       = filter (fun e => entryKey e <> Some (toLowerCase location))
                (favorites (persistedState w))
    /\ searchHistory (persistedState w') = searchHistory (persistedState w)
    /\ lastLocation (persistedState w') = lastLocation (persistedState w)
    /\ clock w' = clock w.
Proof.
  intros Hshape. unfold removeFromFavorites, log_info.
  rewrite (bind_normal (gets _) _ w w _ eq_refl).
  rewrite (bind_normal (liftC _) _ w w _
             (f_equal (fun c => (c, w)) (filterC_wellShaped location _ Hshape))).
  set (kept := filter _ _).
  rewrite (bind_normal (modify (set_favorites kept)) _ w _ tt eq_refl).
  set (w1 := set_favorites kept w).
  rewrite (bind_normal (gets persistedState) _ w1 w1 _ eq_refl).
  destruct (savePersistedState_never_raises (persistedState w1) w1)
    as (w2 & Hsave & Hst & _ & Hclock & _).
  rewrite (bind_normal _ _ _ _ _ Hsave).
  destruct (logToHost_run HostInfo
              ("Removed " +:+ location +:+ " from favorites") None w2)
    as (w3 & -> & Hsame).
  exists w3. split; [reflexivity|].
  unfold sameButLogs in Hsame. destruct_and!.
  replace (persistedState w3) with (persistedState w2) by done.
  replace (clock w3) with (clock w2) by done.
  rewrite Hst, Hclock. by repeat split.
Qed.

(** X4. On favorites whose entries have a string location,
    [removeFromFavorites] returns normally and keeps, in their order,
    exactly the entries whose location is not equal to the given one
    case-insensitively (after the engine's [toLowerCase], as the code
    compares); search history and last location are untouched.
    Afterwards [isFavorited] is false for every spelling that is equal
    to the location case-insensitively, among them, when the location
    is of ASCII characters, every spelling that differs only in letter
    case; and removing a location that was not a favorite leaves the
    list as it was. *)
Theorem removeFromFavorites_removes_every_spelling location (w : World) :
  wellShaped (favorites (persistedState w)) ->
  exists w',
    removeFromFavorites location w = (Normal tt, w')
    /\ favorites (persistedState w')
       = filter (fun e => entryKey e <> Some (toLowerCase location))
                (favorites (persistedState w))
    /\ searchHistory (persistedState w') = searchHistory (persistedState w)
    /\ lastLocation (persistedState w') = lastLocation (persistedState w)
    /\ (forall L2, sameUpToCase location L2 ->
                   fst (isFavorited L2 w') = Normal false)
    /\ (forall L2, isAscii location = true -> differOnlyInCase location L2 ->
                   fst (isFavorited L2 w') = Normal false)
    /\ (fst (isFavorited location w) = Normal false ->
        favorites (persistedState w') = favorites (persistedState w)).
Proof.
  intros Hshape.
  destruct (removeFromFavorites_run location w Hshape)
    as (w' & Hrun & Hfav & Hhist & Hlast & _).
  assert (Hgone : forall L2, sameUpToCase location L2 ->
                             fst (isFavorited L2 w') = Normal false).
  { intros L2 Hcase. rewrite isFavorited_run. simpl. rewrite Hfav.
    rewrite (someC_ext _ (matches location));
      [by apply someC_filtered|].
    intros x. apply matches_toLowerCase. by symmetry. }
  exists w'. repeat split; [done..| | |].
  - exact Hgone.
  - intros L2 Ha Hcase. apply Hgone. by apply differOnlyInCase_toLowerCase.
  - rewrite isFavorited_run. simpl. intros Hnot. rewrite Hfav.
    apply filter_keeps_all. by apply someC_false_distinct.
Qed.

Lemma wellShaped_mkFavorite location lat lon now (l : list JValue) :
  wellShaped l -> wellShaped (l ++ [mkFavorite location lat lon now]).
Proof.
  intros Hl. apply Forall_app. split; [exact Hl|].
  constructor; [by eexists|constructor].
Qed.

(** X5. Adding a location that is not yet a favorite and then removing it,
    under any spelling that is equal to it case-insensitively (after the
    engine's [toLowerCase], as the code compares), gives back the
    favorites list exactly as it was; both calls return normally. *)
Theorem add_then_remove_restores_favorites L1 L2 lat lon (w : World) :
  wellShaped (favorites (persistedState w)) ->
  sameUpToCase L1 L2 ->
  fst (isFavorited L1 w) = Normal false ->
  fst (addToFavorites L1 lat lon w) = Normal tt
  /\ fst (removeFromFavorites L2 (snd (addToFavorites L1 lat lon w))) = Normal tt
  /\ favorites
       (persistedState
          (snd (removeFromFavorites L2 (snd (addToFavorites L1 lat lon w)))))
     = favorites (persistedState w).
Proof.
  intros Hshape Hcase Hnot. rewrite isFavorited_run in Hnot. simpl in Hnot.
  destruct (addToFavorites_new L1 lat lon w Hnot) as (w1 & Hadd & Hst1).
  rewrite Hadd. simpl.
  assert (Hshape1 : wellShaped (favorites (persistedState w1)))
    by (rewrite Hst1; simpl; by apply wellShaped_mkFavorite).
  destruct (removeFromFavorites_run L2 w1 Hshape1)
    as (w2 & Hremove & Hfav2 & _).
  rewrite Hremove. simpl. repeat split.
  rewrite Hfav2, Hst1. simpl.
  unfold sameUpToCase in Hcase. rewrite <- Hcase.
  rewrite filter_app, filter_cons, filter_nil.
  rewrite decide_False by (intros Hne; by apply Hne).
  rewrite app_nil_r. apply filter_keeps_all.
  by apply someC_false_distinct.
Qed.

Lemma sameFavorites_refl (w : World) : sameFavorites w w.
Proof. reflexivity. Qed.

Lemma sameFavorites_trans (w1 w2 w3 : World) :
  sameFavorites w1 w2 -> sameFavorites w2 w3 -> sameFavorites w1 w3.
Proof. unfold sameFavorites. congruence. Qed.

Lemma savePersistedState_sameFavorites state :
  keeps sameFavorites (savePersistedState state).
Proof.
  intros w. destruct (savePersistedState_never_raises state w)
    as (w' & -> & Hst & _).
  unfold sameFavorites. simpl. by rewrite Hst.
Qed.

(** Recording a search never touches the favorites, even when it throws. *)
Lemma addToSearchHistory_sameFavorites location :
  keeps sameFavorites (addToSearchHistory location).
Proof.
  unfold addToSearchHistory.
  frame_with sameFavorites_refl sameFavorites_trans
    ltac:(idtac; match goal with
          | |- keeps _ (savePersistedState _) =>
              apply savePersistedState_sameFavorites
          | |- sameFavorites _ _ => reflexivity
          end).
Qed.

Lemma StronglySorted_snoc {A} (R : A -> A -> Prop) (l : list A) (x : A) :
  StronglySorted R l -> Forall (fun y => R y x) l ->
  StronglySorted R (l ++ [x]).
Proof.
  induction 1 as [|y l Hl IH Hy]; intros Hall; simpl.
  - repeat constructor.
  - apply Forall_cons in Hall as [Hyx Hall]. constructor; [by apply IH|].
    apply Forall_app. split; [exact Hy|by constructor].
Qed.

Lemma addToFavorites_unique location lat lon (w : World) :
  uniqueFavorites (favorites (persistedState w)) ->
  uniqueFavorites (favorites (persistedState (snd (addToFavorites location lat lon w)))).
Proof.
  intros [Hshape Hdistinct].
  destruct (someC_wellShaped location _ Hshape) as [[] Hsome].
  - rewrite (addToFavorites_existing _ _ _ _ Hsome). unfold log_warn.
    destruct (logToHost_run HostWarning "Location already in favorites" None w)
      as (w' & -> & Hsame).
    unfold sameButLogs in Hsame. destruct_and!. simpl.
    by replace (persistedState w') with (persistedState w) by done.
  - destruct (addToFavorites_new location lat lon w Hsome) as (w' & -> & Hst).
    simpl. rewrite Hst. simpl. split; [by apply wellShaped_mkFavorite|].
    apply StronglySorted_snoc; [exact Hdistinct|].
    exact (someC_false_distinct _ _ Hshape Hsome).
Qed.

Lemma removeFromFavorites_unique location (w : World) :
  uniqueFavorites (favorites (persistedState w)) ->
  uniqueFavorites (favorites (persistedState (snd (removeFromFavorites location w)))).
Proof.
  intros [Hshape Hdistinct].
  destruct (removeFromFavorites_run location w Hshape)
    as (w' & -> & Hfav & _).
  simpl. rewrite Hfav. split.
  - eapply Forall_sublist_of; [apply sublist_filter|exact Hshape].
  - eapply StronglySorted_sublist_of; [apply sublist_filter|exact Hdistinct].
Qed.

Lemma performAll_unique (actions : list Action) (w : World) :
  uniqueFavorites (favorites (persistedState w)) ->
  uniqueFavorites (favorites (persistedState (performAll actions w))).
Proof.
  revert w. induction actions as [|a actions IH]; intros w Hunique;
    [exact Hunique|].
  simpl. apply IH. destruct a as [l|l lat lon|l|ms]; simpl.
  - by rewrite (addToSearchHistory_sameFavorites l w).
  - by apply addToFavorites_unique.
  - by apply removeFromFavorites_unique.
  - exact Hunique.
Qed.

(** X6. The uniqueness of favorites is an invariant: starting from
    favorites that have a string location each and no two at the same
    location up to case (the empty list of a fresh page, for one), every
    sequence of additions, removals, searches and pauses leaves
    favorites of that kind.  So no two favorites ever have locations
    that are equal case-insensitively (after the engine's
    [toLowerCase], as the code compares), and in particular no two have
    locations of ASCII characters that differ only in letter case. *)
Theorem favorites_stay_unique (actions : list Action) (w : World) :
  uniqueFavorites (favorites (persistedState w)) ->
  uniqueFavorites (favorites (persistedState (performAll actions w)))
  /\ noTwoSameUpToCase (favorites (persistedState (performAll actions w)))
  /\ (forall i j a b,
        (i < j)%nat ->
        entryLocation <$> favorites (persistedState (performAll actions w)) !! i
        = Some (Some a) ->
        entryLocation <$> favorites (persistedState (performAll actions w)) !! j
        = Some (Some b) ->
        isAscii a = true ->
        ~ differOnlyInCase a b).
Proof.
  intros Hunique.
  pose proof (performAll_unique actions w Hunique) as Hafter.
  assert (Hnone : noTwoSameUpToCase
                    (favorites (persistedState (performAll actions w))))
    by (apply distinct_noTwoSameUpToCase; by destruct Hafter).
  split; [exact Hafter|]. split; [exact Hnone|].
  intros i j a b Hij Hi Hj Ha Hcase.
  apply (Hnone i j a b Hij Hi Hj).
  by apply differOnlyInCase_toLowerCase.
Qed.

End FavoritesExtra.

Lemma removeFromFavorites_removes_every_spelling_witness :
  fst (isFavorited "MÜNCHEN"
         (snd (removeFromFavorites "münchen"
                 (snd (addToFavorites "München" 48 11
                         (initialWorld 0 emptyStorage true))))))
  = Normal false.
Proof.
  destruct (removeFromFavorites_removes_every_spelling "münchen"
              (snd (addToFavorites "München" 48 11
                      (initialWorld 0 emptyStorage true))))
    as (w' & Hrun & _ & _ & _ & Hgone & _).
  { vm_compute. repeat constructor. by eexists. }
  rewrite Hrun. exact (Hgone "MÜNCHEN" eq_refl).
Defined.

Lemma add_then_remove_restores_favorites_witness :
  favorites
    (persistedState
       (snd (removeFromFavorites "MÜNCHEN"
               (snd (addToFavorites "München" 48 11
                       (initialWorld 0 emptyStorage true))))))
  = [].
Proof.
  exact (proj2 (proj2 (add_then_remove_restores_favorites
                         "München" "MÜNCHEN" 48 11
                         (initialWorld 0 emptyStorage true)
                         (Forall_nil_2 _) eq_refl eq_refl))).
Defined.

Lemma favorites_stay_unique_witness :
  uniqueFavorites
    (favorites
       (persistedState
          (performAll [AddFavorite "München" 48 11;
                       AddFavorite "MÜNCHEN" 0 0; RemoveFavorite "Paris"]
                      (initialWorld 0 emptyStorage true)))).
Proof.
  apply (favorites_stay_unique
           [AddFavorite "München" 48 11; AddFavorite "MÜNCHEN" 0 0;
            RemoveFavorite "Paris"]
           (initialWorld 0 emptyStorage true)).
  split; constructor.
Defined.

(** ** Saving and loading *)

Section StoreExtra.
Context `{JSON} `{Engine}.

Lemma storageKey_inj (a b : string) : storageKey a = storageKey b -> a = b.
Proof.
  unfold storageKey. intros Heq. cbn in Heq. by injection Heq.
Qed.

Lemma Storage_setItem_then_getItem s key value :
  fst (Storage_setItem s key value) = Normal tt ->
  Storage_getItem (snd (Storage_setItem s key value)) key = Normal (Some value).
Proof.
  unfold Storage_setItem, Storage_getItem.
  destruct (accessible s); [|discriminate].
  destruct (_ <=? _)%nat; [|discriminate].
  intros _. simpl. by rewrite lookup_insert_eq.
Qed.

Lemma Storage_setItem_other s key value other :
  other <> key ->
  Storage_getItem (snd (Storage_setItem s key value)) other
  = Storage_getItem s other.
Proof.
  intros Hne. unfold Storage_setItem, Storage_getItem.
  destruct (accessible s) eqn:Hacc; simpl; [|by rewrite Hacc].
  destruct (_ <=? _)%nat; simpl; [|by rewrite Hacc].
  by rewrite lookup_insert_ne.
Qed.

Lemma savePersistedState_storage state (w : World) uuid :
  truthy (viewUUID w) = Some uuid ->
  localStorage (snd (savePersistedState state w))
  = snd (Storage_setItem (localStorage w) (storageKey uuid)
           (JSON_stringify (stateValue state)))
  /\ viewUUID (snd (savePersistedState state w)) = viewUUID w.
Proof.
  intros Huuid. rewrite savePersistedState_run, Huuid.
  by destruct (Storage_setItem _ _ _) as [[[]|e] s].
Qed.

Lemma stateValue_fields state :
  {| favorites :=
       arrayOrEmpty
         (match stateValue state with
          | JObject props => lookupProperty "favorites" props
          | _ => None
          end);
     searchHistory :=
       arrayOrEmpty
         (match stateValue state with
          | JObject props => lookupProperty "searchHistory" props
          | _ => None
          end);
     lastLocation :=
       match stateValue state with
       | JObject props => lookupProperty "lastLocation" props
       | _ => None
       end |} = state.
Proof. destruct state as [f h [last|]]; reflexivity. Qed.

(** A state whose serialisation is in the storage under the identifier
    of the page is the state a load returns. *)
Lemma stored_state_loads state (w : World) uuid text :
  truthy (viewUUID w) = Some uuid ->
  Storage_getItem (localStorage w) (storageKey uuid) = Normal (Some text) ->
  truthy (Some text) = Some text ->
  JSON_parse text = Normal (stateValue state) ->
  loadPersistedState w = (Normal state, w).
Proof.
  intros Huuid Hget Htext Hparse.
  rewrite loadPersistedState_run, Huuid, Hget, Htext, Hparse.
  cbv zeta. rewrite (stateValue_fields state). reflexivity.
Qed.

(** X7. Save and load are a round trip: when the page has a view
    identifier, the write succeeds and the platform's JSON reads back the
    text it wrote for this state (a non-empty text), the load that
    follows the save returns exactly the saved state: favorites, search
    history and last location. *)
Theorem save_then_load_round_trip state (w : World) uuid :
  truthy (viewUUID w) = Some uuid ->
  fst (Storage_setItem (localStorage w) (storageKey uuid)
         (JSON_stringify (stateValue state))) = Normal tt ->
  JSON_stringify (stateValue state) <> "" ->
  JSON_parse (JSON_stringify (stateValue state)) = Normal (stateValue state) ->
  fst (loadPersistedState (snd (savePersistedState state w))) = Normal state.
Proof.
  intros Huuid Hwrite Htext Hparse.
  destruct (savePersistedState_storage state w uuid Huuid) as [Hstore Hid].
  erewrite stored_state_loads; [reflexivity| | | |exact Hparse].
  - by rewrite Hid.
  - rewrite Hstore. by apply Storage_setItem_then_getItem.
  - by destruct (JSON_stringify (stateValue state)).
Qed.

(** What a load returns depends on the identifier and on the item stored
    under it only. *)
Lemma loadPersistedState_depends_on_item (w1 w2 : World) :
  truthy (viewUUID w1) = truthy (viewUUID w2) ->
  (forall uuid,
      truthy (viewUUID w2) = Some uuid ->
      Storage_getItem (localStorage w1) (storageKey uuid)
      = Storage_getItem (localStorage w2) (storageKey uuid)) ->
  fst (loadPersistedState w1) = fst (loadPersistedState w2).
Proof.
  intros Hid Hitem. rewrite !loadPersistedState_run, Hid.
  destruct (truthy (viewUUID w2)) as [uuid|]; [|reflexivity].
  rewrite (Hitem uuid eq_refl).
  destruct (Storage_getItem _ _) as [stored|e]; [|reflexivity].
  destruct (truthy stored) as [text|]; [|reflexivity].
  destruct (JSON_parse text) as [[]|e]; reflexivity.
Qed.

(** X8. Views are independent: a save under the identifier of the page,
    whether it succeeds or fails, leaves what is stored under every other
    identifier as it was, so a page with another identifier loads what it
    would have loaded before. *)
Theorem save_leaves_other_views state (w : World) uuid other :
  truthy (viewUUID w) = Some uuid ->
  other <> uuid ->
  Storage_getItem (localStorage (snd (savePersistedState state w)))
                  (storageKey other)
  = Storage_getItem (localStorage w) (storageKey other)
  /\ fst (loadPersistedState
            (set_viewUUID (Some other) (snd (savePersistedState state w))))
     = fst (loadPersistedState (set_viewUUID (Some other) w)).
Proof.
  intros Huuid Hne.
  destruct (savePersistedState_storage state w uuid Huuid) as [Hstore _].
  assert (Hget : Storage_getItem
                   (localStorage (snd (savePersistedState state w)))
                   (storageKey other)
                 = Storage_getItem (localStorage w) (storageKey other)).
  { rewrite Hstore. apply Storage_setItem_other.
    intros Hkey. by apply Hne, storageKey_inj. }
  split; [exact Hget|].
  apply loadPersistedState_depends_on_item; [reflexivity|].
  simpl. intros key Hkey.
  assert (key = other) as -> by (destruct other; by inversion Hkey).
  exact Hget.
Qed.

(** X9. A recorded search survives a reload: with a view identifier, a
    well-shaped history, a write that succeeds and a platform JSON that
    reads back what it wrote, the state a load returns right after
    [addToSearchHistory] is the state in memory, new entry included. *)
Theorem recorded_search_survives_reload location (w : World) uuid :
  wellShaped (searchHistory (persistedState w)) ->
  truthy (viewUUID w) = Some uuid ->
  let state :=
    {| favorites := favorites (persistedState w);
       searchHistory :=
         recorded (mkHistoryEntry location (clock w))
                  (searchHistory (persistedState w));
       lastLocation := lastLocation (persistedState w) |} in
  fst (Storage_setItem (localStorage w) (storageKey uuid)
         (JSON_stringify (stateValue state))) = Normal tt ->
  JSON_stringify (stateValue state) <> "" ->
  JSON_parse (JSON_stringify (stateValue state)) = Normal (stateValue state) ->
  persistedState (snd (addToSearchHistory location w)) = state
  /\ fst (loadPersistedState (snd (addToSearchHistory location w)))
     = Normal state.
Proof.
  intros Hshape Huuid state Hwrite Htext Hparse.
  unfold addToSearchHistory.
  rewrite (bind_normal (gets _) _ w w _ eq_refl).
  rewrite (bind_normal (liftC _) _ w w _
             (f_equal (fun c => (c, w)) (filterC_wellShaped location _ Hshape))).
  set (kept := filter _ _).
  rewrite (bind_normal (modify (set_searchHistory kept)) _ w _ tt eq_refl).
  set (w1 := set_searchHistory kept w).
  rewrite (bind_normal (gets clock) _ w1 w1 _ eq_refl).
  set (w2 := set_searchHistory
               (mkHistoryEntry location (clock w1)
                  :: searchHistory (persistedState w1)) w1).
  rewrite (bind_normal
             (modify (fun w0 =>
                        set_searchHistory
                          (mkHistoryEntry location (clock w1)
                             :: searchHistory (persistedState w0)) w0))
             _ w1 w2 tt eq_refl).
  set (w3 := set_searchHistory (take 10 (searchHistory (persistedState w2))) w2).
  rewrite (bind_normal
             (modify (fun w0 =>
                        set_searchHistory
                          (take 10 (searchHistory (persistedState w0))) w0))
             _ w2 w3 tt eq_refl).
  rewrite (bind_normal (gets persistedState) _ w3 w3 _ eq_refl).
  assert (Hstate : persistedState w3 = state) by reflexivity.
  rewrite Hstate.
  destruct (savePersistedState_never_raises state w3) as (w4 & Hsave & Hst & _).
  split.
  - rewrite Hsave. simpl. by rewrite Hst.
  - by apply (save_then_load_round_trip state w3 uuid).
Qed.

End StoreExtra.

Lemma save_then_load_round_trip_witness :
  fst (loadPersistedState (snd (savePersistedState sampleState identifiedWorld)))
  = Normal sampleState.
Proof.
  apply (save_then_load_round_trip sampleState identifiedWorld "view-1").
  - reflexivity.
  - vm_compute. reflexivity.
  - vm_compute. discriminate.
  - vm_compute. reflexivity.
Defined.

Lemma save_leaves_other_views_witness :
  Storage_getItem
    (localStorage (snd (savePersistedState sampleState identifiedWorld)))
    (storageKey "view-2")
  = Storage_getItem (localStorage identifiedWorld) (storageKey "view-2").
Proof.
  refine (proj1 (save_leaves_other_views sampleState identifiedWorld
                   "view-1" "view-2" eq_refl _)).
  discriminate.
Defined.

Lemma recorded_search_survives_reload_witness :
  fst (loadPersistedState (snd (addToSearchHistory "Tokyo" identifiedWorld)))
  = Normal {| favorites := [];
              searchHistory := [mkHistoryEntry "Tokyo" 0];
              lastLocation := None |}.
Proof.
  refine (proj2 (recorded_search_survives_reload "Tokyo" identifiedWorld
                   "view-1" (Forall_nil_2 _) eq_refl _ _ _)).
  - vm_compute. reflexivity.
  - vm_compute. discriminate.
  - vm_compute. reflexivity.
Defined.

(** ** The view identifier *)

Section IdentifierExtra.
Context `{JSON} `{Engine}.

Lemma sameIdentifier_refl (w : World) : sameIdentifier w w.
Proof. reflexivity. Qed.

Lemma sameIdentifier_trans (w1 w2 w3 : World) :
  sameIdentifier w1 w2 -> sameIdentifier w2 w3 -> sameIdentifier w1 w3.
Proof. unfold sameIdentifier. congruence. Qed.

Lemma logToHost_sameIdentifier l msg data :
  keeps sameIdentifier (logToHost l msg data).
Proof.
  intros w. destruct (logToHost_run l msg data w) as (w' & -> & Hsame).
  unfold sameButLogs in Hsame. by destruct_and!.
Qed.

Lemma savePersistedState_sameIdentifier state :
  keeps sameIdentifier (savePersistedState state).
Proof.
  intros w. destruct (savePersistedState_never_raises state w)
    as (w' & -> & _ & Hid & _). exact Hid.
Qed.

Ltac frame_identifier :=
  unfold log_info, log_warn, log_error;
  frame_with sameIdentifier_refl sameIdentifier_trans
    ltac:(idtac; match goal with
          | |- keeps _ (savePersistedState _) =>
              apply savePersistedState_sameIdentifier
          | |- keeps _ (logToHost _ _ _) => apply logToHost_sameIdentifier
          | |- keeps _ (setTimeout _ _) => by intros ?
          | |- sameIdentifier _ _ => reflexivity
          end).

Lemma addToSearchHistory_sameIdentifier location :
  keeps sameIdentifier (addToSearchHistory location).
Proof. unfold addToSearchHistory. frame_identifier. Qed.

Lemma renderWeather_sameIdentifier d : keeps sameIdentifier (renderWeather d).
Proof. unfold renderWeather, isFavorited. frame_identifier. Qed.

(** [ontoolresult] once some identifier is set. *)
Lemma ontoolresult_sameIdentifier result (w : World) uuid :
  truthy (viewUUID w) = Some uuid ->
  sameIdentifier w (snd (ontoolresult result w)).
Proof.
  intros Huuid. unfold ontoolresult, log_info.
  destruct (logToHost_run HostInfo "Received tool result from server" None w)
    as (w1 & Hrun1 & Hsame1).
  rewrite (bind_normal _ _ _ _ _ Hrun1).
  assert (Hid1 : viewUUID w1 = viewUUID w)
    by (unfold sameButLogs in Hsame1; tauto).
  rewrite (bind_normal (gets viewUUID) _ w1 w1 _ eq_refl).
  rewrite Hid1, Huuid.
  eapply sameIdentifier_trans; [exact Hid1|].
  match goal with
  | |- sameIdentifier _ (snd (?m w1)) =>
      assert (Hk : keeps sameIdentifier m); [|exact (Hk w1)]
  end.
  destruct (truthy (meta_viewUUID result)); cbv beta iota;
    frame_with sameIdentifier_refl sameIdentifier_trans
      ltac:(idtac; match goal with
            | |- keeps _ (renderWeather _) => apply renderWeather_sameIdentifier
            | |- keeps _ (addToSearchHistory _) =>
                apply addToSearchHistory_sameIdentifier
            | |- keeps _ (logToHost _ _ _) => apply logToHost_sameIdentifier
            | |- keeps _ (log_info _ _) => apply logToHost_sameIdentifier
            | |- keeps _ (log_warn _ _) => apply logToHost_sameIdentifier
            | |- keeps _ (log_error _ _) => apply logToHost_sameIdentifier
            end).
Qed.

(** X10. The view identifier is set once: when the page has an identifier,
    no sequence of tool results changes it, whatever identifiers and
    weather data they carry. *)
Theorem view_identifier_is_set_once (results : list ToolResult) (w : World) uuid :
  truthy (viewUUID w) = Some uuid ->
  viewUUID (handleToolResults results w) = viewUUID w.
Proof.
  revert w. induction results as [|result results IH]; intros w Huuid;
    [reflexivity|].
  simpl. pose proof (ontoolresult_sameIdentifier result w uuid Huuid) as Hid.
  unfold sameIdentifier in Hid. rewrite IH; [exact Hid|by rewrite Hid].
Qed.

End IdentifierExtra.

Lemma view_identifier_is_set_once_witness :
  viewUUID
    (handleToolResults
       [{| meta_viewUUID := Some "view-2";
           meta_weatherData :=
             Some {| location := "Paris"; latitude := 48; longitude := 2 |} |}]
       identifiedWorld)
  = Some "view-1".
Proof.
  exact (view_identifier_is_set_once
           [{| meta_viewUUID := Some "view-2";
               meta_weatherData :=
                 Some {| location := "Paris"; latitude := 48; longitude := 2 |} |}]
           identifiedWorld "view-1" eq_refl).
Defined.

(** ** Streams: which modal is written to, and in which order *)

Section StreamExtra.
Context `{JSON} `{Engine}.

Lemma getElementById_app_Some (doc extra : list StreamModal) index modal :
  getElementById doc index = Some modal ->
  getElementById (doc ++ extra) index = Some modal.
Proof.
  revert index. induction doc as [|m doc IH]; intros index; [done|]. simpl.
  destruct (attached m); [done|apply IH].
Qed.

Lemma getElementById_app_None (doc : list StreamModal) streamId totalPhases index :
  getElementById doc index = None ->
  getElementById (doc ++ [newModal streamId totalPhases]) index
  = Some (index + length doc)%nat.
Proof.
  revert index. induction doc as [|m doc IH]; intros index; simpl.
  - intros _. f_equal. lia.
  - destruct (attached m); [done|]. intros Hnone.
    rewrite (IH _ Hnone). f_equal. lia.
Qed.

Lemma getElementById_bound (doc : list StreamModal) index modal :
  getElementById doc index = Some modal ->
  (index <= modal < index + length doc)%nat
  /\ exists m, doc !! (modal - index)%nat = Some m /\ attached m = true.
Proof.
  revert index. induction doc as [|m doc IH]; intros index; [done|]. simpl.
  destruct (attached m) eqn:Hm.
  - intros [= <-]. split; [lia|]. exists m. by rewrite Nat.sub_diag.
  - intros Hrest. destruct (IH _ Hrest) as [Hbound (m' & Hlookup & Hm')].
    split; [lia|]. exists m'. split; [|done].
    replace (modal - index)%nat with (S (modal - S index)) by lia.
    exact Hlookup.
Qed.

(** X11. The elements a stream writes to are looked up by id, and the
    lookup finds the first modal still in the document.  So the timers
    that [displayProgressiveInsights] arms write to the new modal only
    when no earlier stream modal is open; when one is, at index [older],
    every phase of the new stream is appended to that older modal and the
    new modal, appended behind it, is never written to. *)
Theorem stream_writes_to_first_open_modal streamId
    (updates : list StreamUpdate) totalPhases (w : World) :
  exists w',
    displayProgressiveInsights streamId updates totalPhases w = (Normal tt, w')
    /\ document w' = document w ++ [newModal streamId totalPhases]
    /\ timers w'
       = timers w
           ++ imap (phaseTimer (clock w) (nextTimerId w)
                               (targetModal (document w)) totalPhases)
                   updates
    /\ (getElementById (document w) 0 = None ->
        targetModal (document w) = length (document w))
    /\ (forall older,
          getElementById (document w) 0 = Some older ->
          targetModal (document w) = older
          /\ (older < length (document w))%nat
          /\ Forall (fun t => timerModal t <> Some (length (document w)))
                    (imap (phaseTimer (clock w) (nextTimerId w)
                                      (targetModal (document w)) totalPhases)
                          updates)).
Proof.
  destruct (displayProgressiveInsights_run streamId updates totalPhases w)
    as (w' & modal & Hrun & _ & Hdoc & Hfound & Htimers & _).
  assert (Hmodal : modal = targetModal (document w)).
  { unfold targetModal. rewrite Hdoc in Hfound.
    destruct (getElementById (document w) 0) as [older|] eqn:Holder.
    - rewrite (getElementById_app_Some _ _ _ _ Holder) in Hfound. congruence.
    - rewrite (getElementById_app_None _ _ _ _ Holder) in Hfound.
      simpl in Hfound. congruence. }
  subst modal. exists w'.
  split; [done|]. split; [done|]. split; [done|]. split.
  - unfold targetModal. by intros ->.
  - intros older Holder.
    assert (Htarget : targetModal (document w) = older)
      by (unfold targetModal; by rewrite Holder).
    apply getElementById_bound in Holder as [Hbound _].
    split; [done|]. split; [lia|].
    apply Forall_forall. intros t Ht.
    apply list_elem_of_lookup in Ht as [i Ht].
    rewrite list_lookup_imap in Ht.
    destruct (updates !! i) as [u|]; [|done]. injection Ht as <-.
    unfold timerModal. simpl. rewrite Htarget. intros [= ->]. lia.
Qed.

End StreamExtra.

Lemma stream_writes_to_first_open_modal_witness :
  Forall (fun t => timerModal t = Some 0%nat)
         (timers (snd (displayProgressiveInsights "stream-2" demoUpdates 5
                         (runUntil 6000 streamStarted)))).
Proof.
  destruct (stream_writes_to_first_open_modal "stream-2" demoUpdates 5
              (runUntil 6000 streamStarted))
    as (w' & Hrun & _ & Htimers & _ & Holder).
  destruct (Holder 0%nat) as (Htarget & _ & _); [vm_compute; reflexivity|].
  rewrite Hrun. simpl snd. rewrite Htimers, Htarget.
  vm_compute. repeat constructor.
Defined.

(** ** Streams: the order of the phases *)

Section StreamOrder.
Context `{JSON} `{Engine}.










Lemma markComplete_streamPhases (m : StreamModal) :
  streamPhases (markComplete m) = streamPhases m.
Proof. reflexivity. Qed.









End StreamOrder.


(** ** Tool results and the search history *)

Section ToolResultExtra.
Context `{JSON} `{Engine}.

Lemma renderWeather_run d (w : World) :
  wellShaped (favorites (persistedState w)) ->
  exists w',
    renderWeather d w = (Normal tt, w')
    /\ persistedState w' = persistedState w
    /\ clock w' = clock w.
Proof.
  intros Hshape. unfold renderWeather, log_info.
  destruct (someC_wellShaped (location d) _ Hshape) as [b Hb].
  rewrite (bind_normal (isFavorited (location d)) _ w w b)
    by (rewrite isFavorited_run; by rewrite Hb).
  rewrite (bind_normal (setTimeout SetupWeatherButtons 0) _ w _ _ eq_refl).
  match goal with
  | |- context [logToHost ?l ?msg ?data ?w0] =>
      destruct (logToHost_run l msg data w0) as (w' & -> & Hsame)
  end.
  exists w'. split; [reflexivity|].
  unfold sameButLogs in Hsame. destruct_and!. split; [done|].
  by transitivity (clock w).
Qed.

Lemma renderWeather_throws d (w : World) e :
  fst (isFavorited (location d) w) = Throw e ->
  renderWeather d w = (Throw e, w).
Proof.
  rewrite isFavorited_run. simpl. intros He.
  unfold renderWeather, mbind, M_bind. rewrite isFavorited_run. by rewrite He.
Qed.

(** The handler of [ontoolresult] only writes log lines. *)
Lemma ontoolresult_handler_run e (w : World) :
  exists w',
    (logToHost HostError "Failed to render weather"
       (Some (JString (errorMessage e))) ;;
     logToHost HostError "Error displayed"
       (Some (JString "Failed to display weather data"))) w = (Normal tt, w')
    /\ persistedState w' = persistedState w.
Proof.
  destruct (logToHost_run HostError "Failed to render weather"
              (Some (JString (errorMessage e))) w) as (w4 & Hlog4 & Hsame4).
  destruct (logToHost_run HostError "Error displayed"
              (Some (JString "Failed to display weather data")) w4)
    as (w5 & Hlog5 & Hsame5).
  exists w5. split.
  - by rewrite (bind_normal _ _ _ _ _ Hlog4).
  - unfold sameButLogs in Hsame4, Hsame5. destruct_and!. congruence.
Qed.

(** X13. A tool result with weather data, on a page that does not have to
    load state for it, never raises.  When favorites and history are
    well-shaped, the location of the weather data is recorded in the
    search history at the current clock reading.  When rendering fails
    because the favorites cannot be read, the error is caught and the
    search history is left as it was. *)
Theorem tool_result_records_search result d (w : World) :
  meta_weatherData result = Some d ->
  truthy (meta_viewUUID result) = None \/ is_Some (truthy (viewUUID w)) ->
  fst (ontoolresult result w) = Normal tt
  /\ (wellShaped (favorites (persistedState w)) ->
      wellShaped (searchHistory (persistedState w)) ->
      searchHistory (persistedState (snd (ontoolresult result w)))
      = recorded (mkHistoryEntry (location d) (clock w))
                 (searchHistory (persistedState w)))
  /\ (forall e,
        fst (isFavorited (location d) w) = Throw e ->
        searchHistory (persistedState (snd (ontoolresult result w)))
        = searchHistory (persistedState w)).
Proof.
  intros Hdata Hnoload. unfold ontoolresult, log_info, log_error.
  rewrite Hdata.
  destruct (logToHost_run HostInfo "Received tool result from server" None w)
    as (w1 & Hrun1 & Hsame1).
  rewrite (bind_normal _ _ _ _ _ Hrun1).
  rewrite (bind_normal (gets viewUUID) _ w1 w1 _ eq_refl).
  unfold sameButLogs in Hsame1. destruct_and!.
  assert (Hskip : match truthy (meta_viewUUID result), truthy (viewUUID w1) with
                  | Some uuid, None =>
                      modify (set_viewUUID (Some uuid)) ;;
                      st ← loadPersistedState;
                      modify (set_persistedState st) ;;
                      logToHost HostInfo "Loaded persisted state"
                        (Some (JObject
                           [("favorites",
                             JNumber (Z.of_nat (length (favorites st))));
                            ("history",
                             JNumber (Z.of_nat (length (searchHistory st))))]))
                  | _, _ => mret tt
                  end = mret tt).
  { replace (viewUUID w1) with (viewUUID w) by done.
    destruct Hnoload as [-> | [uuid ->]]; [reflexivity|].
    by destruct (truthy (meta_viewUUID result)). }
  rewrite Hskip. rewrite (bind_normal (mret tt) _ w1 w1 tt eq_refl).
  assert (Hst1 : persistedState w1 = persistedState w) by done.
  assert (Hclock1 : clock w1 = clock w) by done.
  assert (Hthrows : forall e,
             fst (isFavorited (location d) w) = Throw e ->
             renderWeather d w1 = (Throw e, w1)).
  { intros e He. apply renderWeather_throws.
    rewrite isFavorited_run in *. simpl in *. by rewrite Hst1. }
  assert (Hrenders : wellShaped (favorites (persistedState w)) ->
                     exists w2,
                       renderWeather d w1 = (Normal tt, w2)
                       /\ persistedState w2 = persistedState w
                       /\ clock w2 = clock w).
  { intros Hfav. destruct (renderWeather_run d w1) as (w2 & Hr & Hst2 & Hc2);
      [by rewrite Hst1|].
    exists w2. split; [done|]. split; congruence. }
  clear Hskip Hrun1. revert Hthrows Hrenders.
  generalize (isFavorited (location d) w). intros favorited Hthrows Hrenders.
  destruct (renderWeather d w1) as [[[]|e] w2] eqn:Hrender.
  - (* rendered *)
    assert (Hno : forall e, fst favorited = Throw e -> False)
      by (intros e He; by specialize (Hthrows e He)).
    destruct (addToSearchHistory (location d) w2) as [[[]|e] w3] eqn:Hadd.
    + destruct (logToHost_run HostInfo "Initial weather data rendered"
                  (Some (JString (location d))) w3) as (w4 & Hlog4 & Hsame4).
      erewrite tryCatch_normal; last first.
      { rewrite (bind_normal _ _ _ _ _ Hrender).
        rewrite (bind_normal _ _ _ _ _ Hadd). exact Hlog4. }
      simpl. split; [reflexivity|]. split; [|intros e He; destruct (Hno e He)].
      intros Hfav Hhist.
      destruct (Hrenders Hfav) as (w2' & Hrender' & Hst2 & Hclock2).
      injection Hrender' as <-.
      destruct (addToSearchHistory_run (location d) w2)
        as (w3' & Hadd' & Hh3 & _); [by rewrite Hst2|].
      rewrite Hadd in Hadd'. injection Hadd' as <-.
      unfold sameButLogs in Hsame4. destruct_and!.
      replace (persistedState w4) with (persistedState w3) by done.
      by rewrite Hh3, Hst2, Hclock2.
    + destruct (ontoolresult_handler_run e w3) as (w5 & Hhandler & Hst5).
      erewrite tryCatch_throw; last first.
      { rewrite (bind_normal _ _ _ _ _ Hrender).
        apply bind_throw. exact Hadd. }
      rewrite Hhandler.
      simpl. split; [reflexivity|]. split; [|intros e' He; destruct (Hno e' He)].
      intros Hfav Hhist.
      destruct (Hrenders Hfav) as (w2' & Hrender' & Hst2 & Hclock2).
      injection Hrender' as <-.
      destruct (addToSearchHistory_run (location d) w2)
        as (w3' & Hadd' & _); [by rewrite Hst2|].
      rewrite Hadd in Hadd'. discriminate.
  - (* rendering threw *)
    destruct (ontoolresult_handler_run e w2) as (w5 & Hhandler & Hst5).
    erewrite tryCatch_throw; last first.
    { apply bind_throw. exact Hrender. }
    rewrite Hhandler.
    simpl. split; [reflexivity|]. split.
    + intros Hfav Hhist.
      destruct (Hrenders Hfav) as (w2' & Hrender' & _). discriminate.
    + intros e' He. specialize (Hthrows e' He).
      injection Hthrows as _ ->.
      by rewrite Hst5, Hst1.
Qed.

End ToolResultExtra.

Lemma tool_result_records_search_witness :
  fst (ontoolresult
         {| meta_viewUUID := Some "view-2";
            meta_weatherData :=
              Some {| location := "Paris"; latitude := 48; longitude := 2 |} |}
         identifiedWorld)
  = Normal tt.
Proof.
  exact (proj1 (tool_result_records_search
                  {| meta_viewUUID := Some "view-2";
                     meta_weatherData :=
                       Some {| location := "Paris"; latitude := 48;
                               longitude := 2 |} |}
                  {| location := "Paris"; latitude := 48; longitude := 2 |}
                  identifiedWorld eq_refl
                  (or_intror (ex_intro _ "view-1" eq_refl)))).
Defined.

(** ** The page: display mode and theme *)

Section PageBasics.
Context `{JSON} `{Engine}.

Lemma bindP_returned {A B} (m : P A) (f : A -> P B) (p p' : Page) a :
  m p = (Returned a, p') -> (m ≫= f) p = f a p'.
Proof. intros Hm. unfold mbind, P_bind. by rewrite Hm. Qed.

Lemma bindP_raised {A B} (m : P A) (f : A -> P B) (p p' : Page) e :
  m p = (Raised e, p') -> (m ≫= f) p = (Raised e, p').
Proof. intros Hm. unfold mbind, P_bind. by rewrite Hm. Qed.

Lemma inWorld_normal {A} (m : M A) (p : Page) a w' :
  m (world p) = (Normal a, w') -> inWorld m p = (Returned a, set_world w' p).
Proof. intros Hm. unfold inWorld. by rewrite Hm. Qed.

Lemma inWorld_throw {A} (m : M A) (p : Page) e w' :
  m (world p) = (Throw e, w') -> inWorld m p = (Raised (Js e), set_world w' p).
Proof. intros Hm. unfold inWorld. by rewrite Hm. Qed.

(** A log line on the page: the page is the same but for the logs of its
    variables. *)
Lemma inWorld_logToHost l msg data (p : Page) :
  exists w',
    inWorld (logToHost l msg data) p = (Returned tt, set_world w' p)
    /\ sameButLogs (world p) w'.
Proof.
  destruct (logToHost_run l msg data (world p)) as (w' & Hrun & Hsame).
  exists w'. split; [by apply inWorld_normal|done].
Qed.

End PageBasics.

Section DisplayExtra.
Context `{JSON} `{Engine}.

Lemma elem_of_classList (x token : string) (tokens classes : list string) :
  x ∈ classList_add token (classList_remove tokens classes)
  <-> x = token \/ (x ∈ classes /\ x ∉ tokens).
Proof.
  unfold classList_add, classList_remove.
  destruct (decide (token ∈ filter (fun c => c ∉ tokens) classes)) as [Hin|Hout].
  - rewrite list_elem_of_filter. split; [tauto|].
    intros [-> | ?]; [|tauto]. by apply list_elem_of_filter in Hin.
  - rewrite elem_of_app, list_elem_of_filter, list_elem_of_singleton. tauto.
Qed.

Lemma applyTheme_run theme (p : Page) :
  exists w',
    applyTheme theme p
    = (Returned tt,
       set_world w' (set_bodyClasses (themed (Some theme) (bodyClasses p)) p))
    /\ sameButLogs (world p) w'.
Proof. eexists. split; [reflexivity|]. by repeat split. Qed.

Lemma applyDisplayMode_run mode (p : Page) :
  exists w',
    applyDisplayMode mode p
    = (Returned tt,
       set_world w' (set_bodyClasses (inMode (Some mode) (bodyClasses p)) p))
    /\ sameButLogs (world p) w'.
Proof. eexists. split; [reflexivity|]. by repeat split. Qed.

Lemma onhostcontextchanged_run context (p : Page) :
  exists p',
    onhostcontextchanged context p = (Returned tt, p')
    /\ sameButAppearance p p'
    /\ currentDisplayMode p'
       = default (currentDisplayMode p) (context_displayMode context)
    /\ bodyClasses p'
       = inMode (context_displayMode context)
                (themed (context_theme context) (bodyClasses p))
    /\ (expandIconDisplay p', compressIconDisplay p', fullscreenTitle p')
       = match context_displayMode context with
         | Some m => buttonFor m
         | None => (expandIconDisplay p, compressIconDisplay p,
                    fullscreenTitle p)
         end.
Proof.
  unfold onhostcontextchanged, log_info.
  destruct (inWorld_logToHost HostInfo "Host context changed"
              (Some (contextValue context)) p) as (w1 & Hlog & Hsame1).
  rewrite (bindP_returned _ _ _ _ _ Hlog).
  unfold sameButLogs in Hsame1. destruct_and!.
  destruct context as [[t|] [[]|]];
    unfold applyTheme, applyDisplayMode, updateFullscreenButton, consoleCall,
      inWorld, modify, modifyP, getsP, mbind, P_bind, mret, P_ret; simpl;
    (eexists; split; [reflexivity|]); by repeat split.
Qed.

(** A log call: the entry it leaves, and nothing but logs changes. *)
Lemma logToHost_entry l msg data (w : World) :
  exists w',
    logToHost l msg data w = (Normal tt, w')
    /\ sameButLogs w w'
    /\ logEntries w' = pushed (logEntryOf l (clock w) msg data) (logEntries w).
Proof.
  unfold logToHost, sendLog, consoleCall. run_step.
  fold (logText msg data).
  destruct (hostAvailable w) eqn:Hhost; simpl; rewrite addLogEntry_run;
    eexists; (split; [reflexivity|]); by repeat split.
Qed.

(** X14. [toggleFullscreen] only asks.  Whatever the host answers, the
    call returns normally and leaves the display mode, the classes of
    the body and the button as they were; it sends one request, for the
    inline mode when the page is in fullscreen and for fullscreen
    otherwise.  The request is logged, and when the host rejects it the
    rejection is logged as an error after it. *)
Theorem toggleFullscreen_only_asks answer (p : Page) :
  exists p',
    toggleFullscreen answer p = (Returned tt, p')
    /\ sameAppearance p p'
    /\ hostRequests p'
       = hostRequests p
           ++ [RequestDisplayMode (toggledMode (currentDisplayMode p))]
    /\ sameButLogs (world p) (world p')
    /\ logEntries (world p')
       = let requested :=
           pushed (logEntryOf HostInfo (clock (world p))
                     ("Requesting display mode: "
                        +:+ modeName (toggledMode (currentDisplayMode p)))
                     None)
                  (logEntries (world p)) in
         match answer with
         | Returned _ => requested
         | Raised e =>
             pushed (logEntryOf HostError (clock (world p))
                       "Failed to change display mode"
                       (Some (JString (thrownMessage e))))
                    requested
         end.
Proof.
  unfold toggleFullscreen, log_info, log_error.
  rewrite (bindP_returned (getsP currentDisplayMode) _ p p _ eq_refl).
  fold (toggledMode (currentDisplayMode p)).
  set (newMode := toggledMode (currentDisplayMode p)).
  destruct (logToHost_entry HostInfo
              ("Requesting display mode: " +:+ modeName newMode) None (world p))
    as (w1 & Hlog1 & Hsame1 & Hentries1).
  rewrite (bindP_returned _ _ _ _ _ (inWorld_normal _ _ _ _ Hlog1)).
  unfold tryCatchP, awaitHost.
  destruct answer as [[]|e].
  - eexists. split; [reflexivity|]. simpl.
    split; [done|]. split; [done|]. split; done.
  - destruct (logToHost_entry HostError "Failed to change display mode"
                (Some (JString (thrownMessage e))) w1)
      as (w2 & Hlog2 & Hsame2 & Hentries2).
    match goal with
    | |- context [inWorld _ ?q] => rewrite (inWorld_normal _ q _ _ Hlog2)
    end.
    eexists. split; [reflexivity|]. simpl.
    split; [done|]. split; [done|]. split.
    + by apply (sameButLogs_trans _ w1).
    + rewrite Hentries2, Hentries1.
      unfold sameButLogs in Hsame1. destruct_and!. by f_equal; f_equal.
Qed.

Lemma modeClass_inj (m m' : DisplayMode) : modeClass m' = modeClass m -> m' = m.
Proof. by destruct m, m'. Qed.

Lemma themeClass_inj (t t' : Theme) : themeClass t' = themeClass t -> t' = t.
Proof. by destruct t, t'. Qed.

Lemma modeClass_removed (m : DisplayMode) :
  modeClass m ∈ ["mode-inline"; "mode-fullscreen"; "mode-pip"].
Proof. destruct m; unfold modeClass; simpl; by repeat constructor. Qed.

Lemma themeClass_removed (t : Theme) :
  themeClass t ∈ ["theme-light"; "theme-dark"].
Proof. destruct t; unfold themeClass; simpl; by repeat constructor. Qed.

Lemma modeClass_not_theme (m : DisplayMode) :
  modeClass m ∉ ["theme-light"; "theme-dark"].
Proof.
  destruct m; unfold modeClass; simpl;
    rewrite !elem_of_cons, elem_of_nil; intuition discriminate.
Qed.

Lemma themeClass_not_mode (t : Theme) :
  themeClass t ∉ ["mode-inline"; "mode-fullscreen"; "mode-pip"].
Proof.
  destruct t; unfold themeClass; simpl;
    rewrite !elem_of_cons, elem_of_nil; intuition discriminate.
Qed.

Lemma modeClass_inMode (m m' : DisplayMode) (classes : list string) :
  modeClass m' ∈ inMode (Some m) classes <-> m' = m.
Proof.
  unfold inMode. rewrite elem_of_classList. split.
  - intros [Heq | [_ Hout]]; [by apply modeClass_inj|].
    destruct Hout. apply modeClass_removed.
  - intros ->. by left.
Qed.

Lemma themeClass_themed (t t' : Theme) (classes : list string) :
  themeClass t' ∈ themed (Some t) classes <-> t' = t.
Proof.
  unfold themed. rewrite elem_of_classList. split.
  - intros [Heq | [_ Hout]]; [by apply themeClass_inj|].
    destruct Hout. apply themeClass_removed.
  - intros ->. by left.
Qed.

Lemma modeClass_themed (t : option Theme) (m : DisplayMode)
    (classes : list string) :
  modeClass m ∈ themed t classes <-> modeClass m ∈ classes.
Proof.
  destruct t as [t|]; [|done]. unfold themed. rewrite elem_of_classList.
  pose proof (modeClass_not_theme m) as Hout. split.
  - intros [Heq | [Hin _]]; [|done].
    destruct t, m; discriminate.
  - intros Hin. by right.
Qed.

Lemma themeClass_inMode (m : option DisplayMode) (t : Theme)
    (classes : list string) :
  themeClass t ∈ inMode m classes <-> themeClass t ∈ classes.
Proof.
  destruct m as [m|]; [|done]. unfold inMode. rewrite elem_of_classList.
  pose proof (themeClass_not_mode t) as Hout. split.
  - intros [Heq | [Hin _]]; [|done].
    destruct t, m; discriminate.
  - intros Hin. by right.
Qed.

(** Adding or removing the classes of themes and modes does not touch
    the other classes of the body. *)
Lemma classList_others (token : string) (tokens classes : list string) :
  token ∈ appearanceClasses ->
  tokens ⊆ appearanceClasses ->
  classList_remove appearanceClasses
    (classList_add token (classList_remove tokens classes))
  = classList_remove appearanceClasses classes.
Proof.
  intros Htoken Htokens. unfold classList_add, classList_remove.
  assert (Hfilter : filter (fun c => c ∉ appearanceClasses)
                      (filter (fun c => c ∉ tokens) classes)
                    = filter (fun c => c ∉ appearanceClasses) classes).
  { induction classes as [|c classes IH]; [done|].
    rewrite !filter_cons.
    destruct (decide (c ∉ tokens)) as [Hc|Hc].
    - rewrite filter_cons. destruct (decide (c ∉ appearanceClasses));
        by rewrite IH.
    - rewrite decide_False, IH; [done|].
      intros Hout. apply Hc. intros Hin. apply Hout. by apply Htokens. }
  destruct (decide (token ∈ _)); [done|].
  rewrite filter_app, Hfilter, filter_cons, decide_False by tauto.
  by rewrite filter_nil, app_nil_r.
Qed.

Lemma themed_others (t : option Theme) (classes : list string) :
  classList_remove appearanceClasses (themed t classes)
  = classList_remove appearanceClasses classes.
Proof.
  destruct t as [t|]; [|done]. apply classList_others.
  - destruct t; unfold themeClass, appearanceClasses; simpl;
      by repeat constructor.
  - intros c. unfold appearanceClasses.
    rewrite !elem_of_cons, !elem_of_nil. tauto.
Qed.

Lemma inMode_others (m : option DisplayMode) (classes : list string) :
  classList_remove appearanceClasses (inMode m classes)
  = classList_remove appearanceClasses classes.
Proof.
  destruct m as [m|]; [|done]. apply classList_others.
  - destruct m; unfold modeClass, appearanceClasses; simpl;
      by repeat constructor.
  - intros c. unfold appearanceClasses.
    rewrite !elem_of_cons, !elem_of_nil. tauto.
Qed.

(** A toggle leaves mode, classes and button alone and sends one request
    for the other of the two modes. *)
Lemma toggleFullscreen_frame answer (p : Page) :
  exists p',
    toggleFullscreen answer p = (Returned tt, p')
    /\ sameAppearance p p'
    /\ hostRequests p'
       = hostRequests p
           ++ [RequestDisplayMode (toggledMode (currentDisplayMode p))].
Proof.
  unfold toggleFullscreen, log_info, log_error.
  rewrite (bindP_returned (getsP currentDisplayMode) _ p p _ eq_refl).
  fold (toggledMode (currentDisplayMode p)).
  destruct (inWorld_logToHost HostInfo
              ("Requesting display mode: "
                 +:+ modeName (toggledMode (currentDisplayMode p))) None p)
    as (w1 & Hlog1 & _).
  rewrite (bindP_returned _ _ _ _ _ Hlog1).
  unfold tryCatchP, awaitHost.
  destruct answer as [[]|e].
  - eexists. split; [reflexivity|]. by split.
  - match goal with
    | |- context [inWorld (logToHost ?l ?msg ?data) ?q] =>
        destruct (inWorld_logToHost l msg data q) as (w2 & -> & _)
    end.
    eexists. split; [reflexivity|]. by split.
Qed.

(** A key either does nothing or toggles. *)
Lemma keydown_cases key answer (p : Page) :
  keydown key answer p = (Returned tt, p)
  \/ keydown key answer p = toggleFullscreen answer p.
Proof.
  unfold keydown.
  rewrite (bindP_returned (getsP currentDisplayMode) _ p p _ eq_refl).
  destruct key, (currentDisplayMode p); auto.
Qed.

(** What an event does to the appearance: a host context applies its
    theme and mode, the other events change nothing of it. *)
Lemma handleEvent_appearance event (p : Page) :
  match event with
  | HostContextChanged context =>
      currentDisplayMode (snd (handleEvent event p))
      = default (currentDisplayMode p) (context_displayMode context)
      /\ bodyClasses (snd (handleEvent event p))
         = inMode (context_displayMode context)
                  (themed (context_theme context) (bodyClasses p))
      /\ (expandIconDisplay (snd (handleEvent event p)),
          compressIconDisplay (snd (handleEvent event p)),
          fullscreenTitle (snd (handleEvent event p)))
         = match context_displayMode context with
           | Some m => buttonFor m
           | None => (expandIconDisplay p, compressIconDisplay p,
                      fullscreenTitle p)
           end
  | _ => sameAppearance p (snd (handleEvent event p))
  end.
Proof.
  destruct event as [context|answer|key answer]; simpl.
  - by destruct (onhostcontextchanged_run context p) as (p' & -> & _ & ?).
  - by destruct (toggleFullscreen_frame answer p) as (p' & -> & ? & _).
  - destruct (keydown_cases key answer p) as [-> | ->]; [done|].
    by destruct (toggleFullscreen_frame answer p) as (p' & -> & ? & _).
Qed.

Lemma sameAppearance_showsMode (p p' : Page) m :
  sameAppearance p p' -> showsMode m p -> showsMode m p'.
Proof.
  unfold sameAppearance, showsMode. intros (-> & -> & -> & -> & ->). tauto.
Qed.

Lemma sameAppearance_showsTheme (p p' : Page) t :
  sameAppearance p p' -> showsTheme t p -> showsTheme t p'.
Proof. unfold sameAppearance, showsTheme. by intros (_ & -> & _). Qed.

Lemma handleEvents_keep_mode (events : list PageEvent) (p : Page) m :
  lastMode events = None ->
  (showsMode m p -> showsMode m (handleEvents events p))
  /\ currentDisplayMode (handleEvents events p) = currentDisplayMode p.
Proof.
  revert p. induction events as [|event rest IH]; intros p Hlast; [done|].
  simpl in *. destruct (lastMode rest); [done|].
  destruct (IH (snd (handleEvent event p)) eq_refl) as [IHshows ->].
  pose proof (handleEvent_appearance event p) as Hevent.
  destruct event as [context|answer|key answer].
  - destruct Hevent as (Hmode & Hclasses & Hbutton).
    rewrite Hlast in *. simpl in *. split; [|done].
    intros (Hm & Hclass & Hb). apply IHshows. split; [congruence|].
    split; [|congruence].
    intros m'. by rewrite Hclasses, modeClass_themed.
  - destruct Hevent as (Hmode & ?). split; [|done].
    intros Hshows. apply IHshows. by eapply sameAppearance_showsMode.
  - destruct Hevent as (Hmode & ?). split; [|done].
    intros Hshows. apply IHshows. by eapply sameAppearance_showsMode.
Qed.

Lemma handleEvents_show_mode (events : list PageEvent) (p : Page) m :
  lastMode events = Some m -> showsMode m (handleEvents events p).
Proof.
  revert p. induction events as [|event rest IH]; intros p Hlast; [done|].
  simpl in *. destruct (lastMode rest) as [m0|] eqn:Hrest.
  { injection Hlast as ->. by apply IH. }
  destruct event as [context|answer|key answer]; try done.
  apply (handleEvents_keep_mode rest _ m Hrest).
  destruct (handleEvent_appearance (HostContextChanged context) p)
    as (Hmode & Hclasses & Hbutton).
  rewrite Hlast in *. simpl in *. split; [done|]. split; [|done].
  intros m'. rewrite Hclasses. apply modeClass_inMode.
Qed.

Lemma handleEvents_keep_theme (events : list PageEvent) (p : Page) t :
  lastTheme events = None ->
  showsTheme t p -> showsTheme t (handleEvents events p).
Proof.
  revert p. induction events as [|event rest IH]; intros p Hlast; [done|].
  simpl in *. destruct (lastTheme rest); [done|].
  intros Hshows. apply IH; [done|].
  pose proof (handleEvent_appearance event p) as Hevent.
  destruct event as [context|answer|key answer].
  - destruct Hevent as (_ & Hclasses & _). rewrite Hlast in *. simpl in *.
    intros t'. by rewrite Hclasses, themeClass_inMode.
  - by eapply sameAppearance_showsTheme.
  - by eapply sameAppearance_showsTheme.
Qed.

Lemma handleEvents_show_theme (events : list PageEvent) (p : Page) t :
  lastTheme events = Some t -> showsTheme t (handleEvents events p).
Proof.
  revert p. induction events as [|event rest IH]; intros p Hlast; [done|].
  simpl in *. destruct (lastTheme rest) as [t0|] eqn:Hrest.
  { injection Hlast as ->. by apply IH. }
  destruct event as [context|answer|key answer]; try done.
  apply (handleEvents_keep_theme rest _ t Hrest).
  destruct (handleEvent_appearance (HostContextChanged context) p)
    as (_ & Hclasses & _).
  rewrite Hlast in *. simpl in *.
  intros t'. rewrite Hclasses, themeClass_inMode. apply themeClass_themed.
Qed.

Lemma handleEvents_other_classes (events : list PageEvent) (p : Page) :
  classList_remove appearanceClasses (bodyClasses (handleEvents events p))
  = classList_remove appearanceClasses (bodyClasses p).
Proof.
  revert p. induction events as [|event rest IH]; intros p; [done|].
  simpl. rewrite IH.
  pose proof (handleEvent_appearance event p) as Hevent.
  destruct event as [context|answer|key answer].
  - destruct Hevent as (_ & -> & _). by rewrite inMode_others, themed_others.
  - by destruct Hevent as (_ & -> & _).
  - by destruct Hevent as (_ & -> & _).
Qed.

(** X15. The appearance of the page follows the host.  After any
    sequence of host contexts, clicks on the fullscreen button and keys,
    whatever the host answered to the requests: the page is in the last
    mode the host announced, the body has the class of that mode and of
    no other mode, and the button shows that mode; when no context
    carried a mode the mode is the one before.  The body has the class
    of the last theme the host announced and of no other theme.  The
    classes of the body that are not of a theme or a mode are as they
    were. *)
Theorem appearance_follows_host (events : list PageEvent) (p : Page) :
  (forall m, lastMode events = Some m -> showsMode m (handleEvents events p))
  /\ (lastMode events = None ->
      currentDisplayMode (handleEvents events p) = currentDisplayMode p)
  /\ (forall t, lastTheme events = Some t ->
                showsTheme t (handleEvents events p))
  /\ classList_remove appearanceClasses (bodyClasses (handleEvents events p))
     = classList_remove appearanceClasses (bodyClasses p).
Proof.
  split; [intros m; apply handleEvents_show_mode|].
  split; [intros Hlast;
          apply (handleEvents_keep_mode events p Inline Hlast)|].
  split; [intros t; apply handleEvents_show_theme|].
  apply handleEvents_other_classes.
Qed.

(** X16. The page never asks for picture-in-picture: over any sequence
    of events, every request it sends is for the inline or the
    fullscreen mode, it sends at most one per click or key, and none for
    a host context. *)
Theorem page_never_requests_pip (events : list PageEvent) (p : Page) :
  exists sent,
    hostRequests (handleEvents events p) = hostRequests p ++ sent
    /\ Forall asksInlineOrFullscreen sent
    /\ (length sent <= userEvents events)%nat.
Proof.
  revert p. induction events as [|event rest IH]; intros p.
  { exists []. by rewrite app_nil_r. }
  simpl. destruct (IH (snd (handleEvent event p))) as (sent & -> & Hsent & Hlen).
  assert (Htoggle : forall answer,
            exists r,
              hostRequests (snd (toggleFullscreen answer p))
              = hostRequests p ++ [r] /\ asksInlineOrFullscreen r).
  { intros answer.
    destruct (toggleFullscreen_frame answer p) as (p' & -> & _ & Hreq).
    simpl. rewrite Hreq.
    eexists. split; [reflexivity|]. unfold asksInlineOrFullscreen.
    destruct (currentDisplayMode p); simpl; auto. }
  destruct event as [context|answer|key answer]; simpl.
  - destruct (onhostcontextchanged_run context p)
      as (p' & -> & (_ & _ & _ & _ & _ & Hreq & _) & _).
    simpl. rewrite Hreq. by exists sent.
  - destruct (Htoggle answer) as (r & -> & Hr).
    exists (r :: sent). rewrite <- app_assoc. split; [done|].
    split; [by constructor|]. simpl. lia.
  - destruct (keydown_cases key answer p) as [-> | ->].
    + exists sent. split; [done|]. split; [done|]. lia.
    + destruct (Htoggle answer) as (r & -> & Hr).
      exists (r :: sent). rewrite <- app_assoc. split; [done|].
      split; [by constructor|]. simpl. lia.
Qed.

End DisplayExtra.

(** ** The page: search *)

Section SearchExtra.
Context `{JSON} `{Engine}.

Lemma showError_run text (p : Page) :
  exists w',
    showError text p
    = (Returned tt, set_world w' (set_weatherContent (ErrorShown text) p))
    /\ sameButLogs (world p) w'.
Proof.
  unfold showError, log_error.
  rewrite (bindP_returned (modifyP _) _ p _ tt eq_refl).
  destruct (inWorld_logToHost HostError "Error displayed"
              (Some (JString text)) (set_weatherContent (ErrorShown text) p))
    as (w' & -> & Hsame).
  by exists w'.
Qed.

(** The [catch] clause of [searchLocation]. *)
Lemma searchLocation_handler_run e (p : Page) :
  exists w',
    (inWorld (log_error "Failed to fetch weather"
                        (Some (JString (thrownMessage e)))) ;;
     showError ("Failed to fetch weather: " +:+ thrownMessage e)) p
    = (Returned tt,
       set_world w'
         (set_weatherContent
            (ErrorShown ("Failed to fetch weather: " +:+ thrownMessage e)) p))
    /\ sameButLogs (world p) w'.
Proof.
  unfold log_error.
  destruct (inWorld_logToHost HostError "Failed to fetch weather"
              (Some (JString (thrownMessage e))) p) as (w1 & Hlog & Hsame1).
  rewrite (bindP_returned _ _ _ _ _ Hlog).
  destruct (showError_run ("Failed to fetch weather: " +:+ thrownMessage e)
              (set_world w1 p)) as (w2 & -> & Hsame2).
  exists w2. split; [done|]. by apply (sameButLogs_trans _ w1).
Qed.

(** [renderWeather] on the page: the data is kept before the favorites
    are read, so it is kept also when reading them fails. *)
Lemma renderWeatherPage_run d (p : Page) :
  match someC (matches (location d)) (favorites (persistedState (world p))) with
  | Normal b =>
      exists w',
        renderWeatherPage d p
        = (Returned tt,
           set_world w'
             (set_weatherContent (WeatherShown d b)
                (set_currentWeatherData (Some d) p)))
        /\ persistedState w' = persistedState (world p)
        /\ clock w' = clock (world p)
  | Throw e =>
      renderWeatherPage d p
      = (Raised (Js e),
         set_world (world p) (set_currentWeatherData (Some d) p))
  end.
Proof.
  unfold renderWeatherPage, log_info.
  rewrite (bindP_returned (modifyP _) _ p _ tt eq_refl).
  destruct (someC _ _) as [b|e] eqn:Hsome.
  - rewrite (bindP_returned (inWorld (isFavorited (location d))) _
               (set_currentWeatherData (Some d) p)
               (set_world (world p) (set_currentWeatherData (Some d) p)) b)
      by (apply inWorld_normal; rewrite isFavorited_run; simpl; by rewrite Hsome).
    rewrite (bindP_returned (modifyP _) _ _ _ tt eq_refl).
    match goal with
    | |- context [(inWorld (setTimeout ?cb ?ms) ≫= _) ?q] =>
        rewrite (bindP_returned (inWorld (setTimeout cb ms)) _ q _ _ eq_refl)
    end.
    match goal with
    | |- context [inWorld (logToHost ?l ?msg ?data) ?q] =>
        destruct (inWorld_logToHost l msg data q) as (w' & -> & Hsame)
    end.
    exists w'. split; [done|].
    unfold sameButLogs in Hsame. by destruct_and!.
  - apply bindP_raised, inWorld_throw.
    rewrite isFavorited_run. simpl. by rewrite Hsome.
Qed.

Lemma tryCatchP_returned {A} (body : P A) handler (p p' : Page) a :
  body p = (Returned a, p') -> tryCatchP body handler p = (Returned a, p').
Proof. intros Hm. unfold tryCatchP. by rewrite Hm. Qed.

Lemma tryCatchP_raised {A} (body : P A) handler (p p' : Page) e :
  body p = (Raised e, p') -> tryCatchP body handler p = handler e p'.
Proof. intros Hm. unfold tryCatchP. by rewrite Hm. Qed.

Lemma tryFinally_returned {A} (body : P A) finalizer (p p' p'' : Page) outcome :
  body p = (outcome, p') ->
  finalizer p' = (Returned tt, p'') ->
  tryFinally body finalizer p = (outcome, p'').
Proof. intros Hm Hf. unfold tryFinally. by rewrite Hm, Hf. Qed.

(** A search with a location that is not blank, case by case. *)
Lemma searchLocation_run place answer (p : Page) :
  isBlank place = false ->
  exists p',
    searchLocation place answer p = (Returned tt, p')
    /\ searchDisabled p' = false
    /\ hostRequests p' = hostRequests p ++ [CallShowWeather place]
    /\ match answer with
       | Raised e =>
           weatherContent p'
           = ErrorShown ("Failed to fetch weather: " +:+ thrownMessage e)
           /\ currentWeatherData p' = currentWeatherData p
           /\ persistedState (world p') = persistedState (world p)
       | Returned result =>
           match meta_weatherData result with
           | None =>
               weatherContent p' = ErrorShown "No weather data in response"
               /\ currentWeatherData p' = currentWeatherData p
               /\ persistedState (world p') = persistedState (world p)
           | Some d =>
               currentWeatherData p' = Some d
               /\ match someC (matches (location d))
                               (favorites (persistedState (world p))) with
                  | Throw e =>
                      weatherContent p'
                      = ErrorShown ("Failed to fetch weather: "
                                      +:+ errorMessage e)
                      /\ persistedState (world p') = persistedState (world p)
                  | Normal b =>
                      wellShaped (searchHistory (persistedState (world p))) ->
                      weatherContent p' = WeatherShown d b
                      /\ loadingHidden p' = true
                      /\ favorites (persistedState (world p'))
                         = favorites (persistedState (world p))
                      /\ searchHistory (persistedState (world p'))
                         = recorded
                             (mkHistoryEntry (location d) (clock (world p)))
                             (searchHistory (persistedState (world p)))
                  end
           end
       end.
Proof.
  intros Hblank. unfold searchLocation, log_info. rewrite Hblank.
  rewrite (bindP_returned (modifyP _) _ p _ tt eq_refl).
  destruct (inWorld_logToHost HostInfo ("Searching for location: " +:+ place)
              None (set_searchDisabled true p)) as (w2 & Hlog2 & Hsame2).
  rewrite (bindP_returned _ _ _ _ _ Hlog2).
  simpl in Hsame2. unfold sameButLogs in Hsame2. destruct_and!.
  set (p2 := set_world w2 (set_searchDisabled true p)).
  set (p3 := set_hostRequests (hostRequests p2 ++ [CallShowWeather place]) p2).
  destruct answer as [result|e].
  - (* the server answered *)
    destruct (inWorld_logToHost HostInfo "Weather tool result received"
                (Some (resultValue result)) p3) as (w4 & Hlog4 & Hsame4).
    simpl in Hsame4. unfold sameButLogs in Hsame4. destruct_and!.
    set (p4 := set_world w4 p3) in *.
    destruct (meta_weatherData result) as [d|] eqn:Hdata.
    + (* with weather data *)
      pose proof (renderWeatherPage_run d p4) as Hrender. simpl in Hrender.
      replace (persistedState w4) with (persistedState (world p)) in Hrender
        by congruence.
      destruct (someC (matches (location d))
                  (favorites (persistedState (world p)))) as [b|e].
      * destruct Hrender as (w5 & Hrender & Hst5 & Hclock5).
        set (p5 := set_loadingHidden true
                     (set_world w5
                        (set_weatherContent (WeatherShown d b)
                           (set_currentWeatherData (Some d) p4)))).
        destruct (addToSearchHistory (location d) w5) as [[[]|e] w6] eqn:Hadd.
        -- erewrite tryFinally_returned; [| |reflexivity]; last first.
           { apply tryCatchP_returned.
             rewrite (bindP_returned _ _ p2 p3 result eq_refl).
             rewrite (bindP_returned _ _ _ _ _ Hlog4). rewrite Hdata.
             rewrite (bindP_returned _ _ _ _ _ Hrender).
             rewrite (bindP_returned hideLoading _ _ p5 tt eq_refl).
             apply (inWorld_normal _ p5). exact Hadd. }
           eexists. split; [reflexivity|]. simpl.
           split; [done|]. split; [done|]. split; [done|].
           intros Hhist.
           destruct (addToSearchHistory_run (location d) w5)
             as (w6' & Hadd' & Hh6 & Hf6 & _); [congruence|].
           rewrite Hadd in Hadd'. injection Hadd' as <-.
           split; [done|]. split; [done|]. split; congruence.
        -- destruct (searchLocation_handler_run (Js e) (set_world w6 p5))
             as (w7 & Hhandler & Hsame7).
           erewrite tryFinally_returned; [| |reflexivity]; last first.
           { erewrite tryCatchP_raised; [exact Hhandler|].
             rewrite (bindP_returned _ _ p2 p3 result eq_refl).
             rewrite (bindP_returned _ _ _ _ _ Hlog4). rewrite Hdata.
             rewrite (bindP_returned _ _ _ _ _ Hrender).
             rewrite (bindP_returned hideLoading _ _ p5 tt eq_refl).
             apply (inWorld_throw _ p5). exact Hadd. }
           eexists. split; [reflexivity|]. simpl.
           split; [done|]. split; [done|]. split; [done|].
           intros Hhist.
           destruct (addToSearchHistory_run (location d) w5)
             as (w6' & Hadd' & _); [congruence|].
           rewrite Hadd in Hadd'. discriminate.
      * destruct (searchLocation_handler_run (Js e)
                    (set_world (world p4) (set_currentWeatherData (Some d) p4)))
          as (w7 & Hhandler & Hsame7).
        erewrite tryFinally_returned; [| |reflexivity]; last first.
        { erewrite tryCatchP_raised; [exact Hhandler|].
          rewrite (bindP_returned _ _ p2 p3 result eq_refl).
          rewrite (bindP_returned _ _ _ _ _ Hlog4). rewrite Hdata.
          apply bindP_raised. exact Hrender. }
        eexists. split; [reflexivity|]. simpl.
        split; [done|]. split; [done|]. split; [done|]. split; [done|].
        simpl in Hsame7. unfold sameButLogs in Hsame7. destruct_and!.
        congruence.
    + (* without weather data *)
      destruct (showError_run "No weather data in response" p4)
        as (w5 & Hshow & Hsame5).
      erewrite tryFinally_returned; [| |reflexivity]; last first.
      { apply tryCatchP_returned.
        rewrite (bindP_returned _ _ p2 p3 result eq_refl).
        rewrite (bindP_returned _ _ _ _ _ Hlog4). rewrite Hdata.
        exact Hshow. }
      eexists. split; [reflexivity|]. simpl.
      split; [done|]. split; [done|]. split; [done|]. split; [done|].
      simpl in Hsame5. unfold sameButLogs in Hsame5. destruct_and!.
      congruence.
  - (* the call failed *)
    destruct (searchLocation_handler_run e p3) as (w7 & Hhandler & Hsame7).
    erewrite tryFinally_returned; [| |reflexivity]; last first.
    { erewrite tryCatchP_raised; [exact Hhandler|].
      by apply bindP_raised. }
    eexists. split; [reflexivity|]. simpl.
    split; [done|]. split; [done|]. split; [done|]. split; [done|].
    simpl in Hsame7. unfold sameButLogs in Hsame7. destruct_and!.
    congruence.
Qed.

(** X17. A search never raises and never leaves the search button
    disabled.  With a blank location no call is made: the page shows the
    request to enter a location, and the button, the kept weather data
    and the persisted state are as before.  Otherwise exactly one
    [show-weather] call is sent and the button is enabled again at the
    end, whether the call failed, the answer had no weather data, or
    rendering or recording raised. *)
Theorem search_button_is_enabled_again place answer (p : Page) :
  exists p',
    searchLocation place answer p = (Returned tt, p')
    /\ if isBlank place
       then hostRequests p' = hostRequests p
            /\ searchDisabled p' = searchDisabled p
            /\ weatherContent p' = ErrorShown "Please enter a location"
            /\ currentWeatherData p' = currentWeatherData p
            /\ persistedState (world p') = persistedState (world p)
       else hostRequests p' = hostRequests p ++ [CallShowWeather place]
            /\ searchDisabled p' = false.
Proof.
  destruct (isBlank place) eqn:Hblank.
  - unfold searchLocation. rewrite Hblank.
    destruct (showError_run "Please enter a location" p) as (w' & -> & Hsame).
    eexists. split; [reflexivity|]. simpl.
    unfold sameButLogs in Hsame. by destruct_and!.
  - destruct (searchLocation_run place answer p Hblank)
      as (p' & Hrun & Henabled & Hrequests & _).
    by exists p'.
Qed.


End SearchExtra.


(** ** The page: starting a stream *)

Section StreamStartExtra.
Context `{JSON} `{Engine}.

(** The [catch] clause of [getWeatherStream]. *)
Lemma getWeatherStream_handler_run e (p : Page) :
  exists w',
    (inWorld (log_error "Failed to start weather stream"
                        (Some (JString (thrownMessage e)))) ;;
     alert ("Failed to start weather stream: " +:+ thrownMessage e)) p
    = (Returned tt,
       set_alerts
         (alerts p ++ ["Failed to start weather stream: " +:+ thrownMessage e])
         (set_world w' p))
    /\ sameButLogs (world p) w'.
Proof.
  unfold log_error.
  destruct (inWorld_logToHost HostError "Failed to start weather stream"
              (Some (JString (thrownMessage e))) p) as (w1 & Hlog & Hsame1).
  rewrite (bindP_returned _ _ _ _ _ Hlog).
  by exists w1.
Qed.

(** X19. [getWeatherStream] never raises, and starts a stream only from
    an answer with updates.  Without kept weather data it only logs a
    warning: no call, no alert, and document and timers as before.  With
    kept data it sends one call for that location; when the call fails,
    or the answer has no array of updates, it alerts the failure with its
    message and document and timers are as before; otherwise it appends
    the modal of the stream and arms one timer per update, without an
    alert. *)
Theorem stream_starts_only_with_updates answer (p : Page) :
  exists p',
    getWeatherStream answer p = (Returned tt, p')
    /\ match currentWeatherData p with
       | None =>
           hostRequests p' = hostRequests p
           /\ alerts p' = alerts p
           /\ streamNotStarted p p'
       | Some d =>
           hostRequests p'
           = hostRequests p
               ++ [CallWeatherStream (location d) (latitude d) (longitude d)]
           /\ match answer with
              | Raised e =>
                  alerts p'
                  = alerts p
                      ++ ["Failed to start weather stream: "
                            +:+ thrownMessage e]
                  /\ streamNotStarted p p'
              | Returned response =>
                  match meta_updates response with
                  | None =>
                      alerts p'
                      = alerts p
                          ++ ["Failed to start weather stream: "
                                +:+ "No stream updates in response"]
                      /\ streamNotStarted p p'
                  | Some updates =>
                      alerts p' = alerts p
                      /\ document (world p')
                         = document (world p)
                             ++ [newModal (meta_streamId response)
                                          (meta_totalPhases response)]
                      /\ exists modal,
                           timers (world p')
                           = timers (world p)
                               ++ imap (phaseTimer (clock (world p))
                                          (nextTimerId (world p)) modal
                                          (meta_totalPhases response))
                                       updates
                  end
              end
       end.
Proof.
  unfold getWeatherStream, log_info, log_warn.
  rewrite (bindP_returned (getsP currentWeatherData) _ p p _ eq_refl).
  destruct (currentWeatherData p) as [d|].
  - match goal with
    | |- context [(inWorld (logToHost ?l ?msg ?data) ≫= _) p] =>
        destruct (inWorld_logToHost l msg data p) as (w1 & Hlog1 & Hsame1)
    end.
    rewrite (bindP_returned _ _ _ _ _ Hlog1).
    unfold sameButLogs in Hsame1. destruct_and!.
    set (p1 := set_world w1 p).
    set (p2 := set_hostRequests
                 (hostRequests p1
                    ++ [CallWeatherStream (location d) (latitude d)
                                          (longitude d)]) p1).
    destruct answer as [response|e].
    + destruct (inWorld_logToHost HostInfo
                  "Received streaming response metadata"
                  (Some (JObject
                           [("_meta",
                             JObject [("streamId",
                                       JString (meta_streamId response));
                                      ("totalPhases",
                                       JNumber (meta_totalPhases response))])]))
                  p2) as (w3 & Hlog3 & Hsame3).
      simpl in Hsame3. unfold sameButLogs in Hsame3. destruct_and!.
      destruct (meta_updates response) as [updates|] eqn:Hupdates.
      * destruct (displayProgressiveInsights_run (meta_streamId response)
                    updates (meta_totalPhases response) w3)
          as (w4 & modal & Hrun & _ & Hdoc & _ & Htimers & _).
        erewrite tryCatchP_returned; last first.
        { rewrite (bindP_returned _ _ p1 p2 response eq_refl).
          rewrite (bindP_returned _ _ _ _ _ Hlog3). rewrite Hupdates.
          apply (inWorld_normal _ (set_world w3 p2)). exact Hrun. }
        eexists. split; [reflexivity|]. simpl.
        split; [done|]. split; [done|]. split; [congruence|].
        exists modal. congruence.
      * destruct (getWeatherStream_handler_run
                    (Error "No stream updates in response") (set_world w3 p2))
          as (w4 & Hhandler & Hsame4).
        erewrite tryCatchP_raised; last first.
        { rewrite (bindP_returned _ _ p1 p2 response eq_refl).
          rewrite (bindP_returned _ _ _ _ _ Hlog3). by rewrite Hupdates. }
        cbv beta. rewrite Hhandler.
        eexists. split; [reflexivity|]. simpl.
        simpl in Hsame4. unfold sameButLogs in Hsame4. destruct_and!.
        split; [done|]. split; [done|].
        unfold streamNotStarted, sameTimers. simpl. repeat split; congruence.
    + destruct (getWeatherStream_handler_run e p2) as (w4 & Hhandler & Hsame4).
      erewrite tryCatchP_raised;
        [|apply (bindP_raised _ _ p1 p2); reflexivity].
      cbv beta. rewrite Hhandler.
      eexists. split; [reflexivity|]. simpl.
      simpl in Hsame4. unfold sameButLogs in Hsame4. destruct_and!.
      split; [done|]. split; [done|].
      unfold streamNotStarted, sameTimers. simpl. repeat split; congruence.
  - match goal with
    | |- context [inWorld (logToHost ?l ?msg ?data) p] =>
        destruct (inWorld_logToHost l msg data p) as (w1 & -> & Hsame1)
    end.
    eexists. split; [reflexivity|]. simpl.
    unfold sameButLogs in Hsame1. destruct_and!. by repeat split.
Qed.

End StreamStartExtra.

(** ** The favorite button *)

Section FavoriteButtonExtra.
Context `{JSON} `{Engine}.

(** X20. A click on the favorite button toggles.  On favorites whose
    entries have a string location the listener returns normally, the
    location is a favorite afterwards exactly when it was none before,
    and the star the button shows afterwards says what [isFavorited]
    says; the search history is untouched. *)
Theorem favorite_click_toggles d (w : World) :
  wellShaped (favorites (persistedState w)) ->
  exists star w',
    favoriteButtonClick d w = (Normal star, w')
    /\ fst (isFavorited (location d) w) = Normal (negb star)
    /\ fst (isFavorited (location d) w') = Normal star
    /\ searchHistory (persistedState w') = searchHistory (persistedState w).
Proof.
  intros Hshape. unfold favoriteButtonClick.
  destruct (someC_wellShaped (location d) _ Hshape) as [favorited Hsome].
  rewrite (bind_normal (isFavorited (location d)) _ w w favorited)
    by (rewrite isFavorited_run; by rewrite Hsome).
  rewrite !isFavorited_run. simpl. rewrite Hsome.
  destruct favorited.
  - destruct (removeFromFavorites_run (location d) w Hshape)
      as (w' & Hrun & Hfavs & Hhist & _).
    rewrite (bind_normal _ _ _ _ _ Hrun).
    exists false, w'. split; [done|]. split; [done|]. split; [|done].
    rewrite Hfavs. by apply someC_filtered.
  - destruct (addToFavorites_new (location d) (latitude d) (longitude d) w Hsome)
      as (w' & Hrun & Hst).
    rewrite (bind_normal _ _ _ _ _ Hrun).
    exists true, w'. split; [done|]. split; [done|]. rewrite Hst. simpl.
    split; [|done].
    apply someC_app_match; [done|].
    by apply matches_mkFavorite.
Qed.

End FavoriteButtonExtra.

Lemma favorite_click_toggles_witness :
  exists star w',
    favoriteButtonClick
      {| location := "Paris"; latitude := 48; longitude := 2 |}
      identifiedWorld = (Normal star, w')
    /\ fst (isFavorited "Paris" identifiedWorld) = Normal (negb star)
    /\ fst (isFavorited "Paris" w') = Normal star
    /\ searchHistory (persistedState w')
       = searchHistory (persistedState identifiedWorld).
Proof.
  apply (favorite_click_toggles
           {| location := "Paris"; latitude := 48; longitude := 2 |}
           identifiedWorld).
  vm_compute. constructor.
Defined.
